(** * SwiftAid: route animator, session state machine and audio bridge

    A shallow embedding of [src/index.tsx].  JavaScript numbers are IEEE-754
    binary64 values; the component logic is written once over a small
    numeric interface [Number] and instantiated twice:

    - [Number_f64]: the kernel's primitive binary64 floats, the arithmetic
      the program runs on (every operation rounds as the hardware does);
    - [Number_R]: the real numbers, the arithmetic without rounding.

    The functions [Math.sin], [Math.cos] and [Math.atan2] are left by the
    language standard to the platform; they enter through the record
    [MathLib]. *)

From Stdlib Require Import ZArith List Bool Lia Lra String.
From Stdlib Require Import PrimFloat FloatOps SpecFloat FloatAxioms.
From Stdlib Require Import Reals Zfloor.
Import ListNotations.

Local Open Scope Z_scope.

(** ** The numeric interface *)

Class Number (A : Type) : Type := {
  nZ     : Z -> A;            (* an integer literal, or an integer made a number *)
  nadd   : A -> A -> A;       (* +  *)
  nsub   : A -> A -> A;       (* -  *)
  nmul   : A -> A -> A;       (* *  *)
  ndiv   : A -> A -> A;       (* /  *)
  nrem   : A -> A -> A;       (* %  *)
  nge    : A -> A -> bool;    (* >= *)
  nmax   : A -> A -> A;       (* Math.max *)
  nceil  : A -> A;            (* Math.ceil *)
  ntrunc : A -> Z             (* the integer a typed-array store starts from:
                                 the value truncated towards zero, 0 when the
                                 value is not finite *)
}.

(** What the platform supplies for [Math]. *)
Record MathLib (A : Type) : Type := {
  Math_PI    : A;
  Math_sin   : A -> A;
  Math_cos   : A -> A;
  Math_atan2 : A -> A -> A
}.
Arguments Math_PI {A} _.
Arguments Math_sin {A} _ _.
Arguments Math_cos {A} _ _.
Arguments Math_atan2 {A} _ _ _.

(** A decimal literal [n/d] (0.002 is [dec 2 1000]): the number nearest to
    the quotient.  On binary64 the division of two small integers is
    correctly rounded, so this is the value the parser produces. *)
Definition dec {A} `{Number A} (n d : Z) : A := ndiv (nZ n) (nZ d).

(** ** binary64 *)

Module F64.

Definition of_Z (z : Z) : float :=
  SF2Prim (binary_normalize prec emax z 0 false).

(** Truncation towards zero; 0 for NaN and the infinities. *)
Definition trunc (x : float) : Z :=
  match Prim2SF x with
  | S754_finite s m e =>
      let a := if 0 <=? e then Z.shiftl (Zpos m) e
               else Z.shiftr (Zpos m) (- e) in
      if s then - a else a
  | _ => 0
  end.

(** [Math.ceil]. *)
Definition ceil (x : float) : float :=
  match Prim2SF x with
  | S754_finite s m e =>
      if 0 <=? e then x
      else
        let q := Z.shiftr (Zpos m) (- e) in
        if s then (if q =? 0 then neg_zero else of_Z (- q))
        else if Z.shiftl q (- e) =? Zpos m then of_Z q else of_Z (q + 1)
  | _ => x
  end.

(** [Math.max] of two numbers: NaN if either is, and +0 above -0. *)
Definition max (a b : float) : float :=
  if is_nan a || is_nan b then nan
  else if ltb a b then b
  else if ltb b a then a
  else if is_zero a && get_sign a then b else a.

(** The remainder operator [%]: exact, with the sign of the dividend. *)
Definition rem (x y : float) : float :=
  match Prim2SF x, Prim2SF y with
  | S754_nan, _ | _, S754_nan => nan
  | S754_infinity _, _ => nan
  | _, S754_zero _ => nan
  | _, S754_infinity _ => x
  | S754_zero _, _ => x
  | S754_finite sx mx ex, S754_finite _ my ey =>
      let e := Z.min ex ey in
      let X := Z.shiftl (Zpos mx) (ex - e) in
      let Y := Z.shiftl (Zpos my) (ey - e) in
      let r := Z.rem X Y in
      SF2Prim (binary_normalize prec emax (if sx then - r else r) e sx)
  end.

End F64.

#[export] Instance Number_f64 : Number float := {
  nZ     := F64.of_Z;
  nadd   := PrimFloat.add;
  nsub   := PrimFloat.sub;
  nmul   := PrimFloat.mul;
  ndiv   := PrimFloat.div;
  nrem   := F64.rem;
  nge    := fun x y => PrimFloat.leb y x;
  nmax   := F64.max;
  nceil  := F64.ceil;
  ntrunc := F64.trunc
}.

(** ** Real numbers *)

Module RNum.

Definition trunc (x : R) : Z :=
  if Rle_dec 0 x then Zfloor x else Zceil x.

Definition rem (x y : R) : R := (x - y * IZR (trunc (x / y)))%R.

Definition ge (x y : R) : bool := if Rle_dec y x then true else false.

End RNum.

#[export] Instance Number_R : Number R := {
  nZ     := IZR;
  nadd   := Rplus;
  nsub   := Rminus;
  nmul   := Rmult;
  ndiv   := Rdiv;
  nrem   := RNum.rem;
  nge    := RNum.ge;
  nmax   := Rmax;
  nceil  := fun x => IZR (Zceil x);
  ntrunc := RNum.trunc
}.

(** ** The component *)

(** [appState]: the three screens.  The specification calls ['emergency']
    the "dispatching" phase. *)
Inductive AppState : Type := idle | emergency | active.

Record FirstAidTip : Type := {
  title : string;
  instruction : string;
  category : string
}.

(** The callbacks handed to [setTimeout]. *)
Inductive Callback : Type :=
| DispatchConfirmed   (* the outer callback of [triggerSOS] *)
| RingIncoming.       (* the inner one: [setIsIncomingCall(true)] *)

(** What [initLiveSession] asks of the platform, in program order. *)
Inductive Effect : Type :=
| CreateClient
| NewAudioContext (sampleRate : Z)
| GetUserMedia (audio video : bool)
| BindVideo
| LiveConnect
| ConsoleError
| CloseContext (sampleRate : Z).

(** The part of the environment the component reads. *)
Record Env : Type := {
  API_KEY : option string;     (* [process.env.API_KEY] *)
  micGranted : bool            (* whether [getUserMedia] resolves *)
}.

(** The controls the render function can put on the screen. *)
Inductive Control : Type :=
| SosButton | FollowButton | PhoneButton
| DeclineButton | AcceptButton
| CloseButton | HangUpButton | VideoButton.

Definition SAMPLE_RATE : Z := 16000.
Definition OUTPUT_SAMPLE_RATE : Z := 24000.

(** Storing a number into an [Int16Array]: the integer part modulo 2^16,
    read as a signed 16-bit value. *)
Definition toInt16 (z : Z) : Z :=
  let u := z mod 65536 in
  if 32768 <=? u then u - 65536 else u.

Section Component.

Context {A : Type} `{Number A}.
Variable M : MathLib A.
Variable env : Env.

Definition coord : Type := (A * A)%type.

(** *** Geo-bearing utility ([getBearing]) *)

Definition getBearing (start end_ : coord) : A :=
  let startLat := ndiv (nmul (fst start) (Math_PI M)) (nZ 180) in
  let startLng := ndiv (nmul (snd start) (Math_PI M)) (nZ 180) in
  let endLat := ndiv (nmul (fst end_) (Math_PI M)) (nZ 180) in
  let endLng := ndiv (nmul (snd end_) (Math_PI M)) (nZ 180) in
  let dLng := nsub endLng startLng in
  let y := nmul (Math_sin M dLng) (Math_cos M endLat) in
  let x := nsub (nmul (Math_cos M startLat) (Math_sin M endLat))
                (nmul (nmul (Math_sin M startLat) (Math_cos M endLat))
                      (Math_cos M dLng)) in
  nrem (nadd (ndiv (nmul (Math_atan2 M y x) (nZ 180)) (Math_PI M)) (nZ 360))
       (nZ 360).

(** *** State *)

(** The route, the vehicle pose and the ETA. *)
Record Track : Type := {
  location : coord;
  fullRoute : list coord;
  currentRouteIndex : nat;
  progressInSegment : A;
  ambulancePos : coord;
  ambulanceBearing : A;
  isFollowingAmbulance : bool;
  eta : A
}.

(** A buffer source handed to the output context: when it starts, how long
    it lasts, and what the output clock showed when it was scheduled. *)
Record Play : Type := {
  startAt : A;
  duration : A;
  clockAt : A;
  samples : list A
}.

(** The refs of the audio bridge. *)
Record Audio : Type := {
  audioContextRef : option Z;          (* the sample rate of the context *)
  outputAudioContextRef : option Z;
  nextStartTimeRef : A;
  started : list Play                  (* the calls of [s.start], oldest first *)
}.

Record App : Type := {
  appState : AppState;
  isIncomingCall : bool;
  isCalling : bool;
  isVideoActive : bool;
  aiSuggestions : list FirstAidTip;
  track : Track;
  audio : Audio;
  clock : nat;                         (* milliseconds *)
  timers : list (nat * Callback);      (* pending timeouts: due time, callback *)
  effects : list Effect                (* platform requests so far, oldest first *)
}.

Definition with_appState (v : AppState) (s : App) : App :=
  {| appState := v; isIncomingCall := isIncomingCall s; isCalling := isCalling s;
     isVideoActive := isVideoActive s; aiSuggestions := aiSuggestions s;
     track := track s; audio := audio s; clock := clock s; timers := timers s;
     effects := effects s |}.

Definition with_isIncomingCall (v : bool) (s : App) : App :=
  {| appState := appState s; isIncomingCall := v; isCalling := isCalling s;
     isVideoActive := isVideoActive s; aiSuggestions := aiSuggestions s;
     track := track s; audio := audio s; clock := clock s; timers := timers s;
     effects := effects s |}.

Definition with_isCalling (v : bool) (s : App) : App :=
  {| appState := appState s; isIncomingCall := isIncomingCall s; isCalling := v;
     isVideoActive := isVideoActive s; aiSuggestions := aiSuggestions s;
     track := track s; audio := audio s; clock := clock s; timers := timers s;
     effects := effects s |}.

Definition with_isVideoActive (v : bool) (s : App) : App :=
  {| appState := appState s; isIncomingCall := isIncomingCall s;
     isCalling := isCalling s; isVideoActive := v;
     aiSuggestions := aiSuggestions s; track := track s; audio := audio s;
     clock := clock s; timers := timers s; effects := effects s |}.

Definition with_aiSuggestions (v : list FirstAidTip) (s : App) : App :=
  {| appState := appState s; isIncomingCall := isIncomingCall s;
     isCalling := isCalling s; isVideoActive := isVideoActive s;
     aiSuggestions := v; track := track s; audio := audio s;
     clock := clock s; timers := timers s; effects := effects s |}.

Definition with_track (v : Track) (s : App) : App :=
  {| appState := appState s; isIncomingCall := isIncomingCall s;
     isCalling := isCalling s; isVideoActive := isVideoActive s;
     aiSuggestions := aiSuggestions s; track := v; audio := audio s;
     clock := clock s; timers := timers s; effects := effects s |}.

Definition with_audio (v : Audio) (s : App) : App :=
  {| appState := appState s; isIncomingCall := isIncomingCall s;
     isCalling := isCalling s; isVideoActive := isVideoActive s;
     aiSuggestions := aiSuggestions s; track := track s; audio := v;
     clock := clock s; timers := timers s; effects := effects s |}.

Definition with_clock (v : nat) (s : App) : App :=
  {| appState := appState s; isIncomingCall := isIncomingCall s;
     isCalling := isCalling s; isVideoActive := isVideoActive s;
     aiSuggestions := aiSuggestions s; track := track s; audio := audio s;
     clock := v; timers := timers s; effects := effects s |}.

Definition with_timers (v : list (nat * Callback)) (s : App) : App :=
  {| appState := appState s; isIncomingCall := isIncomingCall s;
     isCalling := isCalling s; isVideoActive := isVideoActive s;
     aiSuggestions := aiSuggestions s; track := track s; audio := audio s;
     clock := clock s; timers := v; effects := effects s |}.

Definition with_effects (v : list Effect) (s : App) : App :=
  {| appState := appState s; isIncomingCall := isIncomingCall s;
     isCalling := isCalling s; isVideoActive := isVideoActive s;
     aiSuggestions := aiSuggestions s; track := track s; audio := audio s;
     clock := clock s; timers := timers s; effects := v |}.

(** The values of [useState] and [useRef] at the first render. *)
Definition initialTrack : Track :=
  {| location := (dec 51505 1000, dec (-9) 100);
     fullRoute := [];
     currentRouteIndex := 0%nat;
     progressInSegment := nZ 0;
     ambulancePos := (dec 51515 1000, dec (-11) 100);
     ambulanceBearing := nZ 0;
     isFollowingAmbulance := true;
     eta := nZ 7 |}.

Definition initialAudio : Audio :=
  {| audioContextRef := None; outputAudioContextRef := None;
     nextStartTimeRef := nZ 0; started := [] |}.

Definition initialApp : App :=
  {| appState := idle; isIncomingCall := false; isCalling := false;
     isVideoActive := false; aiSuggestions := []; track := initialTrack;
     audio := initialAudio; clock := 0%nat; timers := []; effects := [] |}.

(** *** Route generation (the geolocation callback) *)

Definition mockRoute (userLoc : coord) : list coord :=
  let startLat := nadd (fst userLoc) (dec 15 1000) in
  let startLng := nadd (snd userLoc) (dec 15 1000) in
  [ (startLat, startLng);
    (startLat, nadd (snd userLoc) (dec 1 100));
    (nadd (fst userLoc) (dec 5 1000), nadd (snd userLoc) (dec 1 100));
    (nadd (fst userLoc) (dec 5 1000), snd userLoc);
    userLoc ].

Definition onPosition (userLoc : coord) (t : Track) : Track :=
  let route := mockRoute userLoc in
  {| location := userLoc;
     fullRoute := route;
     currentRouteIndex := currentRouteIndex t;
     progressInSegment := progressInSegment t;
     ambulancePos := nth 0 route (ambulancePos t);
     ambulanceBearing := ambulanceBearing t;
     isFollowingAmbulance := isFollowingAmbulance t;
     eta := eta t |}.

(** *** Route animator (the animation effect) *)

(** The guard of the effect: the interval exists exactly while it holds. *)
Definition animating (phase : AppState) (t : Track) : bool :=
  match phase with
  | active =>
      Z.of_nat (currentRouteIndex t) <? Z.of_nat (List.length (fullRoute t)) - 1
  | _ => false
  end.

Definition stepSize : A := dec 2 1000.

Definition interpolate (start end_ : coord) (p : A) : coord :=
  (nadd (fst start) (nmul (nsub (fst end_) (fst start)) p),
   nadd (snd start) (nmul (nsub (snd end_) (snd start)) p)).

(** The argument of [setEta]. *)
Definition etaAt (t : Track) (nextProgress : A) : A :=
  let remainingSegments :=
    nZ (Z.of_nat (List.length (fullRoute t)) - 1 - Z.of_nat (currentRouteIndex t)) in
  nmax (nZ 1)
       (nceil (nmul (nadd (nsub remainingSegments (nZ 1))
                          (nsub (nZ 1) nextProgress))
                    (nZ 3))).

(** The interval callback, with [start] and [end_] as the effect captured
    them. *)
Definition onInterval (start end_ : coord) (t : Track) : Track :=
  let nextProgress := nadd (progressInSegment t) stepSize in
  if nge nextProgress (nZ 1) then
    {| location := location t;
       fullRoute := fullRoute t;
       currentRouteIndex := S (currentRouteIndex t);
       progressInSegment := nZ 0;
       ambulancePos := ambulancePos t;
       ambulanceBearing := ambulanceBearing t;
       isFollowingAmbulance := isFollowingAmbulance t;
       eta := eta t |}
  else
    {| location := location t;
       fullRoute := fullRoute t;
       currentRouteIndex := currentRouteIndex t;
       progressInSegment := nextProgress;
       ambulancePos := interpolate start end_ nextProgress;
       ambulanceBearing := getBearing start end_;
       isFollowingAmbulance := isFollowingAmbulance t;
       eta := etaAt t nextProgress |}.

(** One period of the interval.  The effect runs again whenever [appState],
    [currentRouteIndex] or [fullRoute] changes, so the captured segment is
    always the current one, and no callback runs once the guard fails. *)
Definition tickTrack (phase : AppState) (t : Track) : Track :=
  if animating phase t then
    match nth_error (fullRoute t) (currentRouteIndex t),
          nth_error (fullRoute t) (S (currentRouteIndex t)) with
    | Some start, Some end_ => onInterval start end_ t
    | _, _ => t
    end
  else t.

Definition tick (s : App) : App := with_track (tickTrack (appState s) (track s)) s.

Fixpoint ticks (n : nat) (s : App) : App :=
  match n with
  | O => s
  | S k => ticks k (tick s)
  end.

(** *** Session state machine *)

Definition tips : list FirstAidTip :=
  [ {| title := "Apply Direct Pressure";
       instruction := "Use the cleanest available cloth and push down hard on the wound.";
       category := "Trauma" |};
    {| title := "Elevate Area";
       instruction := "If possible, keep the injured limb above the level of the heart.";
       category := "Trauma" |};
    {| title := "Monitor Airways";
       instruction := "Ensure the patient's mouth is clear and they are breathing steadily.";
       category := "Critical" |} ].

Definition setTimeout (cb : Callback) (ms : nat) (s : App) : App :=
  with_timers (timers s ++ [((clock s + ms)%nat, cb)]) s.

Definition triggerSOS (s : App) : App :=
  setTimeout DispatchConfirmed 2500 (with_appState emergency s).

Definition runCallback (cb : Callback) (s : App) : App :=
  match cb with
  | DispatchConfirmed =>
      setTimeout RingIncoming 3000
        (with_aiSuggestions tips (with_appState active s))
  | RingIncoming => with_isIncomingCall true s
  end.

Definition isDue (now : nat) (t : nat * Callback) : bool := (fst t <=? now)%nat.

(** Run the timeouts that are due, oldest registration first. *)
Definition fireDue (s : App) : App :=
  fold_left (fun acc t => runCallback (snd t) acc)
            (filter (isDue (clock s)) (timers s))
            (with_timers
               (filter (fun t => negb (isDue (clock s) t)) (timers s)) s).

(** One millisecond passes. *)
Definition elapse1 (s : App) : App := fireDue (with_clock (S (clock s)) s).

Fixpoint elapse (ms : nat) (s : App) : App :=
  match ms with
  | O => s
  | S k => elapse k (elapse1 s)
  end.

(** *** Calls *)

(** [!process.env.API_KEY]: the variable is unset or the empty string. *)
Definition keyMissing : bool :=
  match API_KEY env with
  | None => true
  | Some k => String.eqb k ""
  end.

Definition log (es : list Effect) (s : App) : App :=
  with_effects (effects s ++ es) s.

(** [video] is [isVideoActive] as the closure holds it: the value of the
    render in which the handler was created. *)
Definition initLiveSession (video : bool) (s : App) : App :=
  if keyMissing then s
  else
    let s1 :=
      with_audio
        {| audioContextRef := Some SAMPLE_RATE;
           outputAudioContextRef := Some OUTPUT_SAMPLE_RATE;
           nextStartTimeRef := nextStartTimeRef (audio s);
           started := started (audio s) |}
        (log [CreateClient; NewAudioContext SAMPLE_RATE;
              NewAudioContext OUTPUT_SAMPLE_RATE; GetUserMedia true video] s) in
    if micGranted env then
      log ((if video && isCalling s && isVideoActive s then [BindVideo] else [])
             ++ [LiveConnect]) s1
    else log [ConsoleError] s1.

Definition startCall (withVideo : bool) (s : App) : App :=
  initLiveSession (isVideoActive s)
    (with_isVideoActive withVideo (with_isCalling true s)).

Definition acceptCall (s : App) : App :=
  startCall true (with_isIncomingCall false s).

Definition declineCall (s : App) : App := with_isIncomingCall false s.

Definition closeRef (r : option Z) : list Effect :=
  match r with
  | Some rate => [CloseContext rate]
  | None => []
  end.

Definition endCall (s : App) : App :=
  log (closeRef (audioContextRef (audio s))
         ++ closeRef (outputAudioContextRef (audio s)))
      (with_isVideoActive false (with_isCalling false s)).

Definition toggleFollow (t : Track) : Track :=
  {| location := location t;
     fullRoute := fullRoute t;
     currentRouteIndex := currentRouteIndex t;
     progressInSegment := progressInSegment t;
     ambulancePos := ambulancePos t;
     ambulanceBearing := ambulanceBearing t;
     isFollowingAmbulance := negb (isFollowingAmbulance t);
     eta := eta t |}.

(** *** The view: which controls exist, and what they call *)

Definition rendered (s : App) (c : Control) : bool :=
  match appState s with
  | idle => match c with SosButton => true | _ => false end
  | emergency => false
  | active =>
      match c with
      | SosButton => false
      | FollowButton | PhoneButton => true
      | DeclineButton | AcceptButton => isIncomingCall s
      | CloseButton | HangUpButton | VideoButton => isCalling s
      end
  end.

Definition onClick (c : Control) (s : App) : App :=
  match c with
  | SosButton => triggerSOS s
  | FollowButton => with_track (toggleFollow (track s)) s
  | PhoneButton => startCall false s
  | DeclineButton => declineCall s
  | AcceptButton => acceptCall s
  | CloseButton | HangUpButton => endCall s
  | VideoButton => with_isVideoActive (negb (isVideoActive s)) s
  end.

(** *** Audio bridge *)

(** Capture: [int16[i] = inputData[i] * 32768]. *)
Definition encodeSample (x : A) : Z := toInt16 (ntrunc (nmul x (nZ 32768))).

Definition onaudioprocess (inputData : list A) : list Z :=
  map encodeSample inputData.

(** Playback: [channelData[i] = dataInt16[i] / 32768.0]. *)
Definition decodeSample (v : Z) : A := ndiv (nZ v) (nZ 32768).

(** A server message, reduced to the Int16 samples its payload holds
    ([None]: no inline data).  [createBuffer] rejects an empty buffer, which
    ends the handler before anything is scheduled. *)
Definition onmessage (currentTime : A) (data : option (list Z)) (s : App) : App :=
  match outputAudioContextRef (audio s), data with
  | Some _, Some (v :: rest) =>
      let dataInt16 := v :: rest in
      let channelData := map decodeSample dataInt16 in
      let bufferDuration :=
        ndiv (nZ (Z.of_nat (List.length dataInt16))) (nZ OUTPUT_SAMPLE_RATE) in
      let startTime := nmax (nextStartTimeRef (audio s)) currentTime in
      with_audio
        {| audioContextRef := audioContextRef (audio s);
           outputAudioContextRef := outputAudioContextRef (audio s);
           nextStartTimeRef := nadd startTime bufferDuration;
           started := started (audio s)
                        ++ [ {| startAt := startTime;
                                duration := bufferDuration;
                                clockAt := currentTime;
                                samples := channelData |} ] |}
        s
  | _, _ => s
  end.

(** Messages as they arrive, each with the output clock at that moment. *)
Definition receive (arrivals : list (A * option (list Z))) (s : App) : App :=
  fold_left (fun acc m => onmessage (fst m) (snd m) acc) arrivals s.

End Component.

Arguments coord : clear implicits.
Arguments Track : clear implicits.
Arguments Play : clear implicits.
Arguments Audio : clear implicits.
Arguments App : clear implicits.

(** ** The platform's [Math] over the reals *)

Module RealMath.

Local Open Scope R_scope.

(** The angle of the point [(x, y)], in (-PI, PI]. *)
Definition atan2 (y x : R) : R :=
  if Rlt_dec 0 x then atan (y / x)
  else if Rlt_dec x 0 then
         (if Rle_dec 0 y then atan (y / x) + PI else atan (y / x) - PI)
  else if Rlt_dec 0 y then PI / 2
  else if Rlt_dec y 0 then - (PI / 2)
  else 0.

Definition lib : MathLib R :=
  {| Math_PI := PI; Math_sin := sin; Math_cos := cos; Math_atan2 := atan2 |}.

End RealMath.

(** ** A reference [Math] on binary64

    The language standard leaves the accuracy of [Math.sin], [Math.cos] and
    [Math.atan2] to the platform.  [RefMath.lib] is one such platform:
    polynomial approximations, good to about ten digits.  Theorems about the
    binary64 animator quantify over every [MathLib]; this one runs the model
    on concrete inputs. *)

Module RefMath.

Local Open Scope float_scope.

Definition PI : float := 0x1.921fb54442d18p+1.

Definition horner (coeffs : list float) (z : float) : float :=
  fold_right (fun c acc => c + z * acc) 0 coeffs.

Definition factorial (n : nat) : Z :=
  fold_left Z.mul (map Z.of_nat (seq 1 n)) 1%Z.

Definition alternating (k : nat) (x : float) : float :=
  if Nat.even k then x else - x.

Definition sinCoeffs : list float :=
  map (fun k => alternating k (1 / F64.of_Z (factorial (2 * k + 1)))) (seq 0 14).

Definition cosCoeffs : list float :=
  map (fun k => alternating k (1 / F64.of_Z (factorial (2 * k)))) (seq 0 14).

Definition atanCoeffs : list float :=
  map (fun k => alternating k (1 / F64.of_Z (Z.of_nat (2 * k + 1)))) (seq 0 14).

(** The argument brought into [-PI, PI]. *)
Definition reduce (x : float) : float :=
  let r := F64.rem x (2 * PI) in
  if PI <? r then r - 2 * PI else if r <? - PI then r + 2 * PI else r.

Definition sin (x : float) : float :=
  let r := reduce x in r * horner sinCoeffs (r * r).

Definition cos (x : float) : float :=
  let r := reduce x in horner cosCoeffs (r * r).

Definition halve (t : float) : float := t / (1 + PrimFloat.sqrt (1 + t * t)).

Definition atan_unit (t : float) : float :=
  let u := halve (halve t) in 4 * (u * horner atanCoeffs (u * u)).

Definition atan (t : float) : float :=
  if PrimFloat.abs t <=? 1 then atan_unit t
  else if 0 <? t then PI / 2 - atan_unit (1 / t)
  else - (PI / 2) - atan_unit (1 / t).

Definition atan2 (y x : float) : float :=
  if is_nan y || is_nan x then nan
  else if 0 <? x then atan (y / x)
  else if x <? 0 then (if get_sign y then atan (y / x) - PI else atan (y / x) + PI)
  else if 0 <? y then PI / 2
  else if y <? 0 then - (PI / 2)
  else if get_sign x then (if get_sign y then - PI else PI)
  else y.

Definition lib : MathLib float :=
  {| Math_PI := PI; Math_sin := sin; Math_cos := cos; Math_atan2 := atan2 |}.

End RefMath.

(** ** States and environments for concrete runs *)

Section Demo.

Context {A : Type} `{Number A}.

(** The location the component starts with, [51.505, -0.09]. *)
Definition london : coord A := (dec 51505 1000, dec (-9) 100).

(** The position callback has delivered [london]. *)
Definition located : App A :=
  with_track (onPosition london (track initialApp)) initialApp.

(** SOS was tapped and the dispatch delay has passed. *)
Definition dispatched : App A := elapse 2500 (triggerSOS located).

(** An environment with a credential and a microphone. *)
Definition configured : Env :=
  {| API_KEY := Some "key"%string; micGranted := true |}.

(** The phone button was pressed after the dispatch. *)
Definition inCall : App A := startCall configured false dispatched.

End Demo.

(** * The vocabulary of the statements *)

Section Vocabulary.

Context {A : Type} `{Number A}.
Variable M : MathLib A.
Variable env : Env.

(** The progress value [k] ticks into a segment. *)
Fixpoint progressAfter (k : nat) : A :=
  match k with
  | O => nZ 0
  | S j => nadd (progressAfter j) stepSize
  end.

(** Either the progress is 0, or the pose is the interpolation of the current
    segment at the current progress, which the code found below 1. *)
Definition onSegment (s : App A) : Prop :=
  progressInSegment (track s) = nZ 0 \/
  exists start end_,
    nth_error (fullRoute (track s)) (currentRouteIndex (track s)) = Some start /\
    nth_error (fullRoute (track s)) (S (currentRouteIndex (track s))) = Some end_ /\
    nge (progressInSegment (track s)) (nZ 1) = false /\
    ambulancePos (track s) = interpolate start end_ (progressInSegment (track s)).

(** Everything that can happen to the component: a click on a control that
    is on the screen, a millisecond passing, an animation tick, a position
    fix, a message from the live session. *)
Inductive step : App A -> App A -> Prop :=
| step_click (c : Control) (s : App A) :
    rendered s c = true -> step s (onClick env c s)
| step_elapse (s : App A) : step s (elapse1 s)
| step_tick (s : App A) : step s (tick M s)
| step_position (userLoc : coord A) (s : App A) :
    step s (with_track (onPosition userLoc (track s)) s)
| step_message (currentTime : A) (data : option (list Z)) (s : App A) :
    step s (onmessage currentTime data s).

Inductive steps : App A -> App A -> Prop :=
| steps_refl (s : App A) : steps s s
| steps_cons (s s1 s2 : App A) : step s s1 -> steps s1 s2 -> steps s s2.

End Vocabulary.

(** The order of the phases. *)
Definition phaseRank (p : AppState) : nat :=
  match p with
  | idle => 0
  | emergency => 1
  | active => 2
  end.

Section RealVocabulary.

Local Open Scope R_scope.

(** The number of whole segments after the current one. *)
Definition remainingFullSegments (t : Track R) : Z :=
  (Z.of_nat (List.length (fullRoute t)) - 2 - Z.of_nat (currentRouteIndex t))%Z.

(** The ETA as the specification words it. *)
Definition etaSpec (t : Track R) : R :=
  Rmax 1 (IZR (Zceil ((IZR (remainingFullSegments t)
                       + (1 - progressInSegment t)) * 3))).

(** The progress is in [0,1), and the ETA is at least 1 and at least what any
    later tick of the animation can compute. *)
Definition etaBound (s : App R) : Prop :=
  0 <= progressInSegment (track s) < 1 /\
  1 <= eta (track s) /\
  IZR (Zceil ((IZR (Z.of_nat (List.length (fullRoute (track s))) - 1
                    - Z.of_nat (currentRouteIndex (track s)))
               - progressInSegment (track s)) * 3))
    <= eta (track s).

(** Each source starts no earlier than the one before it ends. *)
Definition backToBack (l : list (Play R)) : Prop :=
  forall i p q,
    nth_error l i = Some p -> nth_error l (S i) = Some q ->
    startAt p + duration p <= startAt q.

(** No source starts before the output clock's reading at its scheduling. *)
Definition notInThePast (l : list (Play R)) : Prop :=
  forall p, In p l -> clockAt p <= startAt p.

(** Every scheduled source ends by the cursor. *)
Definition endsBy (c : R) (l : list (Play R)) : Prop :=
  forall p, In p l -> startAt p + duration p <= c.

(** The invariant of the playback queue. *)
Definition scheduled (s : App R) : Prop :=
  backToBack (started (audio s)) /\
  notInThePast (started (audio s)) /\
  endsBy (nextStartTimeRef (audio s)) (started (audio s)).

(** Degrees to radians, as [getBearing] converts them. *)
Definition rad (deg : R) : R := deg * PI / 180.

(** The arguments [y] and [x] that [getBearing] hands to [Math.atan2]. *)
Definition bearingY (start end_ : coord R) : R :=
  sin (rad (snd end_) - rad (snd start)) * cos (rad (fst end_)).

Definition bearingX (start end_ : coord R) : R :=
  cos (rad (fst start)) * sin (rad (fst end_))
  - sin (rad (fst start)) * cos (rad (fst end_))
    * cos (rad (snd end_) - rad (snd start)).

(** The segment scaled by [k] about its start. *)
Definition scaleAbout (start end_ : coord R) (k : R) : coord R :=
  (fst start + k * (fst end_ - fst start),
   snd start + k * (snd end_ - snd start)).

End RealVocabulary.

(** The ETA on display after each of the next [n] ticks. *)
Fixpoint etaTrace (M : MathLib float) (n : nat) (s : App float) : list float :=
  match n with
  | O => []
  | S k => eta (track (tick M s)) :: etaTrace M k (tick M s)
  end.

(** No element is above the one before it. *)
Fixpoint nonIncreasing (l : list float) : bool :=
  match l with
  | x :: (y :: _) as rest => PrimFloat.leb y x && nonIncreasing rest
  | _ => true
  end.

(** What the ETAs of a five-waypoint route are expected to do: start at 12,
    never increase, never go below 1, end at 1. *)
Definition etaTraceOk (l : list float) : bool :=
  PrimFloat.eqb (hd 0%float l) 12 && nonIncreasing l
  && forallb (PrimFloat.leb 1) l && PrimFloat.eqb (last l 0%float) 1.

(** ** The wire format of a chunk

    Capture views the [Int16Array]'s buffer as bytes and turns each byte
    into a character of the string it sends; playback turns each character
    of the string it received back into a byte and views the bytes as an
    [Int16Array].  Strings are the lists of their character codes; the byte
    order is that of the host (little-endian on the hosts browsers run on).
    [btoa] and [atob] stay with the platform. *)

(** The two bytes the [Uint8Array] view shows for one 16-bit element. *)
Definition int16Bytes (v : Z) : list Z :=
  let u := v mod 65536 in [u mod 256; u / 256].

(** [new Uint8Array(int16.buffer)], then [String.fromCharCode] on each byte. *)
Fixpoint packInt16 (int16 : list Z) : list Z :=
  match int16 with
  | [] => []
  | v :: rest => int16Bytes v ++ packInt16 rest
  end.

(** Storing a character code into a [Uint8Array]. *)
Definition toUint8 (c : Z) : Z := c mod 256.

(** [new Int16Array(bytes.buffer)]: a [RangeError] when the number of bytes
    is odd. *)
Fixpoint viewInt16 (bytes : list Z) : option (list Z) :=
  match bytes with
  | [] => Some []
  | lo :: hi :: rest =>
      option_map (cons (toInt16 (lo + 256 * hi))) (viewInt16 rest)
  | _ :: [] => None
  end.

Section Wire.

Context {A : Type} `{Number A}.

(** The string [binary] that [onaudioprocess] hands to [btoa]. *)
Definition captureBinary (inputData : list A) : list Z :=
  packInt16 (onaudioprocess inputData).

(** The samples [onmessage] writes into the buffer's channel, from the
    string [atob] returned. *)
Definition playbackSamples (binary : list Z) : option (list A) :=
  option_map (map decodeSample) (viewInt16 (map toUint8 binary)).

(** [onmessage] from the string [atob] returned ([None]: no inline data).
    An exception thrown while the bytes are viewed ends the handler. *)
Definition onmessageBinary
  (currentTime : A) (binary : option (list Z)) (s : App A) : App A :=
  match binary with
  | None => s
  | Some b =>
      match viewInt16 (map toUint8 b) with
      | None => s
      | Some dataInt16 => onmessage currentTime (Some dataInt16) s
      end
  end.

End Wire.

(** [f] holds of the [2 ^ n] integers from [base * 2 ^ n] on: the check
    that runs through all 16-bit values. *)
Fixpoint holdsOnBlock (n : nat) (f : Z -> bool) (base : Z) : bool :=
  match n with
  | O => f base
  | S k => holdsOnBlock k f (2 * base) && holdsOnBlock k f (2 * base + 1)
  end.

(** Storing a number in a [Float32Array] (the channel data of an audio
    buffer is one) and reading it back: rounding to the nearest binary32
    value, ties to even. *)
Definition toFloat32 (x : float) : float :=
  match Prim2SF x with
  | S754_finite s m e =>
      match binary_round 24 128 s m e with
      | S754_finite s' m' e' => SF2Prim (binary_round 53 1024 s' m' e')
      | other => SF2Prim other
      end
  | _ => x
  end.

(** NaN and the two infinities. *)
Definition nonFinite (x : float) : bool :=
  match Prim2SF x with
  | S754_nan | S754_infinity _ => true
  | _ => false
  end.

(** ** Vocabulary of the playback queue *)

(** The sample lists of the messages that carry audio, in arrival order. *)
Fixpoint payloads {A : Type} (arrivals : list (A * option (list Z))) : list (list Z) :=
  match arrivals with
  | [] => []
  | (_, Some (v :: rest)) :: more => (v :: rest) :: payloads more
  | _ :: more => payloads more
  end.

(** The seconds of audio in those messages, at the output rate. *)
Definition queuedSeconds (arrivals : list (R * option (list Z))) : R :=
  fold_right
    (fun l acc => (IZR (Z.of_nat (List.length l)) / IZR OUTPUT_SAMPLE_RATE + acc)%R)
    0%R (payloads arrivals).

(** Every message arrives while the queue still has audio to play, or at
    the very moment it runs out. *)
Fixpoint noUnderrun (arrivals : list (R * option (list Z))) (s : App R) : Prop :=
  match arrivals with
  | [] => True
  | (t, data) :: more =>
      (t <= nextStartTimeRef (audio s))%R /\ noUnderrun more (onmessage t data s)
  end.

(** Each source starts exactly when the one before it ends. *)
Definition gapless (l : list (Play R)) : Prop :=
  forall i p q,
    nth_error l i = Some p -> nth_error l (S i) = Some q ->
    startAt q = (startAt p + duration p)%R.

(** The invariant of a queue that never ran out: the sources follow one
    another without a gap, and the last one ends at the cursor. *)
Definition noGap (s : App R) : Prop :=
  gapless (started (audio s)) /\
  forall p,
    nth_error (started (audio s)) (List.length (started (audio s)) - 1) = Some p ->
    (startAt p + duration p)%R = nextStartTimeRef (audio s).

(** ** Vocabulary of the session *)

Section SessionVocabulary.

Context {A : Type}.

(** Nothing of a call or of the guidance exists yet. *)
Definition untouched (s : App A) : Prop :=
  isIncomingCall s = false /\ isCalling s = false /\ isVideoActive s = false /\
  aiSuggestions s = [] /\ effects s = [] /\
  audioContextRef (audio s) = None /\ outputAudioContextRef (audio s) = None /\
  started (audio s) = [].

(** What each phase goes with. *)
Definition sessionInv (s : App A) : Prop :=
  match appState s with
  | idle => timers s = [] /\ untouched s
  | emergency => (exists due, timers s = [(due, DispatchConfirmed)]) /\ untouched s
  | active =>
      aiSuggestions s = tips /\
      (timers s = [] \/ exists due, timers s = [(due, RingIncoming)])
  end.

End SessionVocabulary.

(** The passing of time without user action: milliseconds, which run the
    timeouts that fall due, and periods of the animation interval, in any
    interleaving. *)
Inductive Passing : Type :=
| Wait (ms : nat)     (* [ms] milliseconds pass *)
| IntervalTick.       (* the interval callback runs once *)

Section TimeVocabulary.

Context {A : Type} `{Number A}.
Variable M : MathLib A.

Definition pass (e : Passing) (s : App A) : App A :=
  match e with
  | Wait ms => elapse ms s
  | IntervalTick => tick M s
  end.

Definition passing (l : list Passing) (s : App A) : App A :=
  fold_left (fun acc e => pass e acc) l s.

End TimeVocabulary.

(** The milliseconds of a schedule. *)
Definition waited (l : list Passing) : nat :=
  fold_right (fun e n => match e with Wait ms => (ms + n)%nat | IntervalTick => n end)
             0%nat l.

(** * Facts about the route animator *)

Section AnimatorFacts.

Context {A : Type} `{Number A}.
Variable M : MathLib A.

Lemma with_track_same (s : App A) : with_track (track s) s = s.
Proof. destruct s; reflexivity. Qed.

Lemma ticks_add (a b : nat) (s : App A) :
  ticks M (a + b) s = ticks M b (ticks M a s).
Proof.
  revert s; induction a as [|a IH]; intros s; simpl; [reflexivity|apply IH].
Qed.

Lemma ticks_succ (k : nat) (s : App A) :
  ticks M (S k) s = tick M (ticks M k s).
Proof.
  replace (S k) with (k + 1)%nat by lia. rewrite ticks_add. reflexivity.
Qed.

Lemma ticks_appState (k : nat) (s : App A) :
  appState (ticks M k s) = appState s.
Proof.
  revert s; induction k as [|k IH]; intros s; simpl; [reflexivity|].
  rewrite IH. reflexivity.
Qed.

Lemma tickTrack_fullRoute (ph : AppState) (t : Track A) :
  fullRoute (tickTrack M ph t) = fullRoute t.
Proof.
  unfold tickTrack, onInterval.
  destruct (animating ph t); [|reflexivity].
  destruct (nth_error _ _); [|reflexivity].
  destruct (nth_error _ _); [|reflexivity].
  destruct (nge _ _); reflexivity.
Qed.

Lemma ticks_fullRoute (k : nat) (s : App A) :
  fullRoute (track (ticks M k s)) = fullRoute (track s).
Proof.
  revert s; induction k as [|k IH]; intros s; simpl; [reflexivity|].
  rewrite IH. simpl. apply tickTrack_fullRoute.
Qed.

(** While the effect's guard holds, both ends of the current segment exist. *)
Lemma animating_segment (ph : AppState) (t : Track A) :
  animating ph t = true ->
  ph = active /\
  exists start end_,
    nth_error (fullRoute t) (currentRouteIndex t) = Some start /\
    nth_error (fullRoute t) (S (currentRouteIndex t)) = Some end_.
Proof.
  unfold animating. destruct ph; try discriminate. intros Hlt.
  apply Z.ltb_lt in Hlt. split; [reflexivity|].
  destruct (nth_error (fullRoute t) (currentRouteIndex t)) as [a|] eqn:Ea.
  - destruct (nth_error (fullRoute t) (S (currentRouteIndex t))) as [b|] eqn:Eb.
    + exists a, b. split; reflexivity.
    + apply nth_error_None in Eb. lia.
  - apply nth_error_None in Ea. lia.
Qed.

Lemma not_animating_tick (s : App A) :
  animating (appState s) (track s) = false -> tick M s = s.
Proof.
  intros Hn. unfold tick, tickTrack. rewrite Hn. apply with_track_same.
Qed.

Lemma not_animating_ticks (k : nat) (s : App A) :
  animating (appState s) (track s) = false -> ticks M k s = s.
Proof.
  intros Hn. induction k as [|k IH]; simpl; [reflexivity|].
  rewrite (not_animating_tick s Hn). exact IH.
Qed.

(** ** Counting the ticks of a segment

    [K] is the number of the first addition of [stepSize] that reaches 1.
    Each instance of the arithmetic determines it by evaluation. *)
Section Segments.

Variable K : nat.
Hypothesis below : forall j, (j < K)%nat -> nge (progressAfter (S j)) (nZ 1) = false.
Hypothesis reach : nge (progressAfter (S K)) (nZ 1) = true.

Lemma within_segment (k : nat) (s : App A) :
  (k <= K)%nat ->
  animating (appState s) (track s) = true ->
  progressInSegment (track s) = nZ 0 ->
  currentRouteIndex (track (ticks M k s)) = currentRouteIndex (track s) /\
  progressInSegment (track (ticks M k s)) = progressAfter k.
Proof.
  intros Hk Han Hp0. induction k as [|k IH].
  - simpl. split; [reflexivity|exact Hp0].
  - destruct IH as [Hi Hp]; [lia|].
    rewrite ticks_succ. unfold tick at 1 2. simpl track.
    set (sk := ticks M k s) in *.
    assert (Hank : animating (appState sk) (track sk) = true).
    { unfold animating in *. unfold sk. rewrite ticks_appState.
      fold sk. rewrite Hi. unfold sk. rewrite ticks_fullRoute. exact Han. }
    destruct (animating_segment _ _ Hank) as [_ (a & b & Ea & Eb)].
    unfold tickTrack. rewrite Hank, Ea, Eb. unfold onInterval.
    rewrite Hp. change (nadd (progressAfter k) stepSize) with (progressAfter (S k)).
    rewrite (below k) by lia. simpl. split; [exact Hi|reflexivity].
Qed.

Lemma segment_end (s : App A) :
  animating (appState s) (track s) = true ->
  progressInSegment (track s) = nZ 0 ->
  currentRouteIndex (track (ticks M (S K) s)) = S (currentRouteIndex (track s)) /\
  progressInSegment (track (ticks M (S K) s)) = nZ 0.
Proof.
  intros Han Hp0.
  destruct (within_segment K s (le_n K) Han Hp0) as [Hi Hp].
  rewrite ticks_succ. unfold tick at 1 2. simpl track.
  set (sk := ticks M K s) in *.
  assert (Hank : animating (appState sk) (track sk) = true).
  { unfold animating in *. unfold sk. rewrite ticks_appState.
    fold sk. rewrite Hi. unfold sk. rewrite ticks_fullRoute. exact Han. }
  destruct (animating_segment _ _ Hank) as [_ (a & b & Ea & Eb)].
  unfold tickTrack. rewrite Hank, Ea, Eb. unfold onInterval.
  rewrite Hp. change (nadd (progressAfter K) stepSize) with (progressAfter (S K)).
  rewrite reach. simpl. split; [rewrite Hi; reflexivity|reflexivity].
Qed.

Lemma animating_active (t : Track A) :
  animating active t = true <->
  (S (currentRouteIndex t) < List.length (fullRoute t))%nat.
Proof.
  unfold animating. rewrite Z.ltb_lt. lia.
Qed.

(** [m] whole segments take [m * S K] ticks. *)
Lemma after_segments (m : nat) (s : App A) :
  appState s = active ->
  progressInSegment (track s) = nZ 0 ->
  (currentRouteIndex (track s) + m < List.length (fullRoute (track s)))%nat ->
  currentRouteIndex (track (ticks M (m * S K) s))
    = (currentRouteIndex (track s) + m)%nat /\
  progressInSegment (track (ticks M (m * S K) s)) = nZ 0.
Proof.
  revert s. induction m as [|m IH]; intros s Hact Hp0 Hlen.
  - simpl. split; [lia|exact Hp0].
  - replace (S m * S K)%nat with (S K + m * S K)%nat by lia.
    rewrite ticks_add.
    assert (Han : animating (appState s) (track s) = true).
    { rewrite Hact. apply animating_active. lia. }
    destruct (segment_end s Han Hp0) as [Hi Hp].
    set (s1 := ticks M (S K) s) in *.
    destruct (IH s1) as [Hi' Hp'].
    + unfold s1. rewrite ticks_appState. exact Hact.
    + exact Hp.
    + rewrite Hi. unfold s1. rewrite ticks_fullRoute. lia.
    + split; [rewrite Hi', Hi; lia|exact Hp'].
Qed.

(** Until then the interval is running. *)
Lemma running_before (m t : nat) (s : App A) :
  appState s = active ->
  progressInSegment (track s) = nZ 0 ->
  (currentRouteIndex (track s) + m < List.length (fullRoute (track s)))%nat ->
  (t < m * S K)%nat ->
  animating (appState (ticks M t s)) (track (ticks M t s)) = true.
Proof.
  intros Hact Hp0 Hlen Ht.
  pose (q := (t / S K)%nat). pose (r := (t mod S K)%nat).
  assert (Hqr : t = (q * S K + r)%nat).
  { unfold q, r. rewrite (Nat.div_mod_eq t (S K)) at 1. lia. }
  assert (Hr : (r < S K)%nat) by (unfold r; apply Nat.mod_upper_bound; lia).
  assert (Hq : (q < m)%nat) by nia.
  rewrite Hqr, ticks_add.
  destruct (after_segments q s Hact Hp0) as [Hi Hp]; [lia|].
  set (sq := ticks M (q * S K) s) in *.
  assert (Hactq : appState sq = active)
    by (unfold sq; rewrite ticks_appState; exact Hact).
  assert (Hanq : animating (appState sq) (track sq) = true).
  { rewrite Hactq. apply animating_active. rewrite Hi.
    unfold sq. rewrite ticks_fullRoute. lia. }
  destruct (within_segment r sq) as [Hi' _]; [lia|exact Hanq|exact Hp|].
  rewrite ticks_appState, Hactq. apply animating_active.
  rewrite Hi', ticks_fullRoute. apply animating_active.
  rewrite <- Hactq. exact Hanq.
Qed.

(** A route of [N >= 2] waypoints entered at its first waypoint: the
    interval runs for exactly [(N - 1) * S K] ticks. *)
Lemma completion (s : App A) :
  appState s = active ->
  currentRouteIndex (track s) = 0%nat ->
  progressInSegment (track s) = nZ 0 ->
  (2 <= List.length (fullRoute (track s)))%nat ->
  let T := ((List.length (fullRoute (track s)) - 1) * S K)%nat in
  (forall k, (k < T)%nat ->
     animating (appState (ticks M k s)) (track (ticks M k s)) = true) /\
  currentRouteIndex (track (ticks M T s))
    = (List.length (fullRoute (track s)) - 1)%nat /\
  animating (appState (ticks M T s)) (track (ticks M T s)) = false /\
  (forall k, (T <= k)%nat -> ticks M k s = ticks M T s).
Proof.
  intros Hact Hi0 Hp0 Hlen T.
  assert (Hroom : (currentRouteIndex (track s)
                   + (List.length (fullRoute (track s)) - 1)
                   < List.length (fullRoute (track s)))%nat) by lia.
  destruct (after_segments _ s Hact Hp0 Hroom) as [Hi _]. fold T in Hi.
  assert (Hstop : animating (appState (ticks M T s)) (track (ticks M T s)) = false).
  { rewrite ticks_appState, Hact.
    destruct (animating active (track (ticks M T s))) eqn:E; [|reflexivity].
    apply animating_active in E. rewrite Hi, ticks_fullRoute in E. lia. }
  split; [|split; [|split]].
  - intros k Hk. apply (running_before _ k s Hact Hp0 Hroom). exact Hk.
  - rewrite Hi. lia.
  - exact Hstop.
  - intros k Hk. replace k with (T + (k - T))%nat by lia.
    rewrite ticks_add. apply not_animating_ticks. exact Hstop.
Qed.

End Segments.

End AnimatorFacts.

(** ** Ticks per segment in binary64

    The sum of 499 steps of 0.002 is still below 1; the 500th addition
    gives 1.0000000000000007. *)

Lemma f64_below (j : nat) :
  (j < 499)%nat -> nge (progressAfter (A := float) (S j)) (nZ 1) = false.
Proof.
  intros Hj.
  assert (Hall : forallb (fun j => negb (nge (progressAfter (A := float) (S j)) (nZ 1)))
                         (seq 0 499) = true) by (vm_compute; reflexivity).
  rewrite forallb_forall in Hall.
  apply negb_true_iff, Hall, in_seq. lia.
Qed.

Lemma f64_reach : nge (progressAfter (A := float) 500) (nZ 1) = true.
Proof. vm_compute. reflexivity. Qed.

(** [ceil(1 / step)] is 500 on binary64 as well. *)
Lemma f64_ticks_per_segment :
  nceil (ndiv (nZ 1) (stepSize (A := float))) = nZ 500.
Proof. vm_compute. reflexivity. Qed.


(** * The interpolated position *)

Section PositionFacts.

Context {A : Type} `{Number A}.
Variable M : MathLib A.

Lemma tick_onSegment (s : App A) : onSegment s -> onSegment (tick M s).
Proof.
  intros Hs. unfold tick, tickTrack.
  destruct (animating (appState s) (track s)) eqn:Han.
  - destruct (animating_segment _ _ Han) as [_ (a & b & Ea & Eb)].
    rewrite Ea, Eb. unfold onInterval.
    destruct (nge (nadd (progressInSegment (track s)) stepSize) (nZ 1)) eqn:Hge.
    + left. reflexivity.
    + right. exists a, b. simpl. repeat split; assumption.
  - rewrite with_track_same. exact Hs.
Qed.

Lemma ticks_onSegment (n : nat) (s : App A) :
  onSegment s -> onSegment (ticks M n s).
Proof.
  revert s. induction n as [|n IH]; intros s Hs; simpl; [exact Hs|].
  apply IH, tick_onSegment, Hs.
Qed.

(** What a tick does to the track when the advanced progress reaches 1. *)
Lemma tick_boundary (s : App A) :
  animating (appState s) (track s) = true ->
  nge (nadd (progressInSegment (track s)) stepSize) (nZ 1) = true ->
  track (tick M s) =
    {| location := location (track s);
       fullRoute := fullRoute (track s);
       currentRouteIndex := S (currentRouteIndex (track s));
       progressInSegment := nZ 0;
       ambulancePos := ambulancePos (track s);
       ambulanceBearing := ambulanceBearing (track s);
       isFollowingAmbulance := isFollowingAmbulance (track s);
       eta := eta (track s) |}.
Proof.
  intros Han Hge. unfold tick, tickTrack. cbn [track with_track]. rewrite Han.
  destruct (animating_segment _ _ Han) as [_ (a & b & Ea & Eb)].
  rewrite Ea, Eb. unfold onInterval. rewrite Hge. reflexivity.
Qed.

(** What it does otherwise. *)
Lemma tick_inside (s : App A) (start end_ : coord A) :
  animating (appState s) (track s) = true ->
  nth_error (fullRoute (track s)) (currentRouteIndex (track s)) = Some start ->
  nth_error (fullRoute (track s)) (S (currentRouteIndex (track s))) = Some end_ ->
  nge (nadd (progressInSegment (track s)) stepSize) (nZ 1) = false ->
  track (tick M s) =
    {| location := location (track s);
       fullRoute := fullRoute (track s);
       currentRouteIndex := currentRouteIndex (track s);
       progressInSegment := nadd (progressInSegment (track s)) stepSize;
       ambulancePos :=
         interpolate start end_ (nadd (progressInSegment (track s)) stepSize);
       ambulanceBearing := getBearing M start end_;
       isFollowingAmbulance := isFollowingAmbulance (track s);
       eta := etaAt (track s) (nadd (progressInSegment (track s)) stepSize) |}.
Proof.
  intros Han Ea Eb Hge. unfold tick, tickTrack. cbn [track with_track].
  rewrite Han, Ea, Eb. unfold onInterval. rewrite Hge. reflexivity.
Qed.

End PositionFacts.

(** * Where the interval leaves the marker *)

Section RestingPose.

Context {A : Type} `{Number A}.
Variable M : MathLib A.
Variable K : nat.
Hypothesis below : forall j, (j < S K)%nat -> nge (progressAfter (S j)) (nZ 1) = false.
Hypothesis reach : nge (progressAfter (S (S K))) (nZ 1) = true.

(** The [S (S K)] ticks of the last segment: the last pose written is the
    interpolation at the last progress below 1, and the boundary tick after
    it writes none. *)
Lemma last_segment_pose (s : App A) (start end_ : coord A) :
  appState s = active ->
  progressInSegment (track s) = nZ 0 ->
  nth_error (fullRoute (track s)) (currentRouteIndex (track s)) = Some start ->
  nth_error (fullRoute (track s)) (S (currentRouteIndex (track s))) = Some end_ ->
  List.length (fullRoute (track s)) = S (S (currentRouteIndex (track s))) ->
  ambulancePos (track (ticks M (S (S K)) s))
    = interpolate start end_ (progressAfter (S K)).
Proof.
  intros Hact Hp0 Ea Eb Hlen.
  assert (Han : animating (appState s) (track s) = true).
  { rewrite Hact. apply animating_active. lia. }
  rewrite (ticks_succ M (S K) s), (ticks_succ M K s).
  destruct (within_segment M (S K) below K s) as [Hi Hp];
    [lia|exact Han|exact Hp0|].
  pose proof (ticks_fullRoute M K s) as Hr.
  pose proof (ticks_appState M K s) as Ha.
  revert Hi Hp Hr Ha. generalize (ticks M K s) as sB. intros sB Hi Hp Hr Ha.
  assert (HanB : animating (appState sB) (track sB) = true).
  { rewrite Ha, Hact. apply animating_active. rewrite Hi, Hr. lia. }
  assert (Hnext : nadd (progressInSegment (track sB)) stepSize = progressAfter (S K)).
  { rewrite Hp. reflexivity. }
  assert (Hge : nge (nadd (progressInSegment (track sB)) stepSize) (nZ 1) = false).
  { rewrite Hnext. apply below. lia. }
  assert (EaB : nth_error (fullRoute (track sB)) (currentRouteIndex (track sB)) = Some start)
    by (rewrite Hr, Hi; exact Ea).
  assert (EbB : nth_error (fullRoute (track sB)) (S (currentRouteIndex (track sB))) = Some end_)
    by (rewrite Hr, Hi; exact Eb).
  pose proof (tick_inside M sB start end_ HanB EaB EbB Hge) as EC.
  remember (tick M sB) as sC eqn:EsC.
  assert (HaC : appState sC = active).
  { rewrite EsC. change (appState (tick M sB)) with (appState sB).
    rewrite Ha. exact Hact. }
  assert (HanC : animating (appState sC) (track sC) = true).
  { rewrite HaC. apply animating_active. rewrite EC.
    cbn [currentRouteIndex fullRoute]. rewrite Hi, Hr. lia. }
  assert (HgeC : nge (nadd (progressInSegment (track sC)) stepSize) (nZ 1) = true).
  { rewrite EC. cbn [progressInSegment]. rewrite Hnext. exact reach. }
  rewrite (tick_boundary M sC HanC HgeC). cbn [ambulancePos].
  rewrite EC. cbn [ambulancePos]. rewrite Hnext. reflexivity.
Qed.

(** Where the marker is when the interval stops. *)
Lemma resting_pose (s : App A) (start end_ : coord A) :
  appState s = active ->
  currentRouteIndex (track s) = 0%nat ->
  progressInSegment (track s) = nZ 0 ->
  (2 <= List.length (fullRoute (track s)))%nat ->
  nth_error (fullRoute (track s)) (List.length (fullRoute (track s)) - 2) = Some start ->
  nth_error (fullRoute (track s)) (List.length (fullRoute (track s)) - 1) = Some end_ ->
  ambulancePos (track (ticks M ((List.length (fullRoute (track s)) - 1) * S (S K)) s))
    = interpolate start end_ (progressAfter (S K)).
Proof.
  intros Hact Hi0 Hp0 HN Ea Eb.
  set (N := List.length (fullRoute (track s))) in *.
  replace (N - 1)%nat with (S (N - 2)) by lia. rewrite Nat.mul_succ_l.
  rewrite ticks_add.
  destruct (after_segments M (S K) below reach (N - 2) s Hact Hp0) as [Hi Hp];
    [fold N; lia|].
  pose proof (ticks_fullRoute M ((N - 2) * S (S K)) s) as Hr.
  pose proof (ticks_appState M ((N - 2) * S (S K)) s) as Ha.
  revert Hi Hp Hr Ha. generalize (ticks M ((N - 2) * S (S K)) s) as sA.
  intros sA Hi Hp Hr Ha.
  rewrite Hi0 in Hi. cbn [Nat.add] in Hi.
  apply last_segment_pose.
  - rewrite Ha. exact Hact.
  - exact Hp.
  - rewrite Hr, Hi. exact Ea.
  - rewrite Hr, Hi. replace (S (N - 2)) with (N - 1)%nat by lia. exact Eb.
  - rewrite Hr, Hi. fold N. lia.
Qed.

End RestingPose.


(** C2: On binary64, a route of N >= 2 waypoints entered in the active phase
    at its first waypoint keeps the interval running for exactly
    (N - 1) * 500 ticks, 500 being ceil(1 / step); after them the route index
    is that of the final waypoint, the effect's guard is false and further
    ticks change nothing.  The marker then rests where the 499th tick of the
    last segment put it: at the interpolation of that segment at the
    progress reached by 499 steps, not at the final waypoint.  A route of at
    most one waypoint never starts the interval: no tick changes the
    state. *)
Theorem route_completion (M : MathLib float) (s : App float) :
  appState s = active ->
  currentRouteIndex (track s) = 0%nat ->
  progressInSegment (track s) = nZ 0 ->
  let N := List.length (fullRoute (track s)) in
  let T := ((N - 1) * 500)%nat in
  ((2 <= N)%nat ->
     (forall k, (k < T)%nat ->
        animating (appState (ticks M k s)) (track (ticks M k s)) = true) /\
     currentRouteIndex (track (ticks M T s)) = (N - 1)%nat /\
     animating (appState (ticks M T s)) (track (ticks M T s)) = false /\
     (forall k, (T <= k)%nat -> ticks M k s = ticks M T s) /\
     (forall start end_,
        nth_error (fullRoute (track s)) (N - 2) = Some start ->
        nth_error (fullRoute (track s)) (N - 1) = Some end_ ->
        ambulancePos (track (ticks M T s))
          = interpolate start end_ (progressAfter 499))) /\
  ((N <= 1)%nat -> forall k, ticks M k s = s) /\
  nceil (ndiv (nZ 1) (stepSize (A := float))) = nZ 500.
Proof.
  intros Hact Hi0 Hp0 N T. split; [|split].
  - intros HN.
    destruct (completion M 499 f64_below f64_reach s Hact Hi0 Hp0 HN)
      as (Hrun & Hidx & Hstop & Hstay).
    split; [exact Hrun|]. split; [exact Hidx|]. split; [exact Hstop|].
    split; [exact Hstay|].
    intros start end_ Ea Eb.
    exact (resting_pose M 498 f64_below f64_reach s start end_ Hact Hi0 Hp0 HN Ea Eb).
  - intros HN k. apply not_animating_ticks.
    rewrite Hact. destruct (animating active (track s)) eqn:E; [|reflexivity].
    apply animating_active in E. fold N in E. lia.
  - exact f64_ticks_per_segment.
Qed.

Lemma route_completion_witness :
  let s := dispatched (A := float) in
  let N := List.length (fullRoute (track s)) in
  let T := ((N - 1) * 500)%nat in
  (N = 5%nat /\ T = 2000%nat) /\
  (forall k, (k < T)%nat ->
     animating (appState (ticks RefMath.lib k s)) (track (ticks RefMath.lib k s)) = true) /\
  currentRouteIndex (track (ticks RefMath.lib T s)) = (N - 1)%nat /\
  animating (appState (ticks RefMath.lib T s)) (track (ticks RefMath.lib T s)) = false /\
  (forall k, (T <= k)%nat -> ticks RefMath.lib k s = ticks RefMath.lib T s) /\
  (forall start end_,
     nth_error (fullRoute (track s)) (N - 2) = Some start ->
     nth_error (fullRoute (track s)) (N - 1) = Some end_ ->
     ambulancePos (track (ticks RefMath.lib T s))
       = interpolate start end_ (progressAfter 499)).
Proof.
  cbv zeta.
  assert (HN : List.length (fullRoute (track (dispatched (A := float)))) = 5%nat)
    by (vm_compute; reflexivity).
  split; [split; [exact HN|rewrite HN; reflexivity]|].
  assert (Hact : appState (dispatched (A := float)) = active)
    by (vm_compute; reflexivity).
  assert (Hi0 : currentRouteIndex (track (dispatched (A := float))) = 0%nat)
    by (vm_compute; reflexivity).
  assert (Hp0 : progressInSegment (track (dispatched (A := float))) = nZ 0)
    by (vm_compute; reflexivity).
  apply (proj1 (route_completion RefMath.lib dispatched Hact Hi0 Hp0)).
  rewrite HN. lia.
Defined.

(** Two positions whose latitudes compare different are different. *)
Lemma distinct_latitude (p q : coord float) :
  PrimFloat.eqb (fst p) (fst q) = false ->
  PrimFloat.eqb (fst q) (fst q) = true ->
  p <> q.
Proof.
  intros Hpq Hqq E. subst p. rewrite Hqq in Hpq. discriminate Hpq.
Qed.

(** C2 (as stated) fails: after the 2000 ticks of the five-waypoint route the
    interval has stopped with the route index on the final waypoint, but the
    marker is not there: it stands north of it, where the last tick that wrote
    a position left it. *)
Lemma marker_stops_short :
  let s := dispatched (A := float) in
  let s' := ticks RefMath.lib 2000 s in
  let final := nth 4 (fullRoute (track s)) (ambulancePos (track s)) in
  List.length (fullRoute (track s)) = 5%nat /\
  currentRouteIndex (track s') = 4%nat /\
  animating (appState s') (track s') = false /\
  ambulancePos (track s') <> final /\
  PrimFloat.ltb (fst final) (fst (ambulancePos (track s'))) = true.
Proof.
  cbv zeta.
  assert (HN : List.length (fullRoute (track (dispatched (A := float)))) = 5%nat)
    by (vm_compute; reflexivity).
  assert (Hact : appState (dispatched (A := float)) = active)
    by (vm_compute; reflexivity).
  assert (Hi0 : currentRouteIndex (track (dispatched (A := float))) = 0%nat)
    by (vm_compute; reflexivity).
  assert (Hp0 : progressInSegment (track (dispatched (A := float))) = nZ 0)
    by (vm_compute; reflexivity).
  assert (H2 : (2 <= List.length (fullRoute (track (dispatched (A := float)))))%nat)
    by (rewrite HN; lia).
  destruct (completion RefMath.lib 499 f64_below f64_reach dispatched Hact Hi0 Hp0 H2)
    as (_ & Hidx & Hstop & _).
  pose proof (resting_pose RefMath.lib 498 f64_below f64_reach dispatched
                (nth 3 (fullRoute (track dispatched)) (0, 0)%float)
                (nth 4 (fullRoute (track dispatched)) (0, 0)%float)
                Hact Hi0 Hp0 H2) as Hpose.
  rewrite HN in Hidx, Hstop, Hpose.
  change ((5 - 1) * 500)%nat with 2000%nat in Hidx, Hstop.
  change ((5 - 1) * S (S 498))%nat with 2000%nat in Hpose.
  split; [exact HN|]. split; [exact Hidx|]. split; [exact Hstop|].
  rewrite Hpose by (vm_compute; reflexivity).
  split; [apply (distinct_latitude _ _); vm_compute; reflexivity|].
  vm_compute; reflexivity.
Qed.

(** * The position at a given progress *)


(** C4 (as amended): from a state whose progress is 0, after any number of
    ticks either the progress is 0 again, or the reported position is
    start + (end - start) * progress in each component, for the current
    segment [start, end] and a progress the code found below 1. *)
Theorem position_is_interpolated
  {A : Type} `{Number A} (M : MathLib A) (s : App A) (n : nat) :
  progressInSegment (track s) = nZ 0 ->
  let s' := ticks M n s in
  progressInSegment (track s') = nZ 0 \/
  exists start end_,
    nth_error (fullRoute (track s')) (currentRouteIndex (track s')) = Some start /\
    nth_error (fullRoute (track s')) (S (currentRouteIndex (track s'))) = Some end_ /\
    nge (progressInSegment (track s')) (nZ 1) = false /\
    ambulancePos (track s') =
      (nadd (fst start)
            (nmul (nsub (fst end_) (fst start)) (progressInSegment (track s'))),
       nadd (snd start)
            (nmul (nsub (snd end_) (snd start)) (progressInSegment (track s')))).
Proof.
  intros Hp0 s'. apply (ticks_onSegment M n s). left. exact Hp0.
Qed.

Lemma position_is_interpolated_witness :
  let s' := ticks RefMath.lib 250 (dispatched (A := float)) in
  progressInSegment (track s') = nZ 0 \/
  exists start end_,
    nth_error (fullRoute (track s')) (currentRouteIndex (track s')) = Some start /\
    nth_error (fullRoute (track s')) (S (currentRouteIndex (track s'))) = Some end_ /\
    nge (progressInSegment (track s')) (nZ 1) = false /\
    ambulancePos (track s') =
      (nadd (fst start)
            (nmul (nsub (fst end_) (fst start)) (progressInSegment (track s'))),
       nadd (snd start)
            (nmul (nsub (snd end_) (snd start)) (progressInSegment (track s')))).
Proof.
  apply (position_is_interpolated RefMath.lib (dispatched (A := float)) 250).
  vm_compute. reflexivity.
Defined.

(** Two positions whose longitudes compare different are different. *)
Lemma distinct_longitude (p q : coord float) :
  PrimFloat.eqb (snd p) (snd q) = false ->
  PrimFloat.eqb (snd q) (snd q) = true ->
  p <> q.
Proof.
  intros Hpq Hqq E. subst p. rewrite Hqq in Hpq. discriminate Hpq.
Qed.

(** C4 (as stated) fails: 500 ticks into the five-waypoint route the progress
    is 0 on the second segment, and the reported position is not that
    segment's interpolation at progress 0 (its start): it is still the last
    position written on the first segment. *)
Lemma position_stale_after_boundary :
  let s' := ticks RefMath.lib 500 (dispatched (A := float)) in
  let start := nth 1 (fullRoute (track s')) (ambulancePos (track s')) in
  let end_ := nth 2 (fullRoute (track s')) (ambulancePos (track s')) in
  currentRouteIndex (track s') = 1%nat /\
  progressInSegment (track s') = nZ 0 /\
  nge (progressInSegment (track s')) (nZ 1) = false /\
  ambulancePos (track s') <> interpolate start end_ (progressInSegment (track s')) /\
  ambulancePos (track s')
    = ambulancePos (track (ticks RefMath.lib 499 (dispatched (A := float)))).
Proof.
  cbv zeta.
  split; [vm_compute; reflexivity|].
  split; [vm_compute; reflexivity|].
  split; [vm_compute; reflexivity|].
  split; [|vm_compute; reflexivity].
  apply (distinct_longitude _ _); vm_compute; reflexivity.
Qed.

(** C10: a tick whose advanced progress reaches 1 increments the route index
    and resets the progress to 0, and leaves the position, the bearing, the
    ETA and every other field as they were; so such a tick writes no pose.
    Any tick leaves the position as it was, or writes the interpolation of the
    current segment at a progress the code found below 1. *)
Theorem boundary_tick_frame
  {A : Type} `{Number A} (M : MathLib A) (s : App A) :
  (animating (appState s) (track s) = true ->
   nge (nadd (progressInSegment (track s)) stepSize) (nZ 1) = true ->
   tick M s =
     with_track
       {| location := location (track s);
          fullRoute := fullRoute (track s);
          currentRouteIndex := S (currentRouteIndex (track s));
          progressInSegment := nZ 0;
          ambulancePos := ambulancePos (track s);
          ambulanceBearing := ambulanceBearing (track s);
          isFollowingAmbulance := isFollowingAmbulance (track s);
          eta := eta (track s) |} s) /\
  (ambulancePos (track (tick M s)) = ambulancePos (track s) \/
   exists start end_,
     nth_error (fullRoute (track s)) (currentRouteIndex (track s)) = Some start /\
     nth_error (fullRoute (track s)) (S (currentRouteIndex (track s))) = Some end_ /\
     nge (progressInSegment (track (tick M s))) (nZ 1) = false /\
     ambulancePos (track (tick M s)) =
       interpolate start end_ (progressInSegment (track (tick M s)))).
Proof.
  split.
  - intros Han Hge. unfold tick at 1. f_equal.
    exact (tick_boundary M s Han Hge).
  - destruct (animating (appState s) (track s)) eqn:Han.
    + destruct (animating_segment _ _ Han) as [_ (a & b & Ea & Eb)].
      destruct (nge (nadd (progressInSegment (track s)) stepSize) (nZ 1)) eqn:Hge.
      * left. rewrite (tick_boundary M s Han Hge). reflexivity.
      * right. exists a, b. rewrite (tick_inside M s a b Han Ea Eb Hge). simpl.
        repeat split; assumption.
    + left. rewrite (not_animating_tick M s Han). reflexivity.
Qed.

Lemma boundary_tick_frame_witness :
  let s := ticks RefMath.lib 499 (dispatched (A := float)) in
  animating (appState s) (track s) = true /\
  nge (nadd (progressInSegment (track s)) stepSize) (nZ 1) = true /\
  tick RefMath.lib s =
    with_track
      {| location := location (track s);
         fullRoute := fullRoute (track s);
         currentRouteIndex := S (currentRouteIndex (track s));
         progressInSegment := nZ 0;
         ambulancePos := ambulancePos (track s);
         ambulanceBearing := ambulanceBearing (track s);
         isFollowingAmbulance := isFollowingAmbulance (track s);
         eta := eta (track s) |} s.
Proof.
  cbv zeta.
  assert (Han : animating (appState (ticks RefMath.lib 499 (dispatched (A := float))))
                          (track (ticks RefMath.lib 499 (dispatched (A := float)))) = true)
    by (vm_compute; reflexivity).
  assert (Hge : nge (nadd (progressInSegment
                             (track (ticks RefMath.lib 499 (dispatched (A := float)))))
                          stepSize) (nZ 1) = true)
    by (vm_compute; reflexivity).
  split; [exact Han|]. split; [exact Hge|].
  exact (proj1 (boundary_tick_frame RefMath.lib
                  (ticks RefMath.lib 499 (dispatched (A := float)))) Han Hge).
Defined.


(** * The ETA, in arithmetic without rounding *)

Section EtaFacts.

Variable M : MathLib R.

Local Open Scope R_scope.

Lemma ge_false (x y : R) : nge x y = false -> x < y.
Proof.
  cbn. unfold RNum.ge. destruct (Rle_dec y x); [discriminate|lra].
Qed.

Lemma ge_true (x y : R) : nge x y = true -> y <= x.
Proof.
  cbn. unfold RNum.ge. destruct (Rle_dec y x); [lra|discriminate].
Qed.

Lemma stepSize_R : stepSize (A := R) = 2 / 1000.
Proof. reflexivity. Qed.

Lemma etaAt_spec (t : Track R) (p : R) :
  etaAt t p =
  Rmax 1 (IZR (Zceil ((IZR (Z.of_nat (List.length (fullRoute t)) - 1
                            - Z.of_nat (currentRouteIndex t)) - p) * 3))).
Proof.
  unfold etaAt. cbn. f_equal. f_equal. f_equal. lra.
Qed.

(** A tick that computes an ETA computes the specification's formula. *)
Lemma tick_inside_eta (s : App R) :
  animating (appState s) (track s) = true ->
  nge (nadd (progressInSegment (track s)) stepSize) (nZ 1) = false ->
  eta (track (tick M s)) = etaSpec (track (tick M s)).
Proof.
  intros Han Hge.
  destruct (animating_segment _ _ Han) as [_ (a & b & Ea & Eb)].
  rewrite (tick_inside M s a b Han Ea Eb Hge).
  unfold etaSpec, remainingFullSegments. cbn [eta progressInSegment fullRoute currentRouteIndex].
  unfold etaAt. cbn. f_equal. f_equal. f_equal.
  rewrite !minus_IZR. lra.
Qed.

Lemma tick_etaBound (s : App R) :
  etaBound s ->
  etaBound (tick M s) /\ eta (track (tick M s)) <= eta (track s).
Proof.
  intros (Hp & H1 & Hb).
  destruct (animating (appState s) (track s)) eqn:Han.
  - destruct (animating_segment _ _ Han) as [_ (a & b & Ea & Eb)].
    destruct (nge (nadd (progressInSegment (track s)) stepSize) (nZ 1)) eqn:Hge.
    + unfold etaBound. rewrite (tick_boundary M s Han Hge).
      cbn [eta progressInSegment fullRoute currentRouteIndex track].
      split; [|lra]. split; [cbn; lra|]. split; [exact H1|].
      eapply Rle_trans; [|exact Hb].
      apply IZR_le, Zceil_le.
      rewrite Nat2Z.inj_succ. unfold Z.succ. rewrite !minus_IZR, plus_IZR.
      cbn. lra.
    + pose proof (ge_false _ _ Hge) as Hlt. cbn in Hlt.
      unfold etaBound. rewrite (tick_inside M s a b Han Ea Eb Hge).
      cbn [eta progressInSegment fullRoute currentRouteIndex track].
      rewrite etaAt_spec. cbn.
      assert (Hmono :
        IZR (Zceil ((IZR (Z.of_nat (List.length (fullRoute (track s))) - 1
                          - Z.of_nat (currentRouteIndex (track s)))
                     - (progressInSegment (track s) + 2 / 1000)) * 3))
        <= eta (track s)).
      { eapply Rle_trans; [|exact Hb]. apply IZR_le, Zceil_le. lra. }
      split; [split; [lra|split; [apply Rmax_l|apply Rmax_r]]|].
      apply Rmax_lub; [exact H1|exact Hmono].
  - rewrite (not_animating_tick M s Han). split; [|lra].
    split; [exact Hp|split; [exact H1|exact Hb]].
Qed.

Lemma ticks_etaBound (n : nat) (s : App R) :
  etaBound s -> etaBound (ticks M n s).
Proof.
  revert s. induction n as [|n IH]; intros s Hs; simpl; [exact Hs|].
  apply IH, tick_etaBound, Hs.
Qed.

(** The first tick of a segment entered at progress 0 computes an ETA. *)
Lemma first_tick_etaBound (s : App R) :
  animating (appState s) (track s) = true ->
  progressInSegment (track s) = 0 ->
  etaBound (tick M s).
Proof.
  intros Han Hp0.
  destruct (animating_segment _ _ Han) as [_ (a & b & Ea & Eb)].
  assert (Hge : nge (nadd (progressInSegment (track s)) stepSize) (nZ 1) = false).
  { rewrite Hp0. cbn. unfold RNum.ge.
    destruct (Rle_dec 1 (0 + 2 / 1000)); [lra|reflexivity]. }
  unfold etaBound. rewrite (tick_inside M s a b Han Ea Eb Hge).
  cbn [eta progressInSegment fullRoute currentRouteIndex track].
  rewrite etaAt_spec, Hp0. cbn.
  split; [lra|]. split; [apply Rmax_l|apply Rmax_r].
Qed.

End EtaFacts.

(** Without rounding, in the active phase, on a route entered at progress 0
    with a segment ahead: a tick that computes an ETA computes
    max(1, ceil((remaining_full_segments + (1 - progress)) * 3)) for the
    progress it writes; from the first tick on the ETA never increases from
    one tick to the next, across segment boundaries too, and is never below
    1. *)
Lemma eta_exact (M : MathLib R) (s : App R) (n : nat) :
  animating (appState s) (track s) = true ->
  progressInSegment (track s) = 0%R ->
  (1 <= n)%nat ->
  let before := ticks M n s in
  let after := ticks M (S n) s in
  (animating (appState before) (track before) = true ->
   nge (nadd (progressInSegment (track before)) stepSize) (nZ 1) = false ->
   eta (track after) =
     Rmax 1 (IZR (Zceil ((IZR (remainingFullSegments (track after))
                          + (1 - progressInSegment (track after))) * 3)%R))) /\
  (eta (track after) <= eta (track before))%R /\
  (1 <= eta (track before))%R /\
  (1 <= eta (track after))%R.
Proof.
  intros Han Hp0 Hn before after.
  assert (Hb : etaBound before).
  { unfold before. destruct n as [|n]; [lia|]. simpl.
    apply ticks_etaBound, first_tick_etaBound; assumption. }
  assert (Hafter : after = tick M before) by apply ticks_succ.
  destruct (tick_etaBound M before Hb) as [Ha Hle].
  rewrite <- Hafter in Ha, Hle.
  split; [|split; [exact Hle|split]].
  - intros Han' Hge. rewrite Hafter. apply tick_inside_eta; assumption.
  - apply Hb.
  - apply Ha.
Qed.

(** On binary64 the ETAs the five-waypoint route displays, tick after tick
    until well after the animation has stopped, are checked by evaluation,
    whatever the location and the platform's [Math]. *)
Lemma eta_trace_binary64 (M : MathLib float) (userLoc : coord float) :
  etaTraceOk
    (etaTrace M 2100
       (with_appState active
          (with_track (onPosition userLoc initialTrack) initialApp))) = true.
Proof.
  vm_compute. reflexivity.
Qed.

(** C5: in the active phase every tick that computes an ETA sets it to
    max(1, ceil((remaining_full_segments + (1 - progress)) * 3)), with the
    progress the tick writes and the segments after the current one.
    Without rounding, on any route entered at progress 0 with a segment
    ahead, from the first tick on the ETA never increases from one tick to
    the next, across segment boundaries too, and is never below 1.  On
    binary64 the same holds of the whole animation of every route the
    component builds, whatever the location and the platform's [Math]. *)
Theorem eta_non_increasing :
  (forall (A : Type) (HA : Number A) (M : MathLib A) (s : App A) (start end_ : coord A),
     animating (appState s) (track s) = true ->
     nth_error (fullRoute (track s)) (currentRouteIndex (track s)) = Some start ->
     nth_error (fullRoute (track s)) (S (currentRouteIndex (track s))) = Some end_ ->
     nge (nadd (progressInSegment (track s)) stepSize) (nZ 1) = false ->
     let remainingSegments :=
       nZ (Z.of_nat (List.length (fullRoute (track s))) - 1
           - Z.of_nat (currentRouteIndex (track s))) in
     eta (track (tick M s)) =
       nmax (nZ 1)
            (nceil (nmul (nadd (nsub remainingSegments (nZ 1))
                               (nsub (nZ 1) (progressInSegment (track (tick M s)))))
                         (nZ 3)))) /\
  (forall (M : MathLib R) (s : App R) (n : nat),
     animating (appState s) (track s) = true ->
     progressInSegment (track s) = 0%R ->
     (1 <= n)%nat ->
     let before := ticks M n s in
     let after := ticks M (S n) s in
     (animating (appState before) (track before) = true ->
      nge (nadd (progressInSegment (track before)) stepSize) (nZ 1) = false ->
      eta (track after) =
        Rmax 1 (IZR (Zceil ((IZR (remainingFullSegments (track after))
                             + (1 - progressInSegment (track after))) * 3)%R))) /\
     (eta (track after) <= eta (track before))%R /\
     (1 <= eta (track before))%R /\
     (1 <= eta (track after))%R) /\
  (forall (M : MathLib float) (userLoc : coord float),
     etaTraceOk
       (etaTrace M 2100
          (with_appState active
             (with_track (onPosition userLoc initialTrack) initialApp))) = true).
Proof.
  split; [|split].
  - intros A HA M s start end_ Han Ea Eb Hge remainingSegments.
    rewrite (tick_inside M s start end_ Han Ea Eb Hge). reflexivity.
  - exact eta_exact.
  - exact eta_trace_binary64.
Qed.

Lemma eta_non_increasing_witness :
  let before := ticks RealMath.lib 1 (dispatched (A := R)) in
  let after := ticks RealMath.lib 2 (dispatched (A := R)) in
  ((eta (track after) <= eta (track before))%R /\
   (1 <= eta (track before))%R /\
   (1 <= eta (track after))%R) /\
  etaTraceOk
    (etaTrace RefMath.lib 2100
       (with_appState active
          (with_track (onPosition london initialTrack) initialApp))) = true.
Proof.
  cbv zeta.
  assert (Han : animating (appState (dispatched (A := R)))
                          (track (dispatched (A := R))) = true)
    by (vm_compute; reflexivity).
  assert (Hp0 : progressInSegment (track (dispatched (A := R))) = 0%R)
    by (vm_compute; reflexivity).
  assert (Hn : (1 <= 1)%nat) by lia.
  split.
  - exact (proj2 (proj1 (proj2 eta_non_increasing)
                    RealMath.lib dispatched 1%nat Han Hp0 Hn)).
  - exact (proj2 (proj2 eta_non_increasing) RefMath.lib london).
Defined.

(** * Playback scheduling, in arithmetic without rounding *)

Section PlaybackFacts.

Local Open Scope R_scope.

Lemma bufferDuration_nonneg (n : nat) :
  0 <= IZR (Z.of_nat n) / IZR OUTPUT_SAMPLE_RATE.
Proof.
  assert (0 <= IZR (Z.of_nat n)) by (apply IZR_le; lia).
  unfold OUTPUT_SAMPLE_RATE. apply Rmult_le_pos; [assumption|].
  apply Rlt_le, Rinv_0_lt_compat. lra.
Qed.

Lemma backToBack_snoc (l : list (Play R)) (c : R) (x : Play R) :
  backToBack l -> endsBy c l -> c <= startAt x -> backToBack (l ++ [x]).
Proof.
  intros Hl Hc Hx i p q Hp Hq.
  destruct (Nat.lt_ge_cases (S i) (List.length l)) as [Hlt|Hge].
  - rewrite nth_error_app1 in Hp by lia. rewrite nth_error_app1 in Hq by lia.
    exact (Hl i p q Hp Hq).
  - assert (Hi : (i < List.length l)%nat).
    { apply nth_error_Some. intros E.
      assert (Hq' : nth_error (l ++ [x]) (S i) <> None) by congruence.
      apply nth_error_Some in Hq'. rewrite length_app in Hq'. simpl in Hq'.
      assert (Hp' : nth_error (l ++ [x]) i <> None) by congruence.
      destruct (Nat.lt_ge_cases i (List.length l)) as [Hlt'|Hge'].
      - apply nth_error_Some in Hlt'. contradiction.
      - lia. }
    rewrite nth_error_app1 in Hp by lia.
    rewrite nth_error_app2 in Hq by lia.
    replace (S i - List.length l)%nat with 0%nat in Hq by lia.
    simpl in Hq. injection Hq as <-.
    apply nth_error_In in Hp. specialize (Hc p Hp). lra.
Qed.

(** One message: the cursor does not go back, and the schedule stays in
    order. *)
Lemma onmessage_scheduled (t : R) (data : option (list Z)) (s : App R) :
  scheduled s ->
  scheduled (onmessage t data s) /\
  nextStartTimeRef (audio s) <= nextStartTimeRef (audio (onmessage t data s)).
Proof.
  intros (Hb & Hn & He). unfold onmessage.
  destruct (outputAudioContextRef (audio s)) as [rate|];
    [|split; [repeat split; assumption|lra]].
  destruct data as [[|v rest]|]; try (split; [repeat split; assumption|lra]).
  unfold scheduled.
  cbn [audio with_audio nextStartTimeRef started].
  set (d := ndiv (nZ (Z.of_nat (List.length (v :: rest)))) (nZ OUTPUT_SAMPLE_RATE)).
  assert (Hd : 0 <= d) by apply bufferDuration_nonneg.
  set (c := nextStartTimeRef (audio s)) in *.
  assert (Hmax1 : c <= nmax c t) by apply Rmax_l.
  assert (Hmax2 : t <= nmax c t) by apply Rmax_r.
  cbn [nadd nmax Number_R] in *.
  split; [split; [|split]|lra].
  - apply (backToBack_snoc _ c); [exact Hb|exact He|exact Hmax1].
  - intros p Hp. apply in_app_or in Hp. destruct Hp as [Hp|[<-|[]]].
    + exact (Hn p Hp).
    + exact Hmax2.
  - intros p Hp. apply in_app_or in Hp. destruct Hp as [Hp|[<-|[]]].
    + specialize (He p Hp). lra.
    + cbn [startAt duration]. lra.
Qed.

Lemma receive_scheduled (arrivals : list (R * option (list Z))) (s : App R) :
  scheduled s ->
  scheduled (receive arrivals s) /\
  nextStartTimeRef (audio s) <= nextStartTimeRef (audio (receive arrivals s)).
Proof.
  revert s. induction arrivals as [|[t data] rest IH]; intros s Hs.
  - simpl. split; [exact Hs|lra].
  - change (receive ((t, data) :: rest) s)
      with (receive rest (onmessage t data s)).
    destruct (onmessage_scheduled t data s Hs) as [Hs1 Hc1].
    destruct (IH _ Hs1) as [Hs2 Hc2]. split; [exact Hs2|lra].
Qed.

End PlaybackFacts.

(** C3: without rounding, starting with nothing scheduled, after any sequence
    of messages (each with the reading of the output clock when it arrives):
    every scheduled chunk starts no earlier than the end of the chunk
    scheduled before it (its start plus its duration) and no earlier than the
    clock reading at its own scheduling; and the next-start-time cursor never
    decreases, over one message or over many. *)
Theorem playback_schedule
  (arrivals more : list (R * option (list Z))) (s : App R) :
  started (audio s) = [] ->
  let s1 := receive arrivals s in
  let s2 := receive more s1 in
  (forall i p q,
     nth_error (started (audio s1)) i = Some p ->
     nth_error (started (audio s1)) (S i) = Some q ->
     (startAt p + duration p <= startAt q)%R) /\
  (forall p, In p (started (audio s1)) -> (clockAt p <= startAt p)%R) /\
  (nextStartTimeRef (audio s) <= nextStartTimeRef (audio s1))%R /\
  (nextStartTimeRef (audio s1) <= nextStartTimeRef (audio s2))%R.
Proof.
  intros Hnone s1 s2.
  assert (Hs : scheduled s).
  { unfold scheduled, backToBack, notInThePast, endsBy. rewrite Hnone.
    repeat split.
    - intros [|i] p q Hp; discriminate Hp.
    - intros p [].
    - intros p []. }
  destruct (receive_scheduled arrivals s Hs) as [(Hb & Hn & _) Hc].
  destruct (receive_scheduled more s1) as [_ Hc2].
  { destruct (receive_scheduled arrivals s Hs) as [H1 _]. exact H1. }
  repeat split; assumption.
Qed.

Lemma playback_schedule_witness :
  let s1 := receive [(0%R, Some [0; 1; -1]%Z); (5%R, None); (1%R, Some [7]%Z)]
                    (inCall (A := R)) in
  let s2 := receive [(2%R, Some [3; 4]%Z)] s1 in
  (forall i p q,
     nth_error (started (audio s1)) i = Some p ->
     nth_error (started (audio s1)) (S i) = Some q ->
     (startAt p + duration p <= startAt q)%R) /\
  (forall p, In p (started (audio s1)) -> (clockAt p <= startAt p)%R) /\
  (nextStartTimeRef (audio (inCall (A := R))) <= nextStartTimeRef (audio s1))%R /\
  (nextStartTimeRef (audio s1) <= nextStartTimeRef (audio s2))%R.
Proof.
  apply (playback_schedule _ _ (inCall (A := R))).
  vm_compute. reflexivity.
Defined.

(** * The sample codec *)

Lemma toInt16_in_range (n : Z) :
  (-32768 <= n <= 32767)%Z -> toInt16 n = n.
Proof.
  intros Hn. unfold toInt16.
  destruct (Z.ltb_spec n 0) as [Hneg|Hpos].
  - assert (E : (n mod 65536 = n + 65536)%Z).
    { symmetry. apply (Z.mod_unique n 65536 (-1) (n + 65536)); lia. }
    rewrite E. destruct (Z.leb_spec 32768 (n + 65536)); lia.
  - rewrite Z.mod_small by lia.
    destruct (Z.leb_spec 32768 n); lia.
Qed.

(** Without rounding, a sample in [-1, 1) comes back within 1/32768. *)
Lemma codec_error_below_full_scale (x : R) :
  (-1 <= x < 1)%R ->
  (Rabs (decodeSample (encodeSample x) - x) < 1 / 32768)%R.
Proof.
  intros Hx. unfold encodeSample, decodeSample. cbn.
  set (y := (x * 32768)%R).
  assert (Hy : (-32768 <= y < 32768)%R) by (unfold y; lra).
  assert (Ht : (-32768 <= RNum.trunc y <= 32767)%Z /\
               (Rabs (IZR (RNum.trunc y) - y) < 1)%R).
  { unfold RNum.trunc. destruct (Rle_dec 0 y) as [Hpos|Hneg].
    - pose proof (Zfloor_bound y) as [Hlo Hhi].
      split.
      + split.
        * assert (0 <= Zfloor y)%Z by (apply Zfloor_lub; exact Hpos). lia.
        * assert (Zfloor y < 32768)%Z by (apply lt_IZR; lra). lia.
      + apply Rabs_def1; lra.
    - pose proof (Zceil_bound y) as [Hlo Hhi].
      split.
      + split.
        * apply le_IZR. lra.
        * assert (Zceil y < 1)%Z by (apply lt_IZR; lra). lia.
      + apply Rabs_def1; lra. }
  destruct Ht as [Hrange Herr].
  rewrite (toInt16_in_range _ Hrange).
  replace (IZR (RNum.trunc y) / 32768 - x)%R
    with ((IZR (RNum.trunc y) - y) / 32768)%R by (unfold y; field).
  unfold Rdiv at 1. rewrite Rabs_mult.
  rewrite (Rabs_pos_eq (/ 32768)) by lra.
  lra.
Qed.

(** C1 at the full-scale sample 1.0, on binary64: the capture path stores
    1.0 * 32768 = 32768 into the Int16Array, where it wraps to -32768; the
    playback path decodes that to -1.0, at distance 2 from the sample. *)
Theorem full_scale_sample_wraps :
  let x : float := nZ 1 in
  nmul x (nZ 32768) = nZ 32768 /\
  encodeSample x = (-32768)%Z /\
  decodeSample (A := float) (encodeSample x) = nZ (-1) /\
  nsub x (decodeSample (encodeSample x)) = nZ 2 /\
  nge (nsub x (decodeSample (encodeSample x))) (dec 1 32768) = true.
Proof.
  cbv zeta. repeat split; vm_compute; reflexivity.
Qed.

(** * The session state machine *)

Section SessionFacts.

Context {A : Type} `{Number A}.

Lemma with_clock_clock (a b : nat) (s : App A) :
  with_clock a (with_clock b s) = with_clock a s.
Proof. reflexivity. Qed.

Lemma with_clock_same (s : App A) : with_clock (clock s) s = s.
Proof. destruct s; reflexivity. Qed.

Lemma with_timers_same (s : App A) : with_timers (timers s) s = s.
Proof. destruct s; reflexivity. Qed.

Lemma elapse_add (a b : nat) (s : App A) :
  elapse (a + b) s = elapse b (elapse a s).
Proof.
  revert s; induction a as [|a IH]; intros s; simpl; [reflexivity|apply IH].
Qed.

(** A millisecond in which no timeout is due only advances the clock. *)
Lemma elapse1_quiet (s : App A) :
  (forall t, In t (timers s) -> (S (clock s) < fst t)%nat) ->
  elapse1 s = with_clock (S (clock s)) s.
Proof.
  intros Hlate. unfold elapse1, fireDue. cbn [clock timers with_clock].
  assert (Hnone : filter (isDue (S (clock s))) (timers s) = []).
  { induction (timers s) as [|t l IH]; [reflexivity|]. simpl.
    assert (Ht : isDue (S (clock s)) t = false).
    { unfold isDue. apply Nat.leb_gt. apply Hlate. left. reflexivity. }
    rewrite Ht. apply IH. intros u Hu. apply Hlate. right. exact Hu. }
  assert (Hall : filter (fun t => negb (isDue (S (clock s)) t)) (timers s) = timers s).
  { induction (timers s) as [|t l IH]; [reflexivity|]. simpl.
    assert (Ht : isDue (S (clock s)) t = false).
    { unfold isDue. apply Nat.leb_gt. apply Hlate. left. reflexivity. }
    rewrite Ht. simpl. f_equal. apply IH.
    - intros u Hu. apply Hlate. right. exact Hu.
    - simpl in Hnone. rewrite Ht in Hnone. exact Hnone. }
  rewrite Hnone, Hall. simpl. destruct s; reflexivity.
Qed.

Lemma elapse_quiet (k : nat) (s : App A) :
  (forall t, In t (timers s) -> (clock s + k < fst t)%nat) ->
  elapse k s = with_clock (clock s + k) s.
Proof.
  revert s. induction k as [|k IH]; intros s Hlate.
  - simpl. rewrite Nat.add_0_r. symmetry. apply with_clock_same.
  - cbn [elapse]. rewrite elapse1_quiet.
    + rewrite IH.
      * cbn [clock with_clock]. rewrite with_clock_clock. f_equal. lia.
      * cbn [clock timers with_clock]. intros t Ht. specialize (Hlate t Ht). lia.
    + intros t Ht. specialize (Hlate t Ht). lia.
Qed.

(** The millisecond in which a single pending timeout falls due runs it. *)
Lemma elapse1_fires (cb : Callback) (s : App A) :
  timers s = [(S (clock s), cb)] ->
  elapse1 s = runCallback cb (with_timers [] (with_clock (S (clock s)) s)).
Proof.
  intros Ht. unfold elapse1, fireDue. cbn [clock timers with_clock].
  rewrite Ht. unfold isDue. simpl. rewrite Nat.leb_refl. simpl. reflexivity.
Qed.

(** A single timeout due after [S k] milliseconds runs exactly then. *)
Lemma elapse_fires (k : nat) (cb : Callback) (s : App A) :
  timers s = [((clock s + S k)%nat, cb)] ->
  elapse (S k) s
  = runCallback cb (with_timers [] (with_clock (clock s + S k) s)).
Proof.
  intros Ht. replace (S k) with (k + 1)%nat at 1 by lia.
  rewrite elapse_add, (elapse_quiet k s).
  - cbn [elapse]. rewrite (elapse1_fires cb).
    + cbn [clock with_clock]. rewrite with_clock_clock.
      replace (S (clock s + k)) with (clock s + S k)%nat by lia. reflexivity.
    + cbn [clock timers with_clock]. rewrite Ht. f_equal. f_equal. lia.
  - rewrite Ht. intros t [<-|[]]. simpl. lia.
Qed.

End SessionFacts.

(** C7: with no timeout pending, an SOS tap sets the phase to
    "dispatching" (['emergency']); it stays so for 2500 ms, and at 2500 ms
    the phase is "active" and the guidance list holds exactly the three fixed
    tips; the incoming-call flag keeps its value for a further 3000 ms and is
    set when they have passed. *)
Theorem sos_scenario {A : Type} (s : App A) :
  timers s = [] ->
  let s1 := triggerSOS s in
  let s2 := elapse 2500 s1 in
  let s3 := elapse 3000 s2 in
  appState s1 = emergency /\
  (forall t, (t < 2500)%nat -> appState (elapse t s1) = emergency) /\
  appState s2 = active /\
  aiSuggestions s2 = tips /\
  List.length (aiSuggestions s2) = 3%nat /\
  (forall t, (t < 3000)%nat -> isIncomingCall (elapse t s2) = isIncomingCall s) /\
  isIncomingCall s3 = true.
Proof.
  intros Hnone s1 s2 s3.
  assert (Ht1 : timers s1 = [((clock s1 + 2500)%nat, DispatchConfirmed)]).
  { unfold s1, triggerSOS, setTimeout. cbn [timers clock with_timers with_appState].
    rewrite Hnone. reflexivity. }
  assert (E2 : s2 = runCallback DispatchConfirmed
                      (with_timers [] (with_clock (clock s1 + 2500) s1))).
  { unfold s2. apply (elapse_fires 2499 DispatchConfirmed s1 Ht1). }
  clearbody s2.
  assert (Ht2 : timers s2 = [((clock s2 + 3000)%nat, RingIncoming)]).
  { rewrite E2. reflexivity. }
  assert (E3 : s3 = runCallback RingIncoming
                      (with_timers [] (with_clock (clock s2 + 3000) s2))).
  { unfold s3. apply (elapse_fires 2999 RingIncoming s2 Ht2). }
  clearbody s3.
  split; [reflexivity|]. split.
  { intros t Hlt. rewrite elapse_quiet; [reflexivity|].
    rewrite Ht1. intros u [<-|[]]. cbn [fst]. lia. }
  split; [rewrite E2; reflexivity|].
  split; [rewrite E2; reflexivity|].
  split; [rewrite E2; reflexivity|].
  split.
  { intros t Hlt. rewrite elapse_quiet.
    - rewrite E2. reflexivity.
    - rewrite Ht2. intros u [<-|[]]. cbn [fst]. lia. }
  rewrite E3. reflexivity.
Qed.

Lemma sos_scenario_witness :
  let s := located (A := float) in
  let s1 := triggerSOS s in
  let s2 := elapse 2500 s1 in
  let s3 := elapse 3000 s2 in
  appState s1 = emergency /\
  (forall t, (t < 2500)%nat -> appState (elapse t s1) = emergency) /\
  appState s2 = active /\
  aiSuggestions s2 = tips /\
  List.length (aiSuggestions s2) = 3%nat /\
  (forall t, (t < 3000)%nat -> isIncomingCall (elapse t s2) = isIncomingCall s) /\
  isIncomingCall s3 = true.
Proof.
  apply (sos_scenario (located (A := float))). reflexivity.
Defined.

(** * Call initialisation *)

(** C9: when [process.env.API_KEY] is unset or empty, [initLiveSession]
    returns the state it was given: no effect is requested from the
    platform (no client, no audio context, no microphone stream, no remote
    session) and both context refs keep their values.  A call started in
    that situation changes only the two call flags. *)
Theorem missing_key_no_op {A : Type} (env : Env) (video withVideo : bool) (s : App A) :
  keyMissing env = true ->
  initLiveSession env video s = s /\
  effects (startCall env withVideo s) = effects s /\
  audio (startCall env withVideo s) = audio s /\
  startCall env withVideo s
    = with_isVideoActive withVideo (with_isCalling true s).
Proof.
  intros Hkey. unfold startCall, initLiveSession. rewrite Hkey.
  repeat split; reflexivity.
Qed.

Lemma missing_key_no_op_witness :
  let env := {| API_KEY := None; micGranted := true |} in
  let s := dispatched (A := float) in
  initLiveSession env false s = s /\
  effects (startCall env false s) = effects s /\
  audio (startCall env false s) = audio s /\
  startCall env false s = with_isVideoActive false (with_isCalling true s).
Proof.
  apply (missing_key_no_op {| API_KEY := None; micGranted := true |}
           false false (dispatched (A := float))).
  reflexivity.
Defined.

(** With a credential the same call acquires its resources. *)
Lemma configured_call_acquires :
  effects (inCall (A := float))
  = [CreateClient; NewAudioContext 16000; NewAudioContext 24000;
     GetUserMedia true false; LiveConnect] /\
  audioContextRef (audio (inCall (A := float))) = Some 16000%Z /\
  outputAudioContextRef (audio (inCall (A := float))) = Some 24000%Z.
Proof. repeat split; vm_compute; reflexivity. Qed.

(** * Phase transitions *)

Section PhaseFacts.

Context {A : Type} `{Number A}.
Variable M : MathLib A.
Variable env : Env.

Lemma initLiveSession_appState (video : bool) (s : App A) :
  appState (initLiveSession env video s) = appState s.
Proof.
  unfold initLiveSession.
  destruct (keyMissing env); [reflexivity|].
  destruct (micGranted env); reflexivity.
Qed.

Lemma onmessage_appState (t : A) (data : option (list Z)) (s : App A) :
  appState (onmessage t data s) = appState s.
Proof.
  unfold onmessage.
  destruct (outputAudioContextRef (audio s)); [|reflexivity].
  destruct data as [[|v rest]|]; reflexivity.
Qed.

Lemma runCallback_rank (cb : Callback) (s : App A) :
  (phaseRank (appState s) <= phaseRank (appState (runCallback cb s)))%nat.
Proof.
  destruct cb; cbn.
  - destruct (appState s); cbn; lia.
  - lia.
Qed.

Lemma fold_callbacks_rank (due : list (nat * Callback)) (s : App A) :
  (phaseRank (appState s)
   <= phaseRank (appState (fold_left (fun acc t => runCallback (snd t) acc) due s)))%nat.
Proof.
  revert s. induction due as [|t due IH]; intros s; simpl; [lia|].
  eapply Nat.le_trans; [apply (runCallback_rank (snd t))|apply IH].
Qed.

Lemma elapse1_rank (s : App A) :
  (phaseRank (appState s) <= phaseRank (appState (elapse1 s)))%nat.
Proof.
  unfold elapse1, fireDue.
  eapply Nat.le_trans; [|apply fold_callbacks_rank]. cbn. lia.
Qed.

Lemma click_rank (c : Control) (s : App A) :
  rendered s c = true ->
  (phaseRank (appState s) <= phaseRank (appState (onClick env c s)))%nat.
Proof.
  unfold rendered. intros Hr.
  destruct c; cbn [onClick];
    unfold triggerSOS, setTimeout, acceptCall, startCall, declineCall, endCall, log;
    rewrite ?initLiveSession_appState;
    cbn [appState with_appState with_timers with_track with_effects
         with_isIncomingCall with_isCalling with_isVideoActive];
    try apply Nat.le_refl.
  destruct (appState s); [cbn; lia|discriminate Hr|discriminate Hr].
Qed.

Lemma step_rank (s s' : App A) :
  step M env s s' -> (phaseRank (appState s) <= phaseRank (appState s'))%nat.
Proof.
  intros Hs. destruct Hs.
  - apply click_rank. assumption.
  - apply elapse1_rank.
  - cbn. lia.
  - cbn. lia.
  - rewrite onmessage_appState. lia.
Qed.

End PhaseFacts.

(** C8 (as stated) fails: after the dispatch, with the phase "active", a call
    of [triggerSOS] puts the phase back to "dispatching" and registers one
    more timeout; called while "dispatching" it registers a second timeout
    next to the first. *)
Lemma triggerSOS_is_not_guarded :
  appState (dispatched (A := float)) = active /\
  appState (triggerSOS (dispatched (A := float))) = emergency /\
  List.length (timers (triggerSOS (dispatched (A := float))))
    = S (List.length (timers (dispatched (A := float)))) /\
  appState (triggerSOS (located (A := float))) = emergency /\
  timers (triggerSOS (triggerSOS (located (A := float))))
    = [(2500%nat, DispatchConfirmed); (2500%nat, DispatchConfirmed)].
Proof. repeat split; vm_compute; reflexivity. Qed.

(** C8 (as amended): [triggerSOS] has no guard, in any phase it sets the
    phase to "dispatching" and registers a new 2500 ms timeout; the view puts
    the SOS button on the screen in the idle phase only, and along any run of
    clicks on controls that are on the screen, passing milliseconds,
    animation ticks, position fixes and session messages the phase never
    moves back in the order idle, dispatching, active. *)
Theorem phase_moves_forward
  {A : Type} `{Number A} (M : MathLib A) (env : Env) (s s' : App A) :
  steps M env s s' ->
  (phaseRank (appState s) <= phaseRank (appState s'))%nat /\
  (forall u : App A,
     appState (triggerSOS u) = emergency /\
     timers (triggerSOS u) = timers u ++ [((clock u + 2500)%nat, DispatchConfirmed)]) /\
  (forall u : App A, rendered u SosButton = true -> appState u = idle).
Proof.
  intros Hrun. split; [|split].
  - induction Hrun as [s|s s1 s2 Hstep _ IH]; [lia|].
    eapply Nat.le_trans; [apply (step_rank M env s s1 Hstep)|exact IH].
  - intros u. split; reflexivity.
  - intros u. unfold rendered. destruct (appState u); [reflexivity|discriminate|discriminate].
Qed.

Lemma phase_moves_forward_witness :
  (phaseRank (appState (located (A := float)))
   <= phaseRank (appState (elapse1 (onClick configured SosButton (located (A := float))))))%nat /\
  (forall u : App float,
     appState (triggerSOS u) = emergency /\
     timers (triggerSOS u) = timers u ++ [((clock u + 2500)%nat, DispatchConfirmed)]) /\
  (forall u : App float, rendered u SosButton = true -> appState u = idle).
Proof.
  apply (phase_moves_forward RefMath.lib configured).
  apply (steps_cons _ _ _ (onClick configured SosButton located)).
  - apply (step_click _ _ SosButton). reflexivity.
  - apply (steps_cons _ _ _ (elapse1 (onClick configured SosButton located))).
    + apply step_elapse.
    + apply steps_refl.
Defined.

(** * The bearing, over the reals *)

Section BearingFacts.

Local Open Scope R_scope.

Lemma getBearing_R (start end_ : coord R) :
  getBearing RealMath.lib start end_
  = RNum.rem (RealMath.atan2 (bearingY start end_) (bearingX start end_)
              * 180 / PI + 360) 360.
Proof. reflexivity. Qed.

Lemma atan_pos (x : R) : 0 < x -> 0 < atan x.
Proof. intros Hx. rewrite <- atan_0. apply atan_increasing, Hx. Qed.

Lemma atan_neg (x : R) : x < 0 -> atan x < 0.
Proof. intros Hx. rewrite <- atan_0. apply atan_increasing, Hx. Qed.

Lemma atan2_bound (y x : R) : - PI < RealMath.atan2 y x <= PI.
Proof.
  pose proof PI_RGT_0 as Hpi. unfold RealMath.atan2.
  destruct (Rlt_dec 0 x) as [Hx|Hx].
  - pose proof (atan_bound (y / x)). lra.
  - destruct (Rlt_dec x 0) as [Hx'|Hx'].
    + destruct (Rle_dec 0 y) as [Hy|Hy].
      * pose proof (atan_bound (y / x)) as Hb.
        assert (atan (y / x) <= 0).
        { destruct (Req_dec y 0) as [->|Hy0].
          - unfold Rdiv. rewrite Rmult_0_l, atan_0. lra.
          - apply Rlt_le, atan_neg. unfold Rdiv.
            assert (/ x < 0) by (apply Rinv_lt_0_compat; exact Hx'). nra. }
        lra.
      * pose proof (atan_bound (y / x)) as Hb.
        assert (0 < atan (y / x)).
        { apply atan_pos. unfold Rdiv.
          assert (/ x < 0) by (apply Rinv_lt_0_compat; exact Hx'). nra. }
        lra.
    + destruct (Rlt_dec 0 y); [lra|]. destruct (Rlt_dec y 0); lra.
Qed.

Lemma trunc_between (z : Z) (x : R) :
  (0 <= z)%Z -> IZR z <= x < IZR z + 1 -> RNum.trunc x = z.
Proof.
  intros Hz Hx. unfold RNum.trunc.
  assert (0 <= IZR z) by (apply IZR_le; exact Hz).
  destruct (Rle_dec 0 x) as [_|Hn]; [|lra].
  apply Zfloor_eq. exact Hx.
Qed.

Lemma rem_360_low (v : R) : 0 <= v < 360 -> RNum.rem v 360 = v.
Proof.
  intros Hv. unfold RNum.rem. rewrite (trunc_between 0); [lra|lia|lra].
Qed.

Lemma rem_360_high (v : R) : 360 <= v < 720 -> RNum.rem v 360 = v - 360.
Proof.
  intros Hv. unfold RNum.rem. rewrite (trunc_between 1); [lra|lia|lra].
Qed.

Lemma deg_of_atan2 (a : R) :
  - PI < a <= PI ->
  180 < a * 180 / PI + 360 <= 540.
Proof.
  intros Ha. pose proof PI_RGT_0 as Hpi.
  assert (E : a * 180 / PI = a / PI * 180) by (field; lra).
  rewrite E.
  assert (-1 < a / PI <= 1).
  { split.
    - apply Rmult_lt_reg_r with PI; [lra|]. unfold Rdiv.
      rewrite Rmult_assoc, Rinv_l by lra. lra.
    - apply Rmult_le_reg_r with PI; [lra|]. unfold Rdiv.
      rewrite Rmult_assoc, Rinv_l by lra. lra. }
  lra.
Qed.

Lemma bearing_range (start end_ : coord R) :
  0 <= getBearing RealMath.lib start end_ < 360.
Proof.
  rewrite getBearing_R.
  pose proof (deg_of_atan2 _ (atan2_bound (bearingY start end_) (bearingX start end_))) as Hv.
  set (v := RealMath.atan2 _ _ * 180 / PI + 360) in *.
  destruct (Rlt_dec v 360) as [Hlt|Hge].
  - rewrite rem_360_low; lra.
  - rewrite rem_360_high; lra.
Qed.

(** The bearing from the values of [y] and [x]. *)
Lemma bearing_of_angle (start end_ : coord R) (deg : R) :
  RealMath.atan2 (bearingY start end_) (bearingX start end_) = rad deg ->
  - 180 < deg <= 180 ->
  getBearing RealMath.lib start end_ = (if Rlt_dec deg 0 then deg + 360 else deg).
Proof.
  intros Ha Hdeg. rewrite getBearing_R, Ha. pose proof PI_RGT_0 as Hpi.
  replace (rad deg * 180 / PI + 360) with (deg + 360) by (unfold rad; field; lra).
  destruct (Rlt_dec deg 0).
  - apply rem_360_low. lra.
  - rewrite rem_360_high; lra.
Qed.

Lemma bearing_north (start end_ : coord R) :
  snd end_ = snd start -> 0 < fst end_ - fst start < 180 ->
  getBearing RealMath.lib start end_ = 0.
Proof.
  intros Hlng Hlat. pose proof PI_RGT_0 as Hpi.
  rewrite (bearing_of_angle start end_ 0); [destruct (Rlt_dec 0 0); lra| |lra].
  unfold bearingY, bearingX. rewrite Hlng.
  replace (rad (snd start) - rad (snd start)) with 0 by lra.
  rewrite sin_0, cos_0, Rmult_0_l, Rmult_1_r.
  assert (Hs : 0 < sin (rad (fst end_) - rad (fst start))).
  { apply sin_gt_0; unfold rad; nra. }
  replace (cos (rad (fst start)) * sin (rad (fst end_))
           - sin (rad (fst start)) * cos (rad (fst end_)))
    with (sin (rad (fst end_) - rad (fst start))) by (rewrite sin_minus; ring).
  unfold RealMath.atan2.
  destruct (Rlt_dec 0 (sin (rad (fst end_) - rad (fst start)))); [|lra].
  unfold Rdiv. rewrite Rmult_0_l, atan_0. unfold rad. lra.
Qed.

Lemma bearing_south (start end_ : coord R) :
  snd end_ = snd start -> -180 < fst end_ - fst start < 0 ->
  getBearing RealMath.lib start end_ = 180.
Proof.
  intros Hlng Hlat. pose proof PI_RGT_0 as Hpi.
  rewrite (bearing_of_angle start end_ 180); [destruct (Rlt_dec 180 0); lra| |lra].
  unfold bearingY, bearingX. rewrite Hlng.
  replace (rad (snd start) - rad (snd start)) with 0 by lra.
  rewrite sin_0, cos_0, Rmult_0_l, Rmult_1_r.
  assert (Hs : sin (rad (fst end_) - rad (fst start)) < 0).
  { apply sin_lt_0_var; unfold rad; nra. }
  replace (cos (rad (fst start)) * sin (rad (fst end_))
           - sin (rad (fst start)) * cos (rad (fst end_)))
    with (sin (rad (fst end_) - rad (fst start))) by (rewrite sin_minus; ring).
  unfold RealMath.atan2.
  destruct (Rlt_dec 0 (sin (rad (fst end_) - rad (fst start)))); [lra|].
  destruct (Rlt_dec (sin (rad (fst end_) - rad (fst start))) 0); [|lra].
  destruct (Rle_dec 0 0); [|lra].
  unfold Rdiv. rewrite Rmult_0_l, atan_0. unfold rad. lra.
Qed.

Lemma equator_xy (start end_ : coord R) :
  fst start = 0 -> fst end_ = 0 ->
  bearingY start end_ = sin (rad (snd end_) - rad (snd start)) /\
  bearingX start end_ = 0.
Proof.
  intros Hs He. unfold bearingY, bearingX. rewrite Hs, He.
  replace (rad 0) with 0 by (unfold rad; lra).
  rewrite sin_0, cos_0. split; ring.
Qed.

Lemma bearing_east (start end_ : coord R) :
  fst start = 0 -> fst end_ = 0 -> 0 < snd end_ - snd start < 180 ->
  getBearing RealMath.lib start end_ = 90.
Proof.
  intros Hs He Hlng. pose proof PI_RGT_0 as Hpi.
  rewrite (bearing_of_angle start end_ 90); [destruct (Rlt_dec 90 0); lra| |lra].
  destruct (equator_xy start end_ Hs He) as [-> ->].
  assert (Hy : 0 < sin (rad (snd end_) - rad (snd start))).
  { apply sin_gt_0; unfold rad; nra. }
  unfold RealMath.atan2.
  destruct (Rlt_dec 0 0); [lra|].
  destruct (Rlt_dec 0 (sin (rad (snd end_) - rad (snd start)))); [|lra].
  unfold rad. lra.
Qed.

Lemma bearing_west (start end_ : coord R) :
  fst start = 0 -> fst end_ = 0 -> -180 < snd end_ - snd start < 0 ->
  getBearing RealMath.lib start end_ = 270.
Proof.
  intros Hs He Hlng. pose proof PI_RGT_0 as Hpi.
  rewrite (bearing_of_angle start end_ (-90));
    [destruct (Rlt_dec (-90) 0); lra| |lra].
  destruct (equator_xy start end_ Hs He) as [-> ->].
  assert (Hy : sin (rad (snd end_) - rad (snd start)) < 0).
  { apply sin_lt_0_var; unfold rad; nra. }
  unfold RealMath.atan2.
  destruct (Rlt_dec 0 0); [lra|].
  destruct (Rlt_dec 0 (sin (rad (snd end_) - rad (snd start)))); [lra|].
  destruct (Rlt_dec (sin (rad (snd end_) - rad (snd start))) 0); [|lra].
  unfold rad. lra.
Qed.

(** With [y] and [x] both positive the bearing is the arctangent of their
    quotient, in degrees, strictly between 0 and 90. *)
Lemma bearing_first_quadrant (start end_ : coord R) :
  0 < bearingY start end_ -> 0 < bearingX start end_ ->
  getBearing RealMath.lib start end_
    = atan (bearingY start end_ / bearingX start end_) * 180 / PI /\
  0 < getBearing RealMath.lib start end_ < 90.
Proof.
  intros Hy Hx. pose proof PI_RGT_0 as Hpi.
  rewrite getBearing_R. unfold RealMath.atan2.
  destruct (Rlt_dec 0 (bearingX start end_)); [|lra].
  set (q := bearingY start end_ / bearingX start end_).
  assert (Hq : 0 < q).
  { unfold q, Rdiv. apply Rmult_lt_0_compat; [exact Hy|].
    apply Rinv_0_lt_compat. exact Hx. }
  pose proof (atan_pos q Hq) as Hlo. pose proof (atan_bound q) as [_ Hhi].
  assert (E : atan q * 180 / PI = atan q / PI * 180) by (field; lra).
  assert (Hb : 0 < atan q / PI < 1 / 2).
  { split.
    - unfold Rdiv. apply Rmult_lt_0_compat; [exact Hlo|].
      apply Rinv_0_lt_compat. lra.
    - apply Rmult_lt_reg_r with PI; [lra|]. unfold Rdiv at 1.
      rewrite Rmult_assoc, Rinv_l by lra. lra. }
  rewrite rem_360_high by lra. split; lra.
Qed.

End BearingFacts.

Section BearingClaims.

Local Open Scope R_scope.

(** From the origin along the diagonal the bearing is the arctangent of the
    cosine of the latitude reached: it depends on how far the segment goes. *)
Lemma bearing_diagonal (end_ : coord R) :
  snd end_ = fst end_ -> 0 < fst end_ < 90 ->
  getBearing RealMath.lib (0, 0) end_ = atan (cos (rad (fst end_))) * 180 / PI.
Proof.
  intros Hd Ht. pose proof PI_RGT_0 as Hpi.
  assert (Hr : 0 < rad (fst end_) < PI / 2) by (unfold rad; nra).
  assert (Hsin : 0 < sin (rad (fst end_))) by (apply sin_gt_0; lra).
  assert (Hcos : 0 < cos (rad (fst end_))) by (apply cos_gt_0; lra).
  assert (Ey : bearingY (0, 0) end_ = sin (rad (fst end_)) * cos (rad (fst end_))).
  { unfold bearingY. cbn [fst snd]. rewrite Hd.
    replace (rad (fst end_) - rad 0) with (rad (fst end_)) by (unfold rad; lra).
    reflexivity. }
  assert (Ex : bearingX (0, 0) end_ = sin (rad (fst end_))).
  { unfold bearingX. cbn [fst snd].
    replace (rad 0) with 0 by (unfold rad; lra).
    rewrite sin_0, cos_0. ring. }
  destruct (bearing_first_quadrant (0, 0) end_) as [E _].
  - rewrite Ey. apply Rmult_lt_0_compat; assumption.
  - rewrite Ex. exact Hsin.
  - rewrite E, Ey, Ex. f_equal. f_equal. f_equal. field. lra.
Qed.

Lemma scaled_same_longitude (start end_ : coord R) (k : R) :
  snd end_ = snd start -> snd (scaleAbout start end_ k) = snd start.
Proof. intros E. cbn. rewrite E. ring. Qed.

Lemma scaled_equator (start end_ : coord R) (k : R) :
  fst start = 0 -> fst end_ = 0 -> fst (scaleAbout start end_ k) = 0.
Proof. intros Es Ee. cbn. rewrite Es, Ee. ring. Qed.

End BearingClaims.

(** C6 (as stated) fails, over the reals: the due-east segment from
    (45, 0) to (45, 90) has a bearing below 90 degrees, and doubling the
    segment from (0, 0) to (30, 30) about its start lowers its bearing. *)
Lemma bearing_is_great_circle :
  (getBearing RealMath.lib (45, 0) (45, 90) < 90)%R /\
  (getBearing RealMath.lib (0, 0) (scaleAbout (0, 0) (30, 30) 2)
   < getBearing RealMath.lib (0, 0) (30, 30))%R.
Proof.
  pose proof PI_RGT_0 as Hpi. split.
  - assert (H45 : (0 < rad 45 < PI / 2)%R) by (unfold rad; lra).
    assert (Hs : (0 < sin (rad 45))%R) by (apply sin_gt_0; lra).
    assert (Hc : (0 < cos (rad 45))%R) by (apply cos_gt_0; lra).
    destruct (bearing_first_quadrant (45, 0) (45, 90))%R as [_ [_ Hlt]].
    + unfold bearingY. cbn [fst snd].
      replace (rad 90 - rad 0)%R with (PI / 2)%R by (unfold rad; lra).
      rewrite sin_PI2. lra.
    + unfold bearingX. cbn [fst snd].
      replace (rad 90 - rad 0)%R with (PI / 2)%R by (unfold rad; lra).
      rewrite cos_PI2. nra.
    + exact Hlt.
  - rewrite (bearing_diagonal (scaleAbout (0, 0) (30, 30) 2))%R;
      [|reflexivity|cbn; lra].
    rewrite (bearing_diagonal (30, 30))%R; [|reflexivity|cbn; lra].
    cbn [fst snd scaleAbout].
    assert (Hcos : (cos (rad (0 + 2 * (30 - 0))) < cos (rad 30))%R).
    { apply cos_decreasing_1; unfold rad; lra. }
    apply atan_increasing in Hcos.
    assert (Hinv : (0 < / PI)%R) by (apply Rinv_0_lt_compat; lra).
    unfold Rdiv. nra.
Qed.

(** C6 (as amended): over the reals, the bearing lies in [0, 360); it is
    exactly 0 for a due-north and 180 for a due-south segment (same
    longitude, latitudes less than 180 degrees apart), and exactly 90 for a
    due-east and 270 for a due-west segment along the equator (longitudes
    less than 180 degrees apart); on these segments it is unchanged when the
    segment is shortened by a factor k in (0, 1] about its start. *)
Theorem bearing_axes (start end_ : coord R) (k : R) :
  (0 <= getBearing RealMath.lib start end_ < 360)%R /\
  ((0 < k <= 1)%R -> snd end_ = snd start ->
   (0 < fst end_ - fst start < 180)%R ->
   getBearing RealMath.lib start end_ = 0%R /\
   getBearing RealMath.lib start (scaleAbout start end_ k) = 0%R) /\
  ((0 < k <= 1)%R -> snd end_ = snd start ->
   (-180 < fst end_ - fst start < 0)%R ->
   getBearing RealMath.lib start end_ = 180%R /\
   getBearing RealMath.lib start (scaleAbout start end_ k) = 180%R) /\
  ((0 < k <= 1)%R -> fst start = 0%R -> fst end_ = 0%R ->
   (0 < snd end_ - snd start < 180)%R ->
   getBearing RealMath.lib start end_ = 90%R /\
   getBearing RealMath.lib start (scaleAbout start end_ k) = 90%R) /\
  ((0 < k <= 1)%R -> fst start = 0%R -> fst end_ = 0%R ->
   (-180 < snd end_ - snd start < 0)%R ->
   getBearing RealMath.lib start end_ = 270%R /\
   getBearing RealMath.lib start (scaleAbout start end_ k) = 270%R).
Proof.
  split; [apply bearing_range|].
  split; [|split; [|split]]; intros Hk.
  - intros Hlng Hlat. split; [apply bearing_north; assumption|].
    apply bearing_north; [apply scaled_same_longitude; exact Hlng|].
    cbn [fst scaleAbout]. nra.
  - intros Hlng Hlat. split; [apply bearing_south; assumption|].
    apply bearing_south; [apply scaled_same_longitude; exact Hlng|].
    cbn [fst scaleAbout]. nra.
  - intros Hs He Hlng. split; [apply bearing_east; assumption|].
    apply bearing_east; [exact Hs|apply scaled_equator; assumption|].
    cbn [snd scaleAbout]. nra.
  - intros Hs He Hlng. split; [apply bearing_west; assumption|].
    apply bearing_west; [exact Hs|apply scaled_equator; assumption|].
    cbn [snd scaleAbout]. nra.
Qed.

Lemma bearing_axes_witness :
  (getBearing RealMath.lib (10, 20) (11, 20) = 0
   /\ getBearing RealMath.lib (10, 20) (scaleAbout (10, 20) (11, 20) (1 / 2)) = 0)%R /\
  (getBearing RealMath.lib (10, 20) (9, 20) = 180
   /\ getBearing RealMath.lib (10, 20) (scaleAbout (10, 20) (9, 20) (1 / 2)) = 180)%R /\
  (getBearing RealMath.lib (0, 10) (0, 20) = 90
   /\ getBearing RealMath.lib (0, 10) (scaleAbout (0, 10) (0, 20) (1 / 2)) = 90)%R /\
  (getBearing RealMath.lib (0, 20) (0, 10) = 270
   /\ getBearing RealMath.lib (0, 20) (scaleAbout (0, 20) (0, 10) (1 / 2)) = 270)%R.
Proof.
  assert (Hk : (0 < 1 / 2 <= 1)%R) by lra.
  split; [|split; [|split]].
  - apply (proj1 (proj2 (bearing_axes (10, 20) (11, 20) (1 / 2))%R) Hk);
      cbn [fst snd]; [reflexivity|lra].
  - apply (proj1 (proj2 (proj2 (bearing_axes (10, 20) (9, 20) (1 / 2))%R)) Hk);
      cbn [fst snd]; [reflexivity|lra].
  - apply (proj1 (proj2 (proj2 (proj2 (bearing_axes (0, 10) (0, 20) (1 / 2))%R))) Hk);
      cbn [fst snd]; [reflexivity|reflexivity|lra].
  - apply (proj2 (proj2 (proj2 (proj2 (bearing_axes (0, 20) (0, 10) (1 / 2))%R))) Hk);
      cbn [fst snd]; [reflexivity|reflexivity|lra].
Defined.

(** The same two inputs on binary64, with the reference [Math]: about 54.74
    degrees for the due-east segment at latitude 45, and about 26.57 degrees
    against 40.89 for the doubled diagonal.  The due-west segment of the
    route built around [51.505, -0.09] has a bearing above 270. *)
Lemma bearing_binary64_examples :
  (PrimFloat.ltb (getBearing RefMath.lib (45, 0) (45, 90)) 55
   && PrimFloat.ltb 54 (getBearing RefMath.lib (45, 0) (45, 90))
   && PrimFloat.ltb (getBearing RefMath.lib (0, 0) (60, 60)) 27
   && PrimFloat.ltb 40 (getBearing RefMath.lib (0, 0) (30, 30))
   && PrimFloat.ltb 270
        (getBearing RefMath.lib
           (nth 0 (mockRoute london) (0, 0)) (nth 1 (mockRoute london) (0, 0))))%float
  = true.
Proof. vm_compute. reflexivity. Qed.

(** * The wire format *)

Lemma toInt16_range (z : Z) : (-32768 <= toInt16 z <= 32767)%Z.
Proof.
  unfold toInt16. pose proof (Z.mod_pos_bound z 65536 ltac:(lia)).
  destruct (Z.leb_spec 32768 (z mod 65536)); lia.
Qed.

Lemma toInt16_mod (z : Z) : (toInt16 z mod 65536 = z mod 65536)%Z.
Proof.
  unfold toInt16. pose proof (Z.mod_pos_bound z 65536 ltac:(lia)).
  destruct (Z.leb_spec 32768 (z mod 65536)).
  - symmetry. apply (Z.mod_unique _ 65536 (-1)); lia.
  - apply Z.mod_mod. lia.
Qed.

Lemma int16Bytes_view (v : Z) (rest : list Z) :
  viewInt16 (int16Bytes v ++ rest)
  = option_map (cons (toInt16 v)) (viewInt16 rest).
Proof.
  unfold int16Bytes. cbn [app viewInt16]. f_equal. f_equal.
  replace (v mod 65536 mod 256 + 256 * (v mod 65536 / 256))%Z
    with (v mod 65536)%Z
    by (pose proof (Z.div_mod (v mod 65536) 256 ltac:(lia)); lia).
  unfold toInt16. rewrite Z.mod_mod by lia. reflexivity.
Qed.

Lemma viewInt16_bytes (lo hi : Z) :
  (0 <= lo < 256)%Z -> (0 <= hi < 256)%Z ->
  int16Bytes (toInt16 (lo + 256 * hi)) = [lo; hi].
Proof.
  intros Hlo Hhi. unfold int16Bytes. rewrite toInt16_mod.
  rewrite (Z.mod_small (lo + 256 * hi) 65536) by lia.
  f_equal; [|f_equal].
  - symmetry. apply (Z.mod_unique _ 256 hi lo); lia.
  - symmetry. apply (Z.div_unique _ 256 hi lo); lia.
Qed.

(** Lists taken two elements at a time. *)
Lemma pairs_ind (P : list Z -> Prop) :
  P [] -> (forall a, P [a]) ->
  (forall a b l, P l -> P (a :: b :: l)) ->
  forall l, P l.
Proof.
  intros H0 H1 H2.
  assert (Hboth : forall l, P l /\ forall a, P (a :: l)).
  { induction l as [|b l [IH IHa]].
    - split; [exact H0|exact H1].
    - split; [apply IHa|]. intros a. apply H2. exact IH. }
  intros l. apply Hboth.
Qed.

Lemma viewInt16_odd (bytes : list Z) :
  Nat.odd (List.length bytes) = true -> viewInt16 bytes = None.
Proof.
  induction bytes as [| |a b l IH] using pairs_ind; cbn [List.length].
  - discriminate.
  - reflexivity.
  - intros Hodd. cbn [viewInt16]. rewrite IH; [reflexivity|exact Hodd].
Qed.

Lemma viewInt16_even (bytes : list Z) :
  Nat.even (List.length bytes) = true -> viewInt16 bytes <> None.
Proof.
  induction bytes as [| |a b l IH] using pairs_ind; cbn [List.length].
  - discriminate.
  - discriminate.
  - intros Heven. cbn [viewInt16].
    destruct (viewInt16 l); [discriminate|]. exfalso.
    apply IH; [exact Heven|reflexivity].
Qed.

(** X1: whatever the input block and the arithmetic, the string capture hands
    to [btoa] has two characters per sample, every one of them a byte, and
    every encoded sample is a 16-bit value. *)
Theorem capture_is_well_formed
  {A : Type} `{Number A} (inputData : list A) :
  List.length (captureBinary inputData) = (2 * List.length inputData)%nat /\
  Forall (fun c => (0 <= c < 256)%Z) (captureBinary inputData) /\
  Forall (fun v => (-32768 <= v <= 32767)%Z) (onaudioprocess inputData).
Proof.
  unfold captureBinary, onaudioprocess.
  induction inputData as [|x l (IHlen & IHbytes & IHval)].
  - repeat split; constructor.
  - cbn [map packInt16 List.length app int16Bytes].
    pose proof (Z.mod_pos_bound (encodeSample x) 65536 ltac:(lia)) as Hu.
    split; [|split].
    + cbn [List.length]. rewrite IHlen. lia.
    + constructor; [apply Z.mod_pos_bound; lia|].
      constructor; [|exact IHbytes].
      split; [apply Z.div_pos; lia|apply Z.div_lt_upper_bound; lia].
    + constructor; [apply toInt16_range|exact IHval].
Qed.

(** X2: the playback path's view of the bytes the capture path made of a
    list of 16-bit values gives those values back (any other integer comes
    back reduced to 16 bits); an odd number of bytes has no view. *)
Theorem view_of_packed (int16 : list Z) (bytes : list Z) :
  viewInt16 (packInt16 int16) = Some (map toInt16 int16) /\
  (Forall (fun v => (-32768 <= v <= 32767)%Z) int16 ->
   viewInt16 (map toUint8 (packInt16 int16)) = Some int16) /\
  (Nat.odd (List.length bytes) = true -> viewInt16 bytes = None) /\
  (Nat.even (List.length bytes) = true -> viewInt16 bytes <> None).
Proof.
  assert (Hview : viewInt16 (packInt16 int16) = Some (map toInt16 int16)).
  { induction int16 as [|v l IH]; [reflexivity|].
    cbn [packInt16 map]. rewrite int16Bytes_view, IH. reflexivity. }
  split; [exact Hview|]. split; [|split].
  - intros Hrange.
    assert (Hbytes : map toUint8 (packInt16 int16) = packInt16 int16).
    { clear Hview Hrange. induction int16 as [|v l IH]; [reflexivity|].
      cbn [packInt16 int16Bytes app map]. rewrite IH.
      pose proof (Z.mod_pos_bound v 65536 ltac:(lia)) as Hu.
      unfold toUint8. rewrite Z.mod_mod by lia.
      rewrite (Z.mod_small (v mod 65536 / 256)); [reflexivity|].
      split; [apply Z.div_pos; lia|apply Z.div_lt_upper_bound; lia]. }
    rewrite Hbytes, Hview. f_equal.
    clear Hview Hbytes. induction Hrange as [|v l Hv _ IH]; [reflexivity|].
    cbn [map]. rewrite IH, (toInt16_in_range v Hv). reflexivity.
  - apply viewInt16_odd.
  - apply viewInt16_even.
Qed.

Lemma view_of_packed_witness :
  viewInt16 (map toUint8 (packInt16 [0; -1; 32767; -32768; 258]%Z))
    = Some [0; -1; 32767; -32768; 258]%Z /\
  viewInt16 [1; 2; 3]%Z = None /\
  viewInt16 [1; 2; 3; 4]%Z <> None.
Proof.
  destruct (view_of_packed [0; -1; 32767; -32768; 258]%Z [1; 2; 3]%Z)
    as (_ & Hback & Hodd & _).
  destruct (view_of_packed [] [1; 2; 3; 4]%Z) as (_ & _ & _ & Heven).
  split; [|split].
  - apply Hback. repeat constructor; lia.
  - apply Hodd. reflexivity.
  - apply Heven. reflexivity.
Defined.

(** * The codec on binary64 *)

Lemma holdsOnBlock_spec (n : nat) (f : Z -> bool) (base v : Z) :
  holdsOnBlock n f base = true ->
  (base * 2 ^ Z.of_nat n <= v < (base + 1) * 2 ^ Z.of_nat n)%Z ->
  f v = true.
Proof.
  revert base. induction n as [|n IH]; intros base Hall Hv.
  - cbn in Hall. change (2 ^ Z.of_nat 0)%Z with 1%Z in Hv.
    replace v with base by lia. exact Hall.
  - cbn [holdsOnBlock] in Hall. apply andb_prop in Hall. destruct Hall as [H0 H1].
    rewrite Nat2Z.inj_succ, Z.pow_succ_r in Hv by lia.
    destruct (Z_lt_ge_dec v ((2 * base + 1) * 2 ^ Z.of_nat n)).
    + apply (IH (2 * base)%Z); [exact H0|]. lia.
    + apply (IH (2 * base + 1)%Z); [exact H1|]. lia.
Qed.

(** Every 16-bit value, decoded for playback and encoded again by capture,
    is itself: checked on all 65536 of them. *)
Lemma int16_survives (v : Z) :
  (-32768 <= v <= 32767)%Z ->
  encodeSample (decodeSample (A := float) v) = v.
Proof.
  intros Hv.
  assert (Hall : holdsOnBlock 16
                   (fun u => (encodeSample (decodeSample (A := float) (u - 32768))
                              =? u - 32768)%Z) 0 = true)
    by (vm_compute; reflexivity).
  apply Z.eqb_eq.
  replace v with (v + 32768 - 32768)%Z by lia.
  apply (holdsOnBlock_spec 16 _ 0 (v + 32768) Hall).
  change (2 ^ Z.of_nat 16)%Z with 65536%Z. lia.
Qed.

(** X3: on binary64 the bridge loses nothing of 16-bit PCM: every 16-bit
    sample decoded by the playback path and encoded again by the capture path
    is unchanged, and so is every string of an even number of bytes. *)
Theorem pcm_is_lossless (binary : list Z) :
  Forall (fun c => (0 <= c < 256)%Z) binary ->
  Nat.even (List.length binary) = true ->
  exists channelData : list float,
    playbackSamples binary = Some channelData /\
    (2 * List.length channelData = List.length binary)%nat /\
    captureBinary channelData = binary.
Proof.
  unfold playbackSamples, captureBinary, onaudioprocess.
  induction binary as [| |lo hi l IH] using pairs_ind; intros Hbytes Heven.
  - exists []. repeat split.
  - discriminate Heven.
  - inversion Hbytes as [|? ? Hlo Hrest]; subst.
    inversion Hrest as [|? ? Hhi Hl]; subst.
    destruct (IH Hl Heven) as (ch & Hview & Hlen & Hback).
    cbn [map viewInt16].
    destruct (viewInt16 (map toUint8 l)) as [ints|]; [|discriminate Hview].
    injection Hview as <-.
    unfold toUint8 at 1 2. rewrite !Z.mod_small by lia.
    exists (decodeSample (toInt16 (lo + 256 * hi)) :: map decodeSample ints).
    split; [reflexivity|]. split.
    + cbn [List.length] in *. lia.
    + cbn [map packInt16].
      rewrite (int16_survives _ (toInt16_range _)).
      rewrite (viewInt16_bytes lo hi Hlo Hhi), Hback. reflexivity.
Qed.

Lemma pcm_is_lossless_witness :
  exists channelData : list float,
    playbackSamples [0; 128; 255; 127; 1; 0]%Z = Some channelData /\
    (2 * List.length channelData = List.length [0; 128; 255; 127; 1; 0]%Z)%nat /\
    captureBinary channelData = [0; 128; 255; 127; 1; 0]%Z.
Proof.
  apply pcm_is_lossless; [repeat constructor; lia|reflexivity].
Defined.

(** X4: on binary64 a sample that is NaN or infinite is encoded as 0. *)
Theorem non_finite_sample_is_silence (x : float) :
  nonFinite x = true -> encodeSample x = 0%Z.
Proof.
  unfold nonFinite, encodeSample. intros Hx.
  change (ntrunc (nmul x (nZ 32768)))
    with (F64.trunc (PrimFloat.mul x (F64.of_Z 32768))).
  unfold F64.trunc. rewrite mul_spec.
  destruct (Prim2SF x) as [s| s| |s m e]; try discriminate Hx.
  - vm_compute. reflexivity.
  - reflexivity.
Qed.

Lemma non_finite_sample_is_silence_witness :
  encodeSample PrimFloat.infinity = 0%Z.
Proof.
  apply non_finite_sample_is_silence. vm_compute. reflexivity.
Defined.

(** * The codec without rounding *)

Section CodecFacts.

Local Open Scope R_scope.

Lemma trunc_towards_zero (y : R) :
  (0 <= y -> IZR (RNum.trunc y) <= y < IZR (RNum.trunc y) + 1) /\
  (y <= 0 -> y <= IZR (RNum.trunc y) < y + 1).
Proof.
  unfold RNum.trunc. destruct (Rle_dec 0 y) as [Hpos|Hneg].
  - pose proof (Zfloor_bound y). split; intros Hy; [lra|].
    assert (y = 0) by lra. subst y. rewrite ZfloorZ in *. lra.
  - pose proof (Zceil_bound y). split; intros Hy; lra.
Qed.

Lemma encode_in_range (x : R) :
  -1 <= x < 1 -> encodeSample x = RNum.trunc (x * 32768).
Proof.
  intros Hx. unfold encodeSample. cbn.
  apply toInt16_in_range.
  destruct (trunc_towards_zero (x * 32768)) as [Hpos Hneg].
  destruct (Rle_dec 0 (x * 32768)) as [Hy|Hy].
  - specialize (Hpos Hy).
    assert (-1 < RNum.trunc (x * 32768) < 32768)%Z
      by (split; apply lt_IZR; lra).
    lia.
  - assert (Hy' : x * 32768 <= 0) by lra. specialize (Hneg Hy').
    assert (-32768 - 1 < RNum.trunc (x * 32768) < 1)%Z
      by (split; apply lt_IZR; rewrite ?minus_IZR; lra).
    lia.
Qed.

End CodecFacts.

(** X5: without rounding, a sample in [-1, 1) comes back from capture and
    playback moved towards zero by less than 1/32768: a sample that is not
    negative comes back not negative and no larger, one that is not positive
    comes back not positive and no smaller. *)
Theorem codec_truncates_towards_zero (x : R) :
  (-1 <= x < 1)%R ->
  let y : R := decodeSample (encodeSample x) in
  ((0 <= x)%R -> (0 <= y <= x)%R /\ (x - y < 1 / 32768)%R) /\
  ((x <= 0)%R -> (x <= y <= 0)%R /\ (y - x < 1 / 32768)%R).
Proof.
  intros Hx y. unfold y. rewrite (encode_in_range x Hx).
  unfold decodeSample. cbn [ndiv nZ Number_R].
  destruct (trunc_towards_zero (x * 32768)%R) as [Hpos Hneg].
  split; intros Hsign.
  - assert (Hy : (0 <= x * 32768)%R) by lra. specialize (Hpos Hy).
    assert (Hz : (-1 < RNum.trunc (x * 32768))%Z) by (apply lt_IZR; lra).
    assert (Hz' : (0 <= RNum.trunc (x * 32768))%Z) by lia.
    apply IZR_le in Hz'. lra.
  - assert (Hy : (x * 32768 <= 0)%R) by lra. specialize (Hneg Hy).
    assert (Hz : (RNum.trunc (x * 32768) < 1)%Z) by (apply lt_IZR; lra).
    assert (Hz' : (RNum.trunc (x * 32768) <= 0)%Z) by lia.
    apply IZR_le in Hz'. lra.
Qed.

Lemma codec_truncates_towards_zero_witness :
  let y : R := decodeSample (encodeSample (1 / 3)%R) in
  (0 <= y <= 1 / 3)%R /\ (1 / 3 - y < 1 / 32768)%R.
Proof.
  assert (Hx : (-1 <= 1 / 3 < 1)%R) by lra.
  assert (Hpos : (0 <= 1 / 3)%R) by lra.
  exact (proj1 (codec_truncates_towards_zero (1 / 3)%R Hx) Hpos).
Defined.

(** X6: without rounding, an overdriven sample in [1, 2) wraps in the
    Int16Array: it comes back from capture and playback negative, within
    1/32768 below the sample minus 2. *)
Theorem overdriven_sample_wraps (x : R) :
  (1 <= x < 2)%R ->
  let y : R := decodeSample (encodeSample x) in
  (y < 0)%R /\ (x - 2 - 1 / 32768 < y <= x - 2)%R.
Proof.
  intros Hx y. unfold y, encodeSample, decodeSample.
  cbn [ndiv nmul nZ ntrunc Number_R].
  destruct (trunc_towards_zero (x * 32768)%R) as [Hpos _].
  assert (Hy : (0 <= x * 32768)%R) by lra. specialize (Hpos Hy).
  set (n := RNum.trunc (x * 32768)%R) in *.
  assert (Hn : (32768 <= n < 65536)%Z).
  { assert (32767 < n)%Z by (apply lt_IZR; lra).
    assert (n < 65536)%Z by (apply lt_IZR; lra). lia. }
  assert (E : toInt16 n = (n - 65536)%Z).
  { unfold toInt16. rewrite Z.mod_small by lia.
    destruct (Z.leb_spec 32768 n); lia. }
  rewrite E, minus_IZR. lra.
Qed.

Lemma overdriven_sample_wraps_witness :
  let y : R := decodeSample (encodeSample (3 / 2)%R) in
  (y < 0)%R /\ (3 / 2 - 2 - 1 / 32768 < y <= 3 / 2 - 2)%R.
Proof.
  apply overdriven_sample_wraps. lra.
Defined.

(** * The playback queue *)

Section QueueFacts.

Context {A : Type} `{Number A}.

Lemma onmessage_refs (t : A) (data : option (list Z)) (s : App A) :
  audioContextRef (audio (onmessage t data s)) = audioContextRef (audio s) /\
  outputAudioContextRef (audio (onmessage t data s))
    = outputAudioContextRef (audio s).
Proof.
  unfold onmessage.
  destruct (outputAudioContextRef (audio s)) as [rate|] eqn:E;
    [|split; [reflexivity|exact E]].
  destruct data as [[|v rest]|]; (split; [reflexivity|]); try exact E.
  reflexivity.
Qed.

Lemma onmessage_frame (t : A) (data : option (list Z)) (s : App A) :
  onmessage t data s = with_audio (audio (onmessage t data s)) s.
Proof.
  unfold onmessage.
  destruct (outputAudioContextRef (audio s)) as [rate|];
    [|destruct s; reflexivity].
  destruct data as [[|v rest]|]; try (destruct s; reflexivity).
Qed.

Lemma onmessage_samples (t : A) (data : option (list Z)) (s : App A) :
  outputAudioContextRef (audio s) <> None ->
  map samples (started (audio (onmessage t data s)))
  = map samples (started (audio s))
      ++ map (map decodeSample) (payloads [(t, data)]).
Proof.
  intros Hctx. unfold onmessage.
  destruct (outputAudioContextRef (audio s)) as [rate|]; [|contradiction].
  destruct data as [[|v rest]|]; cbn [payloads map]; rewrite ?app_nil_r; try reflexivity.
  cbn [audio with_audio started]. rewrite map_app. reflexivity.
Qed.

Lemma payloads_cons (m : A * option (list Z)) (more : list (A * option (list Z))) :
  payloads (m :: more) = payloads [m] ++ payloads more.
Proof.
  destruct m as [t [[|v rest]|]]; reflexivity.
Qed.

End QueueFacts.

(** X7: once the output context exists, each message that carries audio
    adds exactly one source to the queue, in arrival order, holding the
    decoded samples of that message; messages without audio add none. *)
Theorem playback_in_arrival_order
  {A : Type} `{Number A} (arrivals : list (A * option (list Z))) (s : App A) :
  outputAudioContextRef (audio s) <> None ->
  map samples (started (audio (receive arrivals s)))
  = map samples (started (audio s))
      ++ map (map decodeSample) (payloads arrivals).
Proof.
  revert s. induction arrivals as [|[t data] more IH]; intros s Hctx.
  - cbn. rewrite app_nil_r. reflexivity.
  - change (receive ((t, data) :: more) s)
      with (receive more (onmessage t data s)).
    rewrite IH.
    + rewrite (onmessage_samples t data s Hctx), <- app_assoc, <- map_app.
      rewrite <- payloads_cons. reflexivity.
    + rewrite (proj2 (onmessage_refs t data s)). exact Hctx.
Qed.

Lemma playback_in_arrival_order_witness :
  map samples
    (started (audio (receive [(nZ 0, Some [16384; -16384]%Z); (nZ 1, None);
                              (nZ 1, Some []); (nZ 2, Some [32767]%Z)]
                             (inCall (A := float)))))
  = map samples (started (audio (inCall (A := float))))
      ++ [[dec 1 2; dec (-1) 2]; [dec 32767 32768]].
Proof.
  rewrite (playback_in_arrival_order _ (inCall (A := float))).
  - vm_compute. reflexivity.
  - vm_compute. discriminate.
Defined.

(** X8: messages change nothing of the component but the queue (the next
    start time and the list of started sources): the phase, the call flags,
    the tips, the track, the timers, the platform requests and both context
    refs stay as they were.  Without an output context, and for a payload
    with an odd number of bytes, nothing changes at all. *)
Theorem messages_touch_only_the_queue
  {A : Type} `{Number A} (arrivals : list (A * option (list Z))) (s : App A)
  (t : A) (binary : list Z) :
  receive arrivals s = with_audio (audio (receive arrivals s)) s /\
  audioContextRef (audio (receive arrivals s)) = audioContextRef (audio s) /\
  outputAudioContextRef (audio (receive arrivals s))
    = outputAudioContextRef (audio s) /\
  (outputAudioContextRef (audio s) = None -> receive arrivals s = s) /\
  (Nat.odd (List.length binary) = true -> onmessageBinary t (Some binary) s = s).
Proof.
  split; [|split; [|split; [|split]]].
  - revert s. induction arrivals as [|[u data] more IH]; intros s.
    + destruct s; reflexivity.
    + change (receive ((u, data) :: more) s)
        with (receive more (onmessage u data s)).
      transitivity (with_audio (audio (receive more (onmessage u data s)))
                               (onmessage u data s)); [apply IH|].
      generalize (audio (receive more (onmessage u data s))). intros a.
      rewrite (onmessage_frame u data s). reflexivity.
  - revert s. induction arrivals as [|[u data] more IH]; intros s; [reflexivity|].
    change (receive ((u, data) :: more) s)
      with (receive more (onmessage u data s)).
    rewrite IH. apply onmessage_refs.
  - revert s. induction arrivals as [|[u data] more IH]; intros s; [reflexivity|].
    change (receive ((u, data) :: more) s)
      with (receive more (onmessage u data s)).
    rewrite IH. apply onmessage_refs.
  - intros Hnone. induction arrivals as [|[u data] more IH]; [reflexivity|].
    change (receive ((u, data) :: more) s)
      with (receive more (onmessage u data s)).
    assert (E : onmessage u data s = s) by (unfold onmessage; rewrite Hnone; reflexivity).
    rewrite E. exact IH.
  - intros Hodd. unfold onmessageBinary.
    assert (E : viewInt16 (map toUint8 binary) = None).
    { apply viewInt16_odd.
      rewrite length_map. exact Hodd. }
    rewrite E. reflexivity.
Qed.

Lemma messages_touch_only_the_queue_witness :
  receive [(nZ 0, Some [1; 2]%Z)] (dispatched (A := float))
    = dispatched (A := float) /\
  onmessageBinary (nZ 0) (Some [1; 2; 3]%Z) (inCall (A := float))
    = inCall (A := float).
Proof.
  destruct (messages_touch_only_the_queue
              [(nZ 0, Some [1; 2]%Z)] (dispatched (A := float)) (nZ 0) [])
    as (_ & _ & _ & Hnone & _).
  destruct (messages_touch_only_the_queue
              [] (inCall (A := float)) (nZ 0) [1; 2; 3]%Z)
    as (_ & _ & _ & _ & Hodd).
  split; [apply Hnone; vm_compute; reflexivity|apply Hodd; reflexivity].
Defined.

Section QueueTiming.

Local Open Scope R_scope.

Lemma queuedSeconds_cons (m : R * option (list Z)) (more : list (R * option (list Z))) :
  queuedSeconds (m :: more) = queuedSeconds [m] + queuedSeconds more.
Proof.
  unfold queuedSeconds. destruct m as [t [[|v rest]|]]; cbn [payloads fold_right]; lra.
Qed.

Lemma queuedSeconds_nonneg (arrivals : list (R * option (list Z))) :
  0 <= queuedSeconds arrivals.
Proof.
  unfold queuedSeconds. induction (payloads arrivals) as [|l ls IH]; cbn [fold_right].
  - lra.
  - pose proof (bufferDuration_nonneg (List.length l)). lra.
Qed.

(** One message moves the cursor by at least the audio it carries, and by
    exactly that much when it arrives before the queue has run out. *)
Lemma onmessage_cursor (t : R) (data : option (list Z)) (s : App R) :
  outputAudioContextRef (audio s) <> None ->
  nextStartTimeRef (audio s) + queuedSeconds [(t, data)]
    <= nextStartTimeRef (audio (onmessage t data s)) /\
  (t <= nextStartTimeRef (audio s) ->
   nextStartTimeRef (audio (onmessage t data s))
     = nextStartTimeRef (audio s) + queuedSeconds [(t, data)]).
Proof.
  intros Hctx. unfold onmessage, queuedSeconds.
  destruct (outputAudioContextRef (audio s)) as [rate|]; [|contradiction].
  destruct data as [[|v rest]|]; cbn [payloads fold_right]; try (split; [lra|intros _; lra]).
  cbn [audio with_audio nextStartTimeRef nadd nmax ndiv nZ Number_R].
  pose proof (Rmax_l (nextStartTimeRef (audio s)) t).
  split; [lra|]. intros Ht. rewrite Rmax_left by exact Ht. lra.
Qed.

Lemma gapless_snoc (l : list (Play R)) (c : R) (x : Play R) :
  gapless l ->
  (forall p, nth_error l (List.length l - 1) = Some p -> startAt p + duration p = c) ->
  startAt x = c -> gapless (l ++ [x]).
Proof.
  intros Hl Hc Hx i p q Hp Hq.
  destruct (Nat.lt_ge_cases (S i) (List.length l)) as [Hlt|Hge].
  - rewrite nth_error_app1 in Hp by lia. rewrite nth_error_app1 in Hq by lia.
    exact (Hl i p q Hp Hq).
  - assert (Hi : (S i < List.length (l ++ [x]))%nat)
      by (apply nth_error_Some; congruence).
    rewrite length_app in Hi. cbn [List.length] in Hi.
    rewrite nth_error_app1 in Hp by lia.
    rewrite nth_error_app2 in Hq by lia.
    replace (S i - List.length l)%nat with 0%nat in Hq by lia.
    cbn in Hq. injection Hq as <-.
    replace i with (List.length l - 1)%nat in Hp by lia.
    rewrite (Hc p Hp). exact Hx.
Qed.

Lemma onmessage_noGap (t : R) (data : option (list Z)) (s : App R) :
  noGap s -> t <= nextStartTimeRef (audio s) -> noGap (onmessage t data s).
Proof.
  intros [Hg Hlast] Ht. unfold onmessage.
  destruct (outputAudioContextRef (audio s)) as [rate|]; [|split; assumption].
  destruct data as [[|v rest]|]; try (split; assumption).
  unfold noGap. cbn [audio with_audio nextStartTimeRef started nadd nmax Number_R].
  rewrite Rmax_left by exact Ht. split.
  - apply (gapless_snoc _ (nextStartTimeRef (audio s))); [exact Hg|exact Hlast|reflexivity].
  - intros p. rewrite length_app. cbn [List.length].
    rewrite nth_error_app2 by lia.
    replace (List.length (started (audio s)) + 1 - 1 - List.length (started (audio s)))%nat
      with 0%nat by lia.
    cbn. intros Hp. injection Hp as <-. reflexivity.
Qed.

End QueueTiming.

(** X9: without rounding, once the output context exists, a sequence of
    messages moves the next-start-time cursor forward by at least the
    seconds of audio the messages carry (samples / 24000): no scheduled
    audio is cut short by what is scheduled after it. *)
Theorem cursor_covers_all_audio
  (arrivals : list (R * option (list Z))) (s : App R) :
  outputAudioContextRef (audio s) <> None ->
  (nextStartTimeRef (audio s) + queuedSeconds arrivals
   <= nextStartTimeRef (audio (receive arrivals s)))%R /\
  (0 <= queuedSeconds arrivals)%R.
Proof.
  intros Hctx. split; [|apply queuedSeconds_nonneg].
  revert s Hctx. induction arrivals as [|[t data] more IH]; intros s Hctx.
  - unfold queuedSeconds. cbn. lra.
  - change (receive ((t, data) :: more) s)
      with (receive more (onmessage t data s)).
    rewrite (queuedSeconds_cons (t, data) more).
    destruct (onmessage_cursor t data s Hctx) as [Hstep _].
    assert (Hctx' : outputAudioContextRef (audio (onmessage t data s)) <> None)
      by (rewrite (proj2 (onmessage_refs t data s)); exact Hctx).
    specialize (IH _ Hctx'). lra.
Qed.

Lemma cursor_covers_all_audio_witness :
  (nextStartTimeRef (audio (inCall (A := R)))
   + queuedSeconds [(0%R, Some [1; 2; 3]%Z); (7%R, Some [4]%Z)]
   <= nextStartTimeRef
        (audio (receive [(0%R, Some [1; 2; 3]%Z); (7%R, Some [4]%Z)]
                        (inCall (A := R)))))%R /\
  (0 <= queuedSeconds [(0%R, Some [1; 2; 3]%Z); (7%R, Some [4]%Z)])%R.
Proof.
  apply cursor_covers_all_audio. vm_compute. discriminate.
Defined.

(** X10: without rounding, starting with nothing scheduled, if every
    message arrives no later than the cursor stands (the queue never runs
    out), playback is gapless: every source starts exactly when the one
    before it ends, and the cursor has advanced by exactly the seconds of
    audio received. *)
Theorem playback_is_gapless
  (arrivals : list (R * option (list Z))) (s : App R) :
  outputAudioContextRef (audio s) <> None ->
  started (audio s) = [] ->
  noUnderrun arrivals s ->
  gapless (started (audio (receive arrivals s))) /\
  nextStartTimeRef (audio (receive arrivals s))
    = (nextStartTimeRef (audio s) + queuedSeconds arrivals)%R.
Proof.
  intros Hctx Hnone Hrun.
  assert (Hinv : noGap s).
  { unfold noGap, gapless. rewrite Hnone. split.
    - intros [|i] p q Hp; discriminate Hp.
    - intros p Hp. discriminate Hp. }
  clear Hnone. revert s Hctx Hrun Hinv.
  induction arrivals as [|[t data] more IH]; intros s Hctx Hrun Hinv.
  - split; [apply Hinv|]. unfold queuedSeconds. cbn. lra.
  - change (receive ((t, data) :: more) s)
      with (receive more (onmessage t data s)).
    destruct Hrun as [Ht Hrun].
    destruct (onmessage_cursor t data s Hctx) as [_ Hstep].
    assert (Hctx' : outputAudioContextRef (audio (onmessage t data s)) <> None)
      by (rewrite (proj2 (onmessage_refs t data s)); exact Hctx).
    destruct (IH _ Hctx' Hrun (onmessage_noGap t data s Hinv Ht)) as [Hg Hc].
    split; [exact Hg|]. rewrite Hc, (Hstep Ht), (queuedSeconds_cons (t, data) more). lra.
Qed.

Lemma playback_is_gapless_witness :
  gapless (started (audio (receive [(0%R, Some [1; 2; 3]%Z); (0%R, Some [4]%Z)]
                                   (inCall (A := R))))) /\
  nextStartTimeRef (audio (receive [(0%R, Some [1; 2; 3]%Z); (0%R, Some [4]%Z)]
                                   (inCall (A := R))))
    = (nextStartTimeRef (audio (inCall (A := R)))
       + queuedSeconds [(0%R, Some [1; 2; 3]%Z); (0%R, Some [4]%Z)])%R.
Proof.
  apply playback_is_gapless.
  - vm_compute. discriminate.
  - vm_compute. reflexivity.
  - cbn [noUnderrun]. split; [|split; [|exact I]].
    + assert (E : nextStartTimeRef (audio (inCall (A := R))) = 0%R)
        by (vm_compute; reflexivity).
      rewrite E. lra.
    + assert (E : nextStartTimeRef (audio (inCall (A := R))) = 0%R)
        by (vm_compute; reflexivity).
      assert (Hctx : outputAudioContextRef (audio (inCall (A := R))) <> None)
        by (vm_compute; discriminate).
      destruct (onmessage_cursor 0%R (Some [1; 2; 3]%Z) inCall Hctx) as [Hc _].
      pose proof (queuedSeconds_nonneg [(0%R, Some [1; 2; 3]%Z)]).
      rewrite E in Hc. lra.
Defined.

(** * What the phases go with *)

Section ReachableFacts.

Context {A : Type} `{Number A}.
Variable M : MathLib A.
Variable env : Env.

Lemma initLiveSession_session (video : bool) (s : App A) :
  appState (initLiveSession env video s) = appState s /\
  aiSuggestions (initLiveSession env video s) = aiSuggestions s /\
  timers (initLiveSession env video s) = timers s.
Proof.
  unfold initLiveSession.
  destruct (keyMissing env); [repeat split|].
  destruct (micGranted env); repeat split.
Qed.

Lemma onmessage_session (t : A) (data : option (list Z)) (s : App A) :
  appState (onmessage t data s) = appState s /\
  aiSuggestions (onmessage t data s) = aiSuggestions s /\
  timers (onmessage t data s) = timers s.
Proof.
  rewrite (onmessage_frame t data s). repeat split.
Qed.

Lemma click_sessionInv (c : Control) (s : App A) :
  rendered s c = true -> sessionInv s -> sessionInv (onClick env c s).
Proof.
  unfold rendered, sessionInv. intros Hr Hinv.
  destruct (appState s) eqn:Eph.
  - destruct c; try discriminate Hr.
    cbn [onClick]. unfold triggerSOS, setTimeout.
    cbn [appState timers clock with_timers with_appState].
    destruct Hinv as [Ht Hu]. rewrite Ht. split; [eexists; reflexivity|exact Hu].
  - discriminate Hr.
  - destruct c; try discriminate Hr; cbn [onClick];
      unfold acceptCall, startCall, declineCall, endCall, log;
      repeat match goal with
             | |- context [initLiveSession env ?v ?x] =>
                 let Hs := fresh "Hs" in
                 let Ha := fresh "Ha" in
                 let Ht := fresh "Ht" in
                 destruct (initLiveSession_session v x) as (Hs & Ha & Ht);
                 rewrite ?Hs, ?Ha, ?Ht; clear Hs Ha Ht
             end;
      cbn [appState aiSuggestions timers with_track with_effects
           with_isIncomingCall with_isCalling with_isVideoActive] in *;
      rewrite ?Eph; try exact Hinv.
Qed.

Lemma elapse1_sessionInv (s : App A) : sessionInv s -> sessionInv (elapse1 s).
Proof.
  unfold sessionInv, elapse1, fireDue. intros Hinv.
  cbn [clock timers with_clock].
  destruct (appState s) eqn:Eph.
  - destruct Hinv as [Ht Hu]. rewrite Ht. cbn. rewrite ?Eph.
    split; [reflexivity|exact Hu].
  - destruct Hinv as [[due Ht] Hu]. rewrite Ht. cbn [filter]. unfold isDue.
    cbn [fst]. destruct (due <=? S (clock s))%nat; cbn; rewrite ?Eph.
    + split; [reflexivity|]. right. eexists. reflexivity.
    + split; [eexists; reflexivity|exact Hu].
  - destruct Hinv as [Htips [Ht|[due Ht]]]; rewrite Ht.
    + cbn. rewrite ?Eph. split; [exact Htips|left; reflexivity].
    + cbn [filter]. unfold isDue. cbn [fst].
      destruct (due <=? S (clock s))%nat; cbn; rewrite ?Eph.
      * split; [exact Htips|left; reflexivity].
      * split; [exact Htips|right; eexists; reflexivity].
Qed.

Lemma message_sessionInv (t : A) (data : option (list Z)) (s : App A) :
  sessionInv s -> sessionInv (onmessage t data s).
Proof.
  unfold sessionInv. intros Hinv.
  destruct (onmessage_session t data s) as (Ea & Eb & Ec). rewrite Ea, Ec.
  destruct (appState s) eqn:Eph.
  - assert (E : onmessage t data s = s).
    { unfold onmessage. destruct Hinv as [_ Hu].
      destruct Hu as (_ & _ & _ & _ & _ & _ & Hctx & _). rewrite Hctx. reflexivity. }
    rewrite E. exact Hinv.
  - assert (E : onmessage t data s = s).
    { unfold onmessage. destruct Hinv as [_ Hu].
      destruct Hu as (_ & _ & _ & _ & _ & _ & Hctx & _). rewrite Hctx. reflexivity. }
    rewrite E. exact Hinv.
  - rewrite Eb. exact Hinv.
Qed.

Lemma step_sessionInv (s s' : App A) :
  step M env s s' -> sessionInv s -> sessionInv s'.
Proof.
  intros Hstep. destruct Hstep.
  - apply click_sessionInv. assumption.
  - apply elapse1_sessionInv.
  - intros Hinv. exact Hinv.
  - intros Hinv. exact Hinv.
  - apply message_sessionInv.
Qed.

Lemma steps_sessionInv (s s' : App A) :
  steps M env s s' -> sessionInv s -> sessionInv s'.
Proof.
  intros Hrun. induction Hrun as [s|s s1 s2 Hstep _ IH]; [auto|].
  intros Hinv. apply IH, (step_sessionInv s s1 Hstep Hinv).
Qed.

Lemma initialApp_sessionInv : sessionInv (initialApp (A := A)).
Proof. cbv. repeat split. Qed.

End ReachableFacts.

(** X11: in every state the component can reach from its first render,
    until the dispatch is confirmed (phase not "active") no tip is shown, no
    call is incoming or running, video is off, no call has asked anything of
    the platform (the log of [initLiveSession] and [endCall] is empty: no
    client, no audio context, no microphone request, no live session, no
    context closed) and no audio context exists; once the phase is "active"
    the guidance list is the three fixed tips and stays so.  The geolocation
    request of the mount effect belongs to no call and is not in that log. *)
Theorem nothing_before_dispatch
  {A : Type} `{Number A} (M : MathLib A) (env : Env) (s : App A) :
  steps M env initialApp s ->
  (appState s = active /\ aiSuggestions s = tips) \/
  (appState s <> active /\
   isIncomingCall s = false /\ isCalling s = false /\ isVideoActive s = false /\
   aiSuggestions s = [] /\ effects s = [] /\
   audioContextRef (audio s) = None /\ outputAudioContextRef (audio s) = None).
Proof.
  intros Hrun.
  pose proof (steps_sessionInv M env _ _ Hrun initialApp_sessionInv) as Hinv.
  unfold sessionInv, untouched in Hinv.
  destruct (appState s).
  - right. split; [discriminate|]. tauto.
  - right. split; [discriminate|]. tauto.
  - left. split; [reflexivity|apply Hinv].
Qed.

Lemma nothing_before_dispatch_witness :
  (appState (elapse1 (onClick configured SosButton (initialApp (A := float)))) = active /\
   aiSuggestions (elapse1 (onClick configured SosButton (initialApp (A := float)))) = tips) \/
  (appState (elapse1 (onClick configured SosButton (initialApp (A := float)))) <> active /\
   isIncomingCall (elapse1 (onClick configured SosButton (initialApp (A := float)))) = false /\
   isCalling (elapse1 (onClick configured SosButton (initialApp (A := float)))) = false /\
   isVideoActive (elapse1 (onClick configured SosButton (initialApp (A := float)))) = false /\
   aiSuggestions (elapse1 (onClick configured SosButton (initialApp (A := float)))) = [] /\
   effects (elapse1 (onClick configured SosButton (initialApp (A := float)))) = [] /\
   audioContextRef (audio (elapse1 (onClick configured SosButton (initialApp (A := float))))) = None /\
   outputAudioContextRef (audio (elapse1 (onClick configured SosButton (initialApp (A := float))))) = None).
Proof.
  apply (nothing_before_dispatch RefMath.lib configured).
  apply (steps_cons _ _ _ (onClick configured SosButton initialApp)).
  - apply (step_click _ _ SosButton). reflexivity.
  - apply (steps_cons _ _ _ (elapse1 (onClick configured SosButton initialApp))).
    + apply step_elapse.
    + apply steps_refl.
Defined.

(** X12: in every state the component can reach from its first render at
    most one timeout is pending: none in the idle phase, exactly the
    dispatch confirmation while "dispatching", and at most the incoming-call
    ring once "active". *)
Theorem one_timeout_at_most
  {A : Type} `{Number A} (M : MathLib A) (env : Env) (s : App A) :
  steps M env initialApp s ->
  (List.length (timers s) <= 1)%nat /\
  (appState s = idle -> timers s = []) /\
  (appState s = emergency -> exists due, timers s = [(due, DispatchConfirmed)]) /\
  (appState s = active ->
   timers s = [] \/ exists due, timers s = [(due, RingIncoming)]).
Proof.
  intros Hrun.
  pose proof (steps_sessionInv M env _ _ Hrun initialApp_sessionInv) as Hinv.
  unfold sessionInv in Hinv.
  destruct (appState s).
  - destruct Hinv as [Ht _]. rewrite Ht. cbn.
    repeat split; try discriminate; auto.
  - destruct Hinv as [[due Ht] _]. rewrite Ht. cbn.
    repeat split; try discriminate; eauto.
  - destruct Hinv as [_ [Ht|[due Ht]]]; rewrite Ht; cbn;
      repeat split; try discriminate; eauto.
Qed.

Lemma one_timeout_at_most_witness :
  (List.length (timers (onClick configured SosButton (initialApp (A := float)))) <= 1)%nat /\
  (appState (onClick configured SosButton (initialApp (A := float))) = idle ->
   timers (onClick configured SosButton (initialApp (A := float))) = []) /\
  (appState (onClick configured SosButton (initialApp (A := float))) = emergency ->
   exists due,
     timers (onClick configured SosButton (initialApp (A := float)))
       = [(due, DispatchConfirmed)]) /\
  (appState (onClick configured SosButton (initialApp (A := float))) = active ->
   timers (onClick configured SosButton (initialApp (A := float))) = [] \/
   exists due,
     timers (onClick configured SosButton (initialApp (A := float)))
       = [(due, RingIncoming)]).
Proof.
  apply (one_timeout_at_most RefMath.lib configured).
  apply (steps_cons _ _ _ (onClick configured SosButton initialApp)).
  - apply (step_click _ _ SosButton). reflexivity.
  - apply steps_refl.
Defined.

(** With no timeout pending, 5500 ms after an SOS tap both timeouts of the
    scenario have run and none is left; further milliseconds run none. *)
Lemma timeouts_come_to_rest {A : Type} (s : App A) (k : nat) :
  timers s = [] ->
  let rest := elapse 3000 (elapse 2500 (triggerSOS s)) in
  timers rest = [] /\
  appState rest = active /\
  isIncomingCall rest = true /\
  clock rest = (clock s + 2500 + 3000)%nat /\
  elapse k rest = with_clock (clock rest + k) rest.
Proof.
  intros Hnone rest. subst rest.
  set (s1 := triggerSOS s).
  assert (Hc1 : clock s1 = clock s) by reflexivity.
  assert (Ht1 : timers s1 = [((clock s1 + 2500)%nat, DispatchConfirmed)]).
  { unfold s1, triggerSOS, setTimeout. cbn [timers clock with_timers with_appState].
    rewrite Hnone. reflexivity. }
  pose proof (elapse_fires 2499 DispatchConfirmed s1 Ht1) as E2.
  set (s2 := elapse 2500 s1) in *. clearbody s2.
  assert (Ht2 : timers s2 = [((clock s2 + 3000)%nat, RingIncoming)])
    by (rewrite E2; reflexivity).
  assert (Hc2 : clock s2 = (clock s1 + 2500)%nat) by (rewrite E2; reflexivity).
  pose proof (elapse_fires 2999 RingIncoming s2 Ht2) as E3.
  set (s3 := elapse 3000 s2) in *. clearbody s3.
  assert (Hrest : timers s3 = []) by (rewrite E3; reflexivity).
  assert (Hc3 : clock s3 = (clock s2 + 3000)%nat) by (rewrite E3; reflexivity).
  assert (Hp2 : appState s2 = active) by (rewrite E2; reflexivity).
  assert (Hp3 : appState s3 = appState s2) by (rewrite E3; reflexivity).
  assert (Hr3 : isIncomingCall s3 = true) by (rewrite E3; reflexivity).
  split; [exact Hrest|]. split; [congruence|]. split; [exact Hr3|].
  split; [lia|].
  apply elapse_quiet. rewrite Hrest. intros t [].
Qed.

Section TimeFacts.

Context {A : Type} `{Number A}.
Variable M : MathLib A.

(** No timeout callback reads or writes the track. *)
Lemma runCallback_track (cb : Callback) (t : Track A) (s : App A) :
  runCallback cb (with_track t s) = with_track t (runCallback cb s).
Proof. destruct cb; reflexivity. Qed.

Lemma fold_callbacks_track (due : list (nat * Callback)) (t : Track A) (s : App A) :
  fold_left (fun acc d => runCallback (snd d) acc) due (with_track t s)
  = with_track t (fold_left (fun acc d => runCallback (snd d) acc) due s).
Proof.
  revert s. induction due as [|d due IH]; intros s; [reflexivity|].
  cbn [fold_left]. rewrite runCallback_track. apply IH.
Qed.

Lemma elapse1_track (t : Track A) (s : App A) :
  elapse1 (with_track t s) = with_track t (elapse1 s).
Proof.
  unfold elapse1, fireDue. cbn [clock timers with_clock with_track].
  apply (fold_callbacks_track _ t
           (with_timers (filter (fun d => negb (isDue (S (clock s)) d)) (timers s))
              (with_clock (S (clock s)) s))).
Qed.

Lemma elapse_track (k : nat) (t : Track A) (s : App A) :
  elapse k (with_track t s) = with_track t (elapse k s).
Proof.
  revert s. induction k as [|k IH]; intros s; [reflexivity|].
  cbn [elapse]. rewrite elapse1_track. apply IH.
Qed.

(** Interval ticks and timeouts do not interfere: whatever the interleaving,
    the state is the one the milliseconds alone lead to, up to the track. *)
Lemma passing_elapse (l : list Passing) (s : App A) :
  passing M l s = with_track (track (passing M l s)) (elapse (waited l) s).
Proof.
  revert s. induction l as [|e l IH]; intros s.
  - cbn. symmetry. apply with_track_same.
  - unfold passing in *. cbn [fold_left]. rewrite (IH (pass M e s)) at 1.
    generalize (track (fold_left (fun acc e0 => pass M e0 acc) l (pass M e s))).
    intros t. destruct e as [ms|].
    + cbn [pass waited fold_right]. fold (waited l). rewrite elapse_add. reflexivity.
    + cbn [pass waited fold_right]. fold (waited l). unfold tick.
      rewrite elapse_track. reflexivity.
Qed.

End TimeFacts.

(** X13: with no timeout pending at the SOS tap and no user action after
    it, whatever the interleaving of milliseconds and ticks of the animation
    interval, once 5500 ms have passed the component is the state the two
    timeouts leave (phase "active", the call incoming, no timeout pending) up
    to the clock and the track: nothing rings or dispatches again, and only
    the animation still moves. *)
Theorem scenario_comes_to_rest
  {A : Type} `{Number A} (M : MathLib A) (s : App A) (l : list Passing) :
  timers s = [] ->
  (2500 + 3000 <= waited l)%nat ->
  let rest := elapse 3000 (elapse 2500 (triggerSOS s)) in
  let s' := passing M l (triggerSOS s) in
  timers rest = [] /\
  appState rest = active /\
  isIncomingCall rest = true /\
  s' = with_track (track s') (with_clock (clock s + waited l) rest).
Proof.
  intros Hnone Hlong rest s'.
  destruct (timeouts_come_to_rest s (waited l - (2500 + 3000)) Hnone)
    as (Ht & Hp & Hr & Hc & Hq).
  fold rest in Ht, Hp, Hr, Hc, Hq.
  split; [exact Ht|]. split; [exact Hp|]. split; [exact Hr|].
  unfold s'. rewrite (passing_elapse M l (triggerSOS s)) at 1.
  f_equal.
  replace (waited l) with (2500 + 3000 + (waited l - (2500 + 3000)))%nat at 1 by lia.
  rewrite !elapse_add. fold rest. rewrite Hq, Hc. f_equal. lia.
Qed.

Lemma scenario_comes_to_rest_witness :
  let l := [Wait 2500; IntervalTick; Wait 1500; IntervalTick; Wait 1500; IntervalTick] in
  let rest := elapse 3000 (elapse 2500 (triggerSOS (located (A := float)))) in
  let s' := passing RefMath.lib l (triggerSOS (located (A := float))) in
  timers rest = [] /\
  appState rest = active /\
  isIncomingCall rest = true /\
  s' = with_track (track s') (with_clock (clock (located (A := float)) + waited l) rest).
Proof.
  apply (scenario_comes_to_rest RefMath.lib (located (A := float))
           [Wait 2500; IntervalTick; Wait 1500; IntervalTick; Wait 1500; IntervalTick]).
  - reflexivity.
  - apply Nat.leb_le. vm_compute. reflexivity.
Defined.

(** * Calls *)

(** X14: with a credential and a microphone, accepting the incoming call
    from a state where video is off turns the video flag on but asks the
    platform for the microphone only (the request is made with the video
    flag of the render the handler belongs to) and does not bind the video
    element; the call flag is set, the incoming flag cleared, and the client,
    both audio contexts and the live session are created. *)
Theorem accepting_requests_no_camera {A : Type} (env : Env) (s : App A) :
  keyMissing env = false ->
  micGranted env = true ->
  isVideoActive s = false ->
  effects (acceptCall env s)
    = effects s ++ [CreateClient; NewAudioContext 16000; NewAudioContext 24000;
                    GetUserMedia true false; LiveConnect] /\
  isVideoActive (acceptCall env s) = true /\
  isCalling (acceptCall env s) = true /\
  isIncomingCall (acceptCall env s) = false /\
  audioContextRef (audio (acceptCall env s)) = Some 16000%Z /\
  outputAudioContextRef (audio (acceptCall env s)) = Some 24000%Z.
Proof.
  intros Hkey Hmic Hvideo.
  unfold acceptCall, startCall, initLiveSession, log.
  rewrite Hkey, Hmic.
  cbn [isVideoActive isCalling isIncomingCall effects audio
       with_isIncomingCall with_isCalling with_isVideoActive with_effects with_audio
       audioContextRef outputAudioContextRef].
  rewrite Hvideo. cbn [andb app]. rewrite <- app_assoc.
  repeat split; reflexivity.
Qed.

Lemma accepting_requests_no_camera_witness :
  effects (acceptCall configured (elapse 3000 (dispatched (A := float))))
    = effects (elapse 3000 (dispatched (A := float)))
        ++ [CreateClient; NewAudioContext 16000; NewAudioContext 24000;
            GetUserMedia true false; LiveConnect] /\
  isVideoActive (acceptCall configured (elapse 3000 (dispatched (A := float)))) = true /\
  isCalling (acceptCall configured (elapse 3000 (dispatched (A := float)))) = true /\
  isIncomingCall (acceptCall configured (elapse 3000 (dispatched (A := float)))) = false /\
  audioContextRef (audio (acceptCall configured (elapse 3000 (dispatched (A := float)))))
    = Some 16000%Z /\
  outputAudioContextRef (audio (acceptCall configured (elapse 3000 (dispatched (A := float)))))
    = Some 24000%Z.
Proof.
  apply accepting_requests_no_camera; vm_compute; reflexivity.
Defined.

(** X15: with a credential but no microphone (the request is refused), a
    started call still sets the call flag and creates the client and both
    audio contexts; the failure is only logged, and no live session is
    opened. *)
Theorem refused_microphone_leaves_call_up
  {A : Type} (env : Env) (withVideo : bool) (s : App A) :
  keyMissing env = false ->
  micGranted env = false ->
  isCalling (startCall env withVideo s) = true /\
  isVideoActive (startCall env withVideo s) = withVideo /\
  effects (startCall env withVideo s)
    = effects s ++ [CreateClient; NewAudioContext 16000; NewAudioContext 24000;
                    GetUserMedia true (isVideoActive s); ConsoleError] /\
  ~ In LiveConnect [CreateClient; NewAudioContext 16000; NewAudioContext 24000;
                    GetUserMedia true (isVideoActive s); ConsoleError] /\
  audioContextRef (audio (startCall env withVideo s)) = Some 16000%Z /\
  outputAudioContextRef (audio (startCall env withVideo s)) = Some 24000%Z.
Proof.
  intros Hkey Hmic.
  unfold startCall, initLiveSession, log. rewrite Hkey, Hmic.
  cbn [isVideoActive isCalling effects audio
       with_isCalling with_isVideoActive with_effects with_audio
       audioContextRef outputAudioContextRef].
  rewrite <- app_assoc.
  repeat split; try reflexivity.
  intros Hin. cbn in Hin. repeat destruct Hin as [Hin|Hin]; try discriminate Hin.
  exact Hin.
Qed.

Lemma refused_microphone_leaves_call_up_witness :
  isCalling (startCall {| API_KEY := Some "key"%string; micGranted := false |}
               false (dispatched (A := float))) = true /\
  effects (startCall {| API_KEY := Some "key"%string; micGranted := false |}
             false (dispatched (A := float)))
    = effects (dispatched (A := float))
        ++ [CreateClient; NewAudioContext 16000; NewAudioContext 24000;
            GetUserMedia true (isVideoActive (dispatched (A := float))); ConsoleError].
Proof.
  destruct (refused_microphone_leaves_call_up
              {| API_KEY := Some "key"%string; micGranted := false |}
              false (dispatched (A := float)) eq_refl eq_refl)
    as (Hc & _ & He & _).
  split; [exact Hc|exact He].
Defined.

(** X16: hanging up clears both call flags and closes exactly the contexts
    the two refs hold: both after a call started with a credential, none
    when no context was ever created.  The refs are not cleared, so a second
    hang-up closes the same two contexts again. *)
Theorem hang_up_closes_what_exists
  {A : Type} (env : Env) (withVideo : bool) (s : App A) :
  isCalling (endCall (startCall env withVideo s)) = false /\
  isVideoActive (endCall (startCall env withVideo s)) = false /\
  (keyMissing env = false ->
   effects (endCall (startCall env withVideo s))
     = effects (startCall env withVideo s)
         ++ [CloseContext 16000; CloseContext 24000] /\
   effects (endCall (endCall (startCall env withVideo s)))
     = effects (startCall env withVideo s)
         ++ [CloseContext 16000; CloseContext 24000]
         ++ [CloseContext 16000; CloseContext 24000]) /\
  (keyMissing env = true ->
   audioContextRef (audio s) = None ->
   outputAudioContextRef (audio s) = None ->
   effects (endCall (startCall env withVideo s)) = effects s).
Proof.
  split; [reflexivity|]. split; [reflexivity|]. split.
  - intros Hkey. unfold endCall, startCall, initLiveSession, log. rewrite Hkey.
    destruct (micGranted env);
      cbn [effects audio with_isCalling with_isVideoActive with_effects with_audio
           audioContextRef outputAudioContextRef closeRef app];
      rewrite <- ?app_assoc; split; reflexivity.
  - intros Hkey Ha Ho. unfold endCall, startCall, initLiveSession, log.
    rewrite Hkey.
    cbn [effects audio with_isCalling with_isVideoActive with_effects].
    rewrite Ha, Ho. cbn. apply app_nil_r.
Qed.

Lemma hang_up_closes_what_exists_witness :
  effects (endCall (startCall configured false (dispatched (A := float))))
    = effects (startCall configured false (dispatched (A := float)))
        ++ [CloseContext 16000; CloseContext 24000] /\
  effects (endCall (startCall {| API_KEY := None; micGranted := true |} false
                      (dispatched (A := float))))
    = effects (dispatched (A := float)).
Proof.
  destruct (hang_up_closes_what_exists configured false (dispatched (A := float)))
    as (_ & _ & Hkey & _).
  destruct (hang_up_closes_what_exists {| API_KEY := None; micGranted := true |}
              false (dispatched (A := float)))
    as (_ & _ & _ & Hnone).
  split.
  - apply (Hkey eq_refl).
  - apply Hnone; vm_compute; reflexivity.
Defined.

(** * More on the route animator *)

Section AnimatorFrame.

Context {A : Type} `{Number A}.
Variable M : MathLib A.

Lemma tickTrack_frame (ph : AppState) (t : Track A) :
  location (tickTrack M ph t) = location t /\
  isFollowingAmbulance (tickTrack M ph t) = isFollowingAmbulance t.
Proof.
  unfold tickTrack, onInterval.
  destruct (animating ph t); [|split; reflexivity].
  destruct (nth_error _ _); [|split; reflexivity].
  destruct (nth_error _ _); [|split; reflexivity].
  destruct (nge _ _); split; reflexivity.
Qed.

Lemma tick_index (s : App A) :
  currentRouteIndex (track (tick M s)) = currentRouteIndex (track s) \/
  (currentRouteIndex (track (tick M s)) = S (currentRouteIndex (track s)) /\
   (S (currentRouteIndex (track s)) < List.length (fullRoute (track s)))%nat).
Proof.
  destruct (animating (appState s) (track s)) eqn:Han.
  - destruct (animating_segment _ _ Han) as [Hact (a & b & Ea & Eb)].
    destruct (nge (nadd (progressInSegment (track s)) stepSize) (nZ 1)) eqn:Hge.
    + right. rewrite (tick_boundary M s Han Hge). split; [reflexivity|].
      rewrite Hact in Han. apply animating_active. exact Han.
    + left. rewrite (tick_inside M s a b Han Ea Eb Hge). reflexivity.
  - left. rewrite (not_animating_tick M s Han). reflexivity.
Qed.

End AnimatorFrame.

(** X17: the route index never decreases, and it never runs past the route:
    if it names a waypoint of the route it still does after any number of
    ticks, so [fullRoute[currentRouteIndex]] stays defined. *)
Theorem route_index_stays_in_range
  {A : Type} `{Number A} (M : MathLib A) (s : App A) (n : nat) :
  (currentRouteIndex (track s) <= currentRouteIndex (track (ticks M n s)))%nat /\
  ((currentRouteIndex (track s) < List.length (fullRoute (track s)))%nat ->
   (currentRouteIndex (track (ticks M n s))
    < List.length (fullRoute (track (ticks M n s))))%nat).
Proof.
  induction n as [|n [IHle IHlt]].
  - split; [apply Nat.le_refl|intros Hlt; exact Hlt].
  - rewrite ticks_succ.
    pose proof (tick_index M (ticks M n s)) as Hstep.
    pose proof (ticks_fullRoute M n s) as Hr.
    assert (Hr' : fullRoute (track (tick M (ticks M n s))) = fullRoute (track s)).
    { rewrite <- Hr. unfold tick. cbn [track with_track]. apply tickTrack_fullRoute. }
    rewrite Hr' in *. rewrite Hr in *.
    split.
    + destruct Hstep as [E|[E _]]; rewrite E; lia.
    + intros Hlt. specialize (IHlt Hlt).
      destruct Hstep as [E|[E Hroom]]; rewrite E; lia.
Qed.

Lemma route_index_stays_in_range_witness :
  (currentRouteIndex (track (dispatched (A := float)))
   <= currentRouteIndex (track (ticks RefMath.lib 1200 (dispatched (A := float)))))%nat /\
  (currentRouteIndex (track (ticks RefMath.lib 1200 (dispatched (A := float))))
   < List.length (fullRoute (track (ticks RefMath.lib 1200 (dispatched (A := float))))))%nat.
Proof.
  destruct (route_index_stays_in_range RefMath.lib (dispatched (A := float)) 1200)
    as [Hle Hlt].
  split; [exact Hle|]. apply Hlt. vm_compute. lia.
Defined.

(** X18: ticks change nothing of the component but the track, and within
    the track they leave the route, the user's location and the follow flag
    alone; outside the "active" phase they change nothing at all. *)
Theorem ticks_touch_only_the_pose
  {A : Type} `{Number A} (M : MathLib A) (s : App A) (n : nat) :
  ticks M n s = with_track (track (ticks M n s)) s /\
  fullRoute (track (ticks M n s)) = fullRoute (track s) /\
  location (track (ticks M n s)) = location (track s) /\
  isFollowingAmbulance (track (ticks M n s)) = isFollowingAmbulance (track s) /\
  (appState s <> active -> ticks M n s = s).
Proof.
  split; [|split; [apply ticks_fullRoute|split; [|split]]].
  - induction n as [|n IH]; [destruct s; reflexivity|].
    rewrite ticks_succ.
    transitivity (with_track (track (tick M (ticks M n s))) (ticks M n s));
      [reflexivity|].
    generalize (track (tick M (ticks M n s))). intros t.
    rewrite IH. reflexivity.
  - induction n as [|n IH]; [reflexivity|].
    rewrite ticks_succ. unfold tick. cbn [track with_track].
    rewrite (proj1 (tickTrack_frame M _ _)). exact IH.
  - induction n as [|n IH]; [reflexivity|].
    rewrite ticks_succ. unfold tick. cbn [track with_track].
    rewrite (proj2 (tickTrack_frame M _ _)). exact IH.
  - intros Hph. apply not_animating_ticks. unfold animating.
    destruct (appState s); [reflexivity|reflexivity|contradiction].
Qed.

Lemma ticks_touch_only_the_pose_witness :
  ticks RefMath.lib 100 (located (A := float)) = located (A := float).
Proof.
  apply (ticks_touch_only_the_pose RefMath.lib (located (A := float)) 100).
  vm_compute. discriminate.
Defined.

(** * The pose without rounding *)

Section PoseFacts.

Variable M : MathLib R.

Local Open Scope R_scope.

Lemma progressAfter_R (k : nat) :
  progressAfter (A := R) k = IZR (Z.of_nat k) * (2 / 1000).
Proof.
  induction k as [|k IH].
  - cbn. lra.
  - change (progressAfter (S k)) with (progressAfter (A := R) k + 2 / 1000).
    rewrite IH, Nat2Z.inj_succ, succ_IZR. lra.
Qed.

Lemma R_below (j : nat) :
  (j < 499)%nat -> nge (progressAfter (A := R) (S j)) (nZ 1) = false.
Proof.
  intros Hj. rewrite progressAfter_R.
  change (RNum.ge (IZR (Z.of_nat (S j)) * (2 / 1000)) 1 = false). unfold RNum.ge.
  assert (IZR (Z.of_nat (S j)) <= 499) by (apply IZR_le; lia).
  destruct (Rle_dec 1 (IZR (Z.of_nat (S j)) * (2 / 1000))); [lra|reflexivity].
Qed.

Lemma R_reach : nge (progressAfter (A := R) 500) (nZ 1) = true.
Proof.
  rewrite progressAfter_R.
  change (RNum.ge (IZR (Z.of_nat 500) * (2 / 1000)) 1 = true). unfold RNum.ge.
  assert (E : IZR (Z.of_nat 500) = 500) by (apply f_equal; reflexivity).
  rewrite E.
  destruct (Rle_dec 1 (500 * (2 / 1000))); [reflexivity|lra].
Qed.

Lemma tick_progress_nonneg (s : App R) :
  0 <= progressInSegment (track s) -> 0 <= progressInSegment (track (tick M s)).
Proof.
  intros Hp.
  destruct (animating (appState s) (track s)) eqn:Han.
  - destruct (animating_segment _ _ Han) as [_ (a & b & Ea & Eb)].
    destruct (nge (nadd (progressInSegment (track s)) stepSize) (nZ 1)) eqn:Hge.
    + rewrite (tick_boundary M s Han Hge). cbn. lra.
    + rewrite (tick_inside M s a b Han Ea Eb Hge). cbn. lra.
  - rewrite (not_animating_tick M s Han). exact Hp.
Qed.

Lemma ticks_progress_nonneg (n : nat) (s : App R) :
  0 <= progressInSegment (track s) ->
  0 <= progressInSegment (track (ticks M n s)).
Proof.
  revert s. induction n as [|n IH]; intros s Hp; [exact Hp|].
  cbn [ticks]. apply IH, tick_progress_nonneg, Hp.
Qed.

Lemma between (a b p : R) :
  0 <= p <= 1 -> Rmin a b <= a + (b - a) * p <= Rmax a b.
Proof.
  intros Hp. unfold Rmin, Rmax. destruct (Rle_dec a b); nra.
Qed.

End PoseFacts.

(** X19: without rounding, from a state whose progress is 0, whenever the
    progress is not 0 the reported position lies between the two ends of the
    current segment, in latitude and in longitude: the marker never leaves
    the segment it is on. *)
Theorem position_stays_on_segment (M : MathLib R) (s : App R) (n : nat) :
  progressInSegment (track s) = 0%R ->
  let s' := ticks M n s in
  progressInSegment (track s') = 0%R \/
  exists start end_,
    nth_error (fullRoute (track s')) (currentRouteIndex (track s')) = Some start /\
    nth_error (fullRoute (track s')) (S (currentRouteIndex (track s'))) = Some end_ /\
    (Rmin (fst start) (fst end_) <= fst (ambulancePos (track s'))
       <= Rmax (fst start) (fst end_))%R /\
    (Rmin (snd start) (snd end_) <= snd (ambulancePos (track s'))
       <= Rmax (snd start) (snd end_))%R.
Proof.
  intros Hp0 s'.
  assert (Hnn : (0 <= progressInSegment (track s'))%R)
    by (apply ticks_progress_nonneg; rewrite Hp0; lra).
  assert (Hon : onSegment s) by (left; exact Hp0).
  destruct (ticks_onSegment M n s Hon) as [E|(a & b & Ea & Eb & Hlt & Hpos)].
  - left. exact E.
  - right. exists a, b. fold s' in Ea, Eb, Hlt, Hpos.
    apply ge_false in Hlt. cbn in Hlt.
    split; [exact Ea|]. split; [exact Eb|].
    rewrite Hpos. unfold interpolate. cbn [fst snd nadd nmul nsub Number_R].
    split; apply between; lra.
Qed.

Lemma position_stays_on_segment_witness :
  let s' := ticks RealMath.lib 3 (dispatched (A := R)) in
  progressInSegment (track s') = 0%R \/
  exists start end_,
    nth_error (fullRoute (track s')) (currentRouteIndex (track s')) = Some start /\
    nth_error (fullRoute (track s')) (S (currentRouteIndex (track s'))) = Some end_ /\
    (Rmin (fst start) (fst end_) <= fst (ambulancePos (track s'))
       <= Rmax (fst start) (fst end_))%R /\
    (Rmin (snd start) (snd end_) <= snd (ambulancePos (track s'))
       <= Rmax (snd start) (snd end_))%R.
Proof.
  apply (position_stays_on_segment RealMath.lib (dispatched (A := R)) 3).
  vm_compute. reflexivity.
Defined.

(** * Where the marker comes to rest *)

Section ArrivalFacts.

Variable M : MathLib R.

Local Open Scope R_scope.

Lemma ge_R_false (x : R) : x < 1 -> nge x (nZ 1) = false.
Proof.
  intros Hx. change (RNum.ge x 1 = false). unfold RNum.ge.
  destruct (Rle_dec 1 x); [lra|reflexivity].
Qed.

Lemma ge_R_true (x : R) : 1 <= x -> nge x (nZ 1) = true.
Proof.
  intros Hx. change (RNum.ge x 1 = true). unfold RNum.ge.
  destruct (Rle_dec 1 x); [reflexivity|lra].
Qed.

(** The last two ticks of the last segment: the 499th writes the pose and
    the ETA, the 500th only moves the index. *)
Lemma last_two_ticks (s : App R) (start end_ : coord R) :
  appState s = active ->
  progressInSegment (track s) = 996 / 1000 ->
  nth_error (fullRoute (track s)) (currentRouteIndex (track s)) = Some start ->
  nth_error (fullRoute (track s)) (S (currentRouteIndex (track s))) = Some end_ ->
  List.length (fullRoute (track s)) = S (S (currentRouteIndex (track s))) ->
  ambulancePos (track (tick M (tick M s)))
    = (fst start + (fst end_ - fst start) * (998 / 1000),
       snd start + (snd end_ - snd start) * (998 / 1000)) /\
  eta (track (tick M (tick M s))) = 1.
Proof.
  intros Hact Hp Ea Eb Hlen.
  assert (Han : animating (appState s) (track s) = true).
  { rewrite Hact. apply animating_active. lia. }
  assert (Hnext : nadd (progressInSegment (track s)) stepSize = 998 / 1000).
  { rewrite Hp. change (996 / 1000 + 2 / 1000 = 998 / 1000). lra. }
  assert (Hge : nge (nadd (progressInSegment (track s)) stepSize) (nZ 1) = false).
  { rewrite Hnext. apply ge_R_false. lra. }
  pose proof (tick_inside M s start end_ Han Ea Eb Hge) as EC.
  remember (tick M s) as sC eqn:EsC.
  assert (HaC : appState sC = active).
  { rewrite EsC. change (appState (tick M s)) with (appState s). exact Hact. }
  assert (HanC : animating (appState sC) (track sC) = true).
  { rewrite HaC. apply animating_active. rewrite EC.
    cbn [currentRouteIndex fullRoute]. lia. }
  assert (HgeC : nge (nadd (progressInSegment (track sC)) stepSize) (nZ 1) = true).
  { rewrite EC. cbn [progressInSegment]. rewrite Hnext. apply ge_R_true.
    change (1 <= 998 / 1000 + 2 / 1000). lra. }
  rewrite (tick_boundary M sC HanC HgeC). cbn [ambulancePos eta].
  rewrite EC. cbn [ambulancePos eta]. rewrite Hnext.
  split; [reflexivity|].
  rewrite etaAt_spec, Hlen.
  replace (Z.of_nat (S (S (currentRouteIndex (track s)))) - 1
           - Z.of_nat (currentRouteIndex (track s)))%Z with 1%Z by lia.
  assert (Ec : Zceil ((1 - 998 / 1000) * 3) = 1%Z) by (apply Zceil_eq; lra).
  rewrite Ec. apply Rmax_left. lra.
Qed.

Lemma last_segment (s : App R) (start end_ : coord R) :
  appState s = active ->
  progressInSegment (track s) = 0 ->
  nth_error (fullRoute (track s)) (currentRouteIndex (track s)) = Some start ->
  nth_error (fullRoute (track s)) (S (currentRouteIndex (track s))) = Some end_ ->
  List.length (fullRoute (track s)) = S (S (currentRouteIndex (track s))) ->
  ambulancePos (track (ticks M 500 s))
    = (fst start + (fst end_ - fst start) * (998 / 1000),
       snd start + (snd end_ - snd start) * (998 / 1000)) /\
  eta (track (ticks M 500 s)) = 1.
Proof.
  intros Hact Hp0 Ea Eb Hlen.
  assert (Han : animating (appState s) (track s) = true).
  { rewrite Hact. apply animating_active. lia. }
  rewrite (ticks_succ M 499 s), (ticks_succ M 498 s).
  destruct (within_segment M 499 R_below 498 s) as [Hi Hp];
    [lia|exact Han|exact Hp0|].
  rewrite progressAfter_R in Hp.
  pose proof (ticks_fullRoute M 498 s) as Hr.
  pose proof (ticks_appState M 498 s) as Ha.
  revert Hi Hp Hr Ha. generalize (ticks M 498 s) as sB. intros sB Hi Hp Hr Ha.
  apply last_two_ticks.
  - rewrite Ha. exact Hact.
  - rewrite Hp.
    assert (E : IZR (Z.of_nat 498) = 498) by (apply f_equal; reflexivity).
    rewrite E. lra.
  - rewrite Hr, Hi. exact Ea.
  - rewrite Hr, Hi. exact Eb.
  - rewrite Hr, Hi. exact Hlen.
Qed.

Lemma short_of_the_end (start end_ : coord R) :
  start <> end_ ->
  (fst start + (fst end_ - fst start) * (998 / 1000),
   snd start + (snd end_ - snd start) * (998 / 1000)) <> end_.
Proof.
  destruct start as [a b], end_ as [c d]. cbn [fst snd].
  intros Hne E. injection E as E1 E2. apply Hne.
  f_equal; lra.
Qed.

End ArrivalFacts.

(** X20: without rounding, on a route of N >= 2 waypoints entered in the
    active phase at its first waypoint, from tick (N - 1) * 500 on the
    marker rests at 99.8% of the last segment and the ETA reads 1: unless the
    last segment has no length the marker never stands on the final
    waypoint, and the ETA never goes below one minute. *)
Theorem ambulance_never_arrives
  (M : MathLib R) (s : App R) (start end_ : coord R) (k : nat) :
  appState s = active ->
  currentRouteIndex (track s) = 0%nat ->
  progressInSegment (track s) = 0%R ->
  (2 <= List.length (fullRoute (track s)))%nat ->
  nth_error (fullRoute (track s)) (List.length (fullRoute (track s)) - 2) = Some start ->
  nth_error (fullRoute (track s)) (List.length (fullRoute (track s)) - 1) = Some end_ ->
  ((List.length (fullRoute (track s)) - 1) * 500 <= k)%nat ->
  ambulancePos (track (ticks M k s))
    = (fst start + (fst end_ - fst start) * (998 / 1000),
       snd start + (snd end_ - snd start) * (998 / 1000))%R /\
  eta (track (ticks M k s)) = 1%R /\
  (start <> end_ -> ambulancePos (track (ticks M k s)) <> end_).
Proof.
  intros Hact Hi0 Hp0 HN Ea Eb Hk.
  set (N := List.length (fullRoute (track s))) in *.
  destruct (completion M 499 R_below R_reach s Hact Hi0 Hp0 HN) as (_ & _ & _ & Hstay).
  fold N in Hstay. rewrite (Hstay k Hk).
  replace ((N - 1) * 500)%nat with ((N - 2) * 500 + 500)%nat by lia.
  rewrite ticks_add.
  destruct (after_segments M 499 R_below R_reach (N - 2) s Hact Hp0) as [Hi Hp];
    [fold N; lia|].
  set (sA := ticks M ((N - 2) * 500) s) in *.
  assert (HrA : fullRoute (track sA) = fullRoute (track s)) by apply ticks_fullRoute.
  assert (HaA : appState sA = active) by (unfold sA; rewrite ticks_appState; exact Hact).
  rewrite Hi0 in Hi. cbn [Nat.add] in Hi.
  destruct (last_segment M sA start end_) as [Hpos Heta].
  - exact HaA.
  - exact Hp.
  - rewrite HrA, Hi. exact Ea.
  - rewrite HrA, Hi. replace (S (N - 2)) with (N - 1)%nat by lia. exact Eb.
  - rewrite HrA, Hi. fold N. lia.
  - rewrite Hpos, Heta. split; [reflexivity|]. split; [reflexivity|].
    apply short_of_the_end.
Qed.

Lemma ambulance_never_arrives_witness :
  ambulancePos (track (ticks RealMath.lib 2000 (dispatched (A := R))))
    = (fst (nth 3 (mockRoute london) london)
       + (fst (nth 4 (mockRoute london) london)
          - fst (nth 3 (mockRoute london) london)) * (998 / 1000),
       snd (nth 3 (mockRoute london) london)
       + (snd (nth 4 (mockRoute london) london)
          - snd (nth 3 (mockRoute london) london)) * (998 / 1000))%R /\
  eta (track (ticks RealMath.lib 2000 (dispatched (A := R)))) = 1%R.
Proof.
  assert (Hact : appState (dispatched (A := R)) = active) by (vm_compute; reflexivity).
  assert (Hi0 : currentRouteIndex (track (dispatched (A := R))) = 0%nat) by (vm_compute; reflexivity).
  assert (Hp0 : progressInSegment (track (dispatched (A := R))) = 0%R) by (vm_compute; reflexivity).
  assert (HN : (2 <= List.length (fullRoute (track (dispatched (A := R)))))%nat)
    by (vm_compute; lia).
  assert (Ea : nth_error (fullRoute (track (dispatched (A := R))))
                 (List.length (fullRoute (track (dispatched (A := R)))) - 2)
               = Some (nth 3 (mockRoute (A := R) london) london)) by (vm_compute; reflexivity).
  assert (Eb : nth_error (fullRoute (track (dispatched (A := R))))
                 (List.length (fullRoute (track (dispatched (A := R)))) - 1)
               = Some (nth 4 (mockRoute (A := R) london) london)) by (vm_compute; reflexivity).
  assert (Hk : ((List.length (fullRoute (track (dispatched (A := R)))) - 1) * 500
                <= 2000)%nat) by (vm_compute; lia).
  destruct (ambulance_never_arrives RealMath.lib (dispatched (A := R))
              (nth 3 (mockRoute london) london) (nth 4 (mockRoute london) london)
              2000 Hact Hi0 Hp0 HN Ea Eb Hk)
    as (Hpos & Heta & _).
  split; [exact Hpos|exact Heta].
Defined.
(** * Headings along parallels and on the generated route *)

Section HeadingFacts.

Local Open Scope R_scope.

(** The bearing in degrees, before and after the [+ 360) % 360]. *)
Lemma bearing_deg (start end_ : coord R) :
  let deg := RealMath.atan2 (bearingY start end_) (bearingX start end_) * 180 / PI in
  - 180 < deg <= 180 /\
  getBearing RealMath.lib start end_ = (if Rlt_dec deg 0 then deg + 360 else deg).
Proof.
  intros deg. pose proof PI_RGT_0 as Hpi.
  pose proof (deg_of_atan2 _ (atan2_bound (bearingY start end_) (bearingX start end_)))
    as Hv.
  fold deg in Hv.
  assert (Hd : - 180 < deg <= 180) by lra.
  split; [exact Hd|].
  apply bearing_of_angle; [|exact Hd].
  unfold deg, rad. field. lra.
Qed.

Lemma deg_between (a lo hi : R) :
  lo * PI / 180 < a < hi * PI / 180 -> lo < a * 180 / PI < hi.
Proof.
  intros [Hlo Hhi]. pose proof PI_RGT_0 as Hpi.
  set (d := a * 180 / PI).
  assert (Ea : a = d * (PI / 180)) by (unfold d; field; lra).
  rewrite Ea in Hlo, Hhi.
  split; apply Rmult_lt_reg_r with (PI / 180); lra.
Qed.

Lemma bearing_second_quadrant (start end_ : coord R) :
  0 < bearingY start end_ -> bearingX start end_ < 0 ->
  90 < getBearing RealMath.lib start end_ < 180.
Proof.
  intros Hy Hx. pose proof PI_RGT_0 as Hpi.
  destruct (bearing_deg start end_) as [_ E]. rewrite E. clear E.
  set (q := bearingY start end_ / bearingX start end_).
  assert (Hq : q < 0).
  { pose proof (Rinv_lt_0_compat _ Hx) as Hi. unfold q, Rdiv. nra. }
  pose proof (atan_neg q Hq) as Hhi. pose proof (atan_bound q) as [Hlo _].
  assert (Ea : RealMath.atan2 (bearingY start end_) (bearingX start end_) = atan q + PI).
  { unfold RealMath.atan2.
    destruct (Rlt_dec 0 (bearingX start end_)); [lra|].
    destruct (Rlt_dec (bearingX start end_) 0); [|lra].
    destruct (Rle_dec 0 (bearingY start end_)); [reflexivity|lra]. }
  rewrite Ea.
  pose proof (deg_between (atan q + PI) 90 180) as Hd.
  destruct Hd as [Hd1 Hd2]; [lra|].
  destruct (Rlt_dec ((atan q + PI) * 180 / PI) 0); lra.
Qed.

Lemma bearing_third_quadrant (start end_ : coord R) :
  bearingY start end_ < 0 -> bearingX start end_ < 0 ->
  180 < getBearing RealMath.lib start end_ < 270.
Proof.
  intros Hy Hx. pose proof PI_RGT_0 as Hpi.
  destruct (bearing_deg start end_) as [_ E]. rewrite E. clear E.
  set (q := bearingY start end_ / bearingX start end_).
  assert (Hq : 0 < q).
  { pose proof (Rinv_lt_0_compat _ Hx) as Hi. unfold q, Rdiv. nra. }
  pose proof (atan_pos q Hq) as Hlo. pose proof (atan_bound q) as [_ Hhi].
  assert (Ea : RealMath.atan2 (bearingY start end_) (bearingX start end_) = atan q - PI).
  { unfold RealMath.atan2.
    destruct (Rlt_dec 0 (bearingX start end_)); [lra|].
    destruct (Rlt_dec (bearingX start end_) 0); [|lra].
    destruct (Rle_dec 0 (bearingY start end_)); [lra|reflexivity]. }
  rewrite Ea.
  pose proof (deg_between (atan q - PI) (-180) (-90)) as Hd.
  destruct Hd as [Hd1 Hd2]; [lra|].
  destruct (Rlt_dec ((atan q - PI) * 180 / PI) 0); lra.
Qed.

Lemma bearing_fourth_quadrant (start end_ : coord R) :
  bearingY start end_ < 0 -> 0 < bearingX start end_ ->
  270 < getBearing RealMath.lib start end_ < 360.
Proof.
  intros Hy Hx. pose proof PI_RGT_0 as Hpi.
  destruct (bearing_deg start end_) as [_ E]. rewrite E. clear E.
  set (q := bearingY start end_ / bearingX start end_).
  assert (Hq : q < 0).
  { pose proof (Rinv_0_lt_compat _ Hx) as Hi. unfold q, Rdiv. nra. }
  pose proof (atan_neg q Hq) as Hhi. pose proof (atan_bound q) as [Hlo _].
  assert (Ea : RealMath.atan2 (bearingY start end_) (bearingX start end_) = atan q).
  { unfold RealMath.atan2.
    destruct (Rlt_dec 0 (bearingX start end_)); [reflexivity|lra]. }
  rewrite Ea.
  pose proof (deg_between (atan q) (-90) 0) as Hd.
  destruct Hd as [Hd1 Hd2]; [lra|].
  destruct (Rlt_dec (atan q * 180 / PI) 0); lra.
Qed.

Lemma cos_below_1 (d : R) : 0 < d < PI \/ - PI < d < 0 -> cos d < 1.
Proof.
  pose proof PI_RGT_0 as Hpi. rewrite <- cos_0. intros [Hd|Hd].
  - apply cos_decreasing_1; lra.
  - rewrite <- (cos_neg d). apply cos_decreasing_1; lra.
Qed.

(** [y] and [x] of a segment along a parallel. *)
Lemma parallel_xy (start end_ : coord R) :
  fst end_ = fst start ->
  bearingY start end_
    = sin (rad (snd end_ - snd start)) * cos (rad (fst start)) /\
  bearingX start end_
    = sin (rad (fst start)) * cos (rad (fst start))
      * (1 - cos (rad (snd end_ - snd start))).
Proof.
  intros E. unfold bearingY, bearingX. rewrite E.
  replace (rad (snd end_) - rad (snd start)) with (rad (snd end_ - snd start))
    by (unfold rad; lra).
  split; ring.
Qed.

Lemma parallel_signs (lat dlng : R) :
  - 90 < lat < 90 -> lat <> 0 -> - 180 < dlng < 180 -> dlng <> 0 ->
  0 < cos (rad lat) /\ 0 < 1 - cos (rad dlng) /\
  (0 < lat -> 0 < sin (rad lat)) /\ (lat < 0 -> sin (rad lat) < 0) /\
  (0 < dlng -> 0 < sin (rad dlng)) /\ (dlng < 0 -> sin (rad dlng) < 0).
Proof.
  intros Hlat Hl0 Hd Hd0. pose proof PI_RGT_0 as Hpi.
  assert (Rl : - (PI / 2) < rad lat < PI / 2) by (unfold rad; nra).
  assert (Rd : - PI < rad dlng < PI) by (unfold rad; nra).
  assert (Pl : 0 < lat -> 0 < rad lat) by (intros H; unfold rad; nra).
  assert (Nl : lat < 0 -> rad lat < 0) by (intros H; unfold rad; nra).
  assert (Pd : 0 < dlng -> 0 < rad dlng) by (intros H; unfold rad; nra).
  assert (Nd : dlng < 0 -> rad dlng < 0) by (intros H; unfold rad; nra).
  split; [apply cos_gt_0; lra|].
  split.
  { assert (cos (rad dlng) < 1); [|lra].
    apply cos_below_1. destruct (Rlt_dec 0 dlng) as [Hp|Hn].
    - left. specialize (Pd Hp). lra.
    - right. assert (Hneg : dlng < 0) by lra. specialize (Nd Hneg). lra. }
  split; [intros H; specialize (Pl H); apply sin_gt_0; lra|].
  split; [intros H; specialize (Nl H); apply sin_lt_0_var; lra|].
  split; [intros H; specialize (Pd H); apply sin_gt_0; lra|].
  intros H; specialize (Nd H); apply sin_lt_0_var; lra.
Qed.

Lemma east_north (start end_ : coord R) :
  fst end_ = fst start -> 0 < fst start < 90 -> 0 < snd end_ - snd start < 180 ->
  0 < getBearing RealMath.lib start end_ < 90.
Proof.
  intros E Hlat Hd. destruct (parallel_xy start end_ E) as [Ey Ex].
  destruct (parallel_signs (fst start) (snd end_ - snd start))
    as (Hc & Hv & Hsp & _ & Hdp & _); [lra|lra|lra|lra|].
  apply bearing_first_quadrant.
  - rewrite Ey. apply Rmult_lt_0_compat; [apply Hdp; lra|exact Hc].
  - rewrite Ex. apply Rmult_lt_0_compat; [|exact Hv].
    apply Rmult_lt_0_compat; [apply Hsp; lra|exact Hc].
Qed.

Lemma west_north (start end_ : coord R) :
  fst end_ = fst start -> 0 < fst start < 90 -> - 180 < snd end_ - snd start < 0 ->
  270 < getBearing RealMath.lib start end_ < 360.
Proof.
  intros E Hlat Hd. destruct (parallel_xy start end_ E) as [Ey Ex].
  destruct (parallel_signs (fst start) (snd end_ - snd start))
    as (Hc & Hv & Hsp & _ & _ & Hdn); [lra|lra|lra|lra|].
  apply bearing_fourth_quadrant.
  - rewrite Ey. assert (Hs := Hdn (proj2 Hd)). nra.
  - rewrite Ex. apply Rmult_lt_0_compat; [|exact Hv].
    apply Rmult_lt_0_compat; [apply Hsp; lra|exact Hc].
Qed.

Lemma east_south (start end_ : coord R) :
  fst end_ = fst start -> - 90 < fst start < 0 -> 0 < snd end_ - snd start < 180 ->
  90 < getBearing RealMath.lib start end_ < 180.
Proof.
  intros E Hlat Hd. destruct (parallel_xy start end_ E) as [Ey Ex].
  destruct (parallel_signs (fst start) (snd end_ - snd start))
    as (Hc & Hv & _ & Hsn & Hdp & _); [lra|lra|lra|lra|].
  apply bearing_second_quadrant.
  - rewrite Ey. apply Rmult_lt_0_compat; [apply Hdp; lra|exact Hc].
  - rewrite Ex. assert (Hs := Hsn (proj2 Hlat)).
    assert (Hsc : sin (rad (fst start)) * cos (rad (fst start)) < 0) by nra.
    nra.
Qed.

Lemma west_south (start end_ : coord R) :
  fst end_ = fst start -> - 90 < fst start < 0 -> - 180 < snd end_ - snd start < 0 ->
  180 < getBearing RealMath.lib start end_ < 270.
Proof.
  intros E Hlat Hd. destruct (parallel_xy start end_ E) as [Ey Ex].
  destruct (parallel_signs (fst start) (snd end_ - snd start))
    as (Hc & Hv & _ & Hsn & _ & Hdn); [lra|lra|lra|lra|].
  apply bearing_third_quadrant.
  - rewrite Ey. assert (Hs := Hdn (proj2 Hd)). nra.
  - rewrite Ex. assert (Hs := Hsn (proj2 Hlat)).
    assert (Hsc : sin (rad (fst start)) * cos (rad (fst start)) < 0) by nra.
    nra.
Qed.

Lemma tick_heading (s : App R) :
  0 <= ambulanceBearing (track s) < 360 ->
  0 <= ambulanceBearing (track (tick RealMath.lib s)) < 360.
Proof.
  intros H. unfold tick. cbn [track with_track]. unfold tickTrack.
  destruct (animating (appState s) (track s)); [|exact H].
  destruct (nth_error (fullRoute (track s)) (currentRouteIndex (track s)))
    as [start|]; [|exact H].
  destruct (nth_error (fullRoute (track s)) (S (currentRouteIndex (track s))))
    as [end_|]; [|exact H].
  unfold onInterval.
  destruct (nge (nadd (progressInSegment (track s)) stepSize) (nZ 1));
    cbn [ambulanceBearing]; [exact H|apply bearing_range].
Qed.

End HeadingFacts.

(** X21: without rounding, the marker's heading is a compass angle at every
    tick: from a heading in [0, 360) (the initial one is 0) any number of
    ticks, on any route and in any phase, leaves it in [0, 360). *)
Theorem heading_stays_in_range (s : App R) (k : nat) :
  (0 <= ambulanceBearing (track s) < 360)%R ->
  (0 <= ambulanceBearing (track (ticks RealMath.lib k s)) < 360)%R.
Proof.
  revert s. induction k as [|k IH]; intros s H.
  - exact H.
  - cbn [ticks]. apply IH. apply tick_heading. exact H.
Qed.

Lemma heading_stays_in_range_witness :
  (0 <= ambulanceBearing (track (ticks RealMath.lib 700 (dispatched (A := R)))) < 360)%R.
Proof.
  apply (heading_stays_in_range (dispatched (A := R)) 700).
  assert (E : ambulanceBearing (track (dispatched (A := R))) = 0%R)
    by (vm_compute; reflexivity).
  rewrite E. lra.
Defined.

(** X22: without rounding, a segment along a parallel is never given the
    heading 90 or 270 off the equator: the great-circle bearing leans
    towards the nearer pole.  Eastwards it lies strictly between 0 and 90
    in the northern hemisphere and between 90 and 180 in the southern one;
    westwards between 270 and 360, and between 180 and 270. *)
Theorem parallel_heading_leans_poleward (start end_ : coord R) :
  fst end_ = fst start ->
  ((0 < fst start < 90 -> 0 < snd end_ - snd start < 180 ->
    0 < getBearing RealMath.lib start end_ < 90) /\
   (0 < fst start < 90 -> - 180 < snd end_ - snd start < 0 ->
    270 < getBearing RealMath.lib start end_ < 360) /\
   (- 90 < fst start < 0 -> 0 < snd end_ - snd start < 180 ->
    90 < getBearing RealMath.lib start end_ < 180) /\
   (- 90 < fst start < 0 -> - 180 < snd end_ - snd start < 0 ->
    180 < getBearing RealMath.lib start end_ < 270))%R.
Proof.
  intros E. split; [|split; [|split]]; intros Hlat Hd.
  - exact (east_north start end_ E Hlat Hd).
  - exact (west_north start end_ E Hlat Hd).
  - exact (east_south start end_ E Hlat Hd).
  - exact (west_south start end_ E Hlat Hd).
Qed.

Lemma parallel_heading_leans_poleward_witness :
  (0 < getBearing RealMath.lib (45, 0) (45, 90) < 90 /\
   270 < getBearing RealMath.lib (45, 90) (45, 0) < 360 /\
   90 < getBearing RealMath.lib (-45, 0) (-45, 90) < 180 /\
   180 < getBearing RealMath.lib (-45, 90) (-45, 0) < 270)%R.
Proof.
  split; [|split; [|split]].
  - apply (proj1 (parallel_heading_leans_poleward (45, 0) (45, 90) eq_refl)%R);
      cbn [fst snd]; lra.
  - apply (proj1 (proj2 (parallel_heading_leans_poleward (45, 90) (45, 0) eq_refl)%R));
      cbn [fst snd]; lra.
  - apply (proj1 (proj2 (proj2
             (parallel_heading_leans_poleward (-45, 0) (-45, 90) eq_refl)%R)));
      cbn [fst snd]; lra.
  - apply (proj2 (proj2 (proj2
             (parallel_heading_leans_poleward (-45, 90) (-45, 0) eq_refl)%R)));
      cbn [fst snd]; lra.
Defined.

(** X23: without rounding, for a user in the northern hemisphere (latitude
    between 0 and 89 degrees) the generated route is driven west, south,
    west, south: its second and fourth legs have the heading 180 exactly,
    its first and third legs a heading strictly between 270 and 360. *)
Theorem mock_route_headings (userLoc p0 p1 p2 p3 p4 : coord R) :
  mockRoute userLoc = [p0; p1; p2; p3; p4] ->
  (0 < fst userLoc < 89)%R ->
  (270 < getBearing RealMath.lib p0 p1 < 360)%R /\
  getBearing RealMath.lib p1 p2 = 180%R /\
  (270 < getBearing RealMath.lib p2 p3 < 360)%R /\
  getBearing RealMath.lib p3 p4 = 180%R /\
  p4 = userLoc.
Proof.
  intros E Hlat. unfold mockRoute in E. destruct userLoc as [lat lng].
  cbn [fst snd] in E, Hlat.
  injection E as E0 E1 E2 E3 E4. subst p0 p1 p2 p3 p4.
  change (dec (A := R) 15 1000) with (15 / 1000)%R.
  change (dec (A := R) 1 100) with (1 / 100)%R.
  change (dec (A := R) 5 1000) with (5 / 1000)%R.
  change (@nadd R Number_R) with Rplus.
  split; [|split; [|split; [|split]]].
  - apply west_north; cbn [fst snd]; [reflexivity|lra|lra].
  - apply bearing_south; cbn [fst snd]; [reflexivity|lra].
  - apply west_north; cbn [fst snd]; [reflexivity|lra|lra].
  - apply bearing_south; cbn [fst snd]; [reflexivity|lra].
  - reflexivity.
Qed.

Lemma mock_route_headings_witness :
  (270 < getBearing RealMath.lib (nth 0 (mockRoute london) london)
                                 (nth 1 (mockRoute london) london) < 360)%R /\
  getBearing RealMath.lib (nth 1 (mockRoute london) london)
                          (nth 2 (mockRoute london) london) = 180%R /\
  (270 < getBearing RealMath.lib (nth 2 (mockRoute london) london)
                                 (nth 3 (mockRoute london) london) < 360)%R /\
  getBearing RealMath.lib (nth 3 (mockRoute london) london)
                          (nth 4 (mockRoute london) london) = 180%R.
Proof.
  assert (Hlat : (0 < fst (london (A := R)) < 89)%R).
  { change (fst (london (A := R))) with (51505 / 1000)%R. lra. }
  destruct (mock_route_headings london
              (nth 0 (mockRoute london) london) (nth 1 (mockRoute london) london)
              (nth 2 (mockRoute london) london) (nth 3 (mockRoute london) london)
              (nth 4 (mockRoute london) london) eq_refl Hlat)
    as (H0 & H1 & H2 & H3 & _).
  split; [exact H0|]. split; [exact H1|]. split; [exact H2|exact H3].
Defined.

(** X24: without rounding, a segment whose two ends coincide is given the
    heading 0, whatever the point. *)
Theorem degenerate_segment_heads_north (p : coord R) :
  getBearing RealMath.lib p p = 0%R.
Proof.
  pose proof PI_RGT_0 as Hpi.
  rewrite (bearing_of_angle p p 0);
    [destruct (Rlt_dec 0 0); lra| |lra].
  unfold bearingY, bearingX.
  replace (rad (snd p) - rad (snd p))%R with 0%R by lra.
  rewrite sin_0, cos_0, Rmult_0_l, Rmult_1_r.
  replace (cos (rad (fst p)) * sin (rad (fst p))
           - sin (rad (fst p)) * cos (rad (fst p)))%R with 0%R by ring.
  unfold RealMath.atan2.
  destruct (Rlt_dec 0 0); [lra|]. unfold rad. lra.
Qed.
(** * The channel data *)

(** X25: on binary64, every sample the playback path decodes (a 16-bit
    value over 32768) is a binary32 value: writing it into the Float32Array
    channel data of the audio buffer changes nothing, and read from there the
    capture path encodes it to the 16-bit value it came from. *)
Theorem decoded_samples_fit_float32 (v : Z) :
  (-32768 <= v <= 32767)%Z ->
  toFloat32 (decodeSample v) = decodeSample v /\
  encodeSample (toFloat32 (decodeSample v)) = v.
Proof.
  intros Hv.
  assert (Hall : holdsOnBlock 16
                   (fun u => PrimFloat.Leibniz.eqb
                               (toFloat32 (decodeSample (u - 32768)))
                               (decodeSample (u - 32768))) 0 = true)
    by (vm_compute; reflexivity).
  assert (E : toFloat32 (decodeSample v) = decodeSample v).
  { apply Leibniz.eqb_spec.
    replace v with (v + 32768 - 32768)%Z by lia.
    apply (holdsOnBlock_spec 16 _ 0 (v + 32768) Hall).
    change (2 ^ Z.of_nat 16)%Z with 65536%Z. lia. }
  split; [exact E|]. rewrite E. apply int16_survives. exact Hv.
Qed.

Lemma decoded_samples_fit_float32_witness :
  toFloat32 (decodeSample (-12345)) = decodeSample (A := float) (-12345) /\
  encodeSample (toFloat32 (decodeSample (-12345))) = (-12345)%Z.
Proof.
  apply (decoded_samples_fit_float32 (-12345)). lia.
Defined.
